(** * Routing engine and terrain model of the pathfinding tool

    Shallow embedding of [src/js/engine/Pathfinder.js] (buildGraph, dijkstra,
    reconstructPath, findKShortestPaths and their helpers), of the Bézier
    length helper of [src/js/app.js] and of [src/js/models/Terrain.js].

    JavaScript numbers are abstracted by the class [Number]: the routing
    code only uses the arithmetic operations listed there.  Two instances
    are used: exact integers (for graphs whose connections are straight and
    carry integral costs, where the engine only adds and compares) and the
    real numbers of the Standard Library (ideal arithmetic, used for the
    curve-length and terrain formulas).

    A JavaScript [Map] is an association list kept in insertion order:
    [Map.set] replaces the value in place when the key is present and
    appends otherwise, [Map.get] returns the value of the key.  A [Set] of
    strings is a list of strings. *)

From Stdlib Require Import String List ZArith Lia Bool.
From Stdlib Require Import Reals Lra.
From Stdlib Require Import Sorting.Sorted Sorting.Permutation.
Import ListNotations.
Open Scope string_scope.

(** ** JavaScript numbers *)

Class Number (A : Type) := {
  num0 : A;
  num1 : A;
  num_of_Z : Z -> A;
  nadd : A -> A -> A;
  nsub : A -> A -> A;
  nmul : A -> A -> A;
  ndiv : A -> A -> A;
  nsqrt : A -> A;
  nltb : A -> A -> bool;
  (** [x] is falsy as a number (it is zero) *)
  nzerob : A -> bool
}.

(** Exact integers: adequate for connections that are straight and whose
    costs are integers (only [+], [-] and [<] are then used by the engine;
    [ndiv] and [nsqrt] are reached only through curved connections). *)
#[global] Instance Number_Z : Number Z := {
  num0 := 0%Z; num1 := 1%Z; num_of_Z := fun z => z;
  nadd := Z.add; nsub := Z.sub; nmul := Z.mul; ndiv := Z.div;
  nsqrt := Z.sqrt; nltb := Z.ltb; nzerob := fun z => Z.eqb z 0 }.

Definition Rltb (x y : R) : bool := if Rlt_dec x y then true else false.
Definition Rzerob (x : R) : bool := if Req_EM_T x 0 then true else false.

(** Real numbers: ideal arithmetic. *)
#[global] Instance Number_R : Number R := {
  num0 := 0%R; num1 := 1%R; num_of_Z := IZR;
  nadd := Rplus; nsub := Rminus; nmul := Rmult; ndiv := Rdiv;
  nsqrt := sqrt; nltb := Rltb; nzerob := Rzerob }.

(** ** Maps and sets *)

Section JSMap.
Context {V : Type}.

Fixpoint map_get (m : list (string * V)) (k : string) : option V :=
  match m with
  | [] => None
  | (k', v) :: m' => if String.eqb k' k then Some v else map_get m' k
  end.

Fixpoint map_set (m : list (string * V)) (k : string) (v : V) : list (string * V) :=
  match m with
  | [] => [(k, v)]
  | (k', v') :: m' =>
      if String.eqb k' k then (k', v) :: m' else (k', v') :: map_set m' k v
  end.

End JSMap.

Definition set_has (s : list string) (x : string) : bool :=
  existsb (String.eqb x) s.

(** ** Graph *)

Section Graph.
Context {A : Type} `{Number A}.

Record Neighbor := { ncost : A; edgeId : string }.

Record GraphNode := { gn_id : string; neighbors : list (string * Neighbor) }.

Definition Graph := list (string * GraphNode).

Record PathResult := { path : list string; cost : A; edges : list string }.

(** *** Dijkstra *)

(** [queue.sort((a, b) => a.cost - b.cost)]: the sort is stable, and with
    this comparator [b] is placed before [a] exactly when [a.cost - b.cost]
    is positive.  Insertion sort computes the same (unique stable) order. *)
Definition cmp_pos (a b : string * A) : bool := nltb num0 (nsub (snd a) (snd b)).

Fixpoint insert_sorted (x : string * A) (l : list (string * A)) :=
  match l with
  | [] => [x]
  | y :: l' => if cmp_pos y x then x :: y :: l' else y :: insert_sorted x l'
  end.

Definition sort_queue (q : list (string * A)) : list (string * A) :=
  fold_left (fun acc x => insert_sorted x acc) q [].

Record DState := {
  queue : list (string * A);
  costs : list (string * A);
  previous : list (string * string);
  previousEdge : list (string * string);
  visited : list string
}.

Section Search.
Variables (graph : Graph) (startId endId : string)
          (excludedEdges excludedNodes : list string).

(** The body of [node.neighbors.forEach] for the node [current]. *)
Definition explore (cid : string) (ccost : A) (st : DState)
    (nb : string * Neighbor) : DState :=
  let '(neighborId, neighbor) := nb in
  if set_has excludedEdges (edgeId neighbor) then st
  else if negb (String.eqb neighborId startId) && negb (String.eqb neighborId endId)
          && set_has excludedNodes neighborId then st
  else if set_has (visited st) neighborId then st
  else
    let newCost := nadd ccost (ncost neighbor) in
    let upd := {| queue := (queue st ++ [(neighborId, newCost)])%list;
                  costs := map_set (costs st) neighborId newCost;
                  previous := map_set (previous st) neighborId cid;
                  previousEdge := map_set (previousEdge st) neighborId (edgeId neighbor);
                  visited := visited st |} in
    match map_get (costs st) neighborId with
    | None => upd
    | Some existingCost => if nltb newCost existingCost then upd else st
    end.

End Search.

(** [reconstructPath]: walks [previous] back from [endId].  An edge id is
    recorded only when it is truthy ([if (edge)]), i.e. present and not the
    empty string.  The loop is bounded by [fuel]. *)
Fixpoint reconstruct_loop (previous previousEdge : list (string * string))
    (fuel : nat) (current : string) (p es : list string) : list string * list string :=
  match fuel with
  | O => (p, es)
  | S f =>
      let p' := current :: p in
      let es' := match map_get previousEdge current with
                 | Some e => if String.eqb e "" then es else e :: es
                 | None => es
                 end in
      match map_get previous current with
      | None => (p', es')
      | Some c => reconstruct_loop previous previousEdge f c p' es'
      end
  end.

Definition reconstructPath (previous previousEdge : list (string * string))
    (startId endId : string) (totalCost : A) : PathResult :=
  let '(p, es) := reconstruct_loop previous previousEdge
                    (S (length previous)) endId [] [] in
  {| path := p; cost := totalCost; edges := es |}.

Section Search2.
Variables (graph : Graph) (startId endId : string)
          (excludedEdges excludedNodes : list string).

(** The [while (queue.length > 0)] loop, bounded by [fuel]; running out of
    fuel is reported as [None]. *)
Fixpoint dijkstra_loop (fuel : nat) (st : DState) : option PathResult :=
  match fuel with
  | O => None
  | S f =>
      match sort_queue (queue st) with
      | [] => None
      | (cid, ccost) :: rest =>
          let st1 := {| queue := rest; costs := costs st; previous := previous st;
                        previousEdge := previousEdge st; visited := visited st |} in
          if set_has (visited st1) cid then dijkstra_loop f st1
          else
            let st2 := {| queue := rest; costs := costs st; previous := previous st;
                          previousEdge := previousEdge st;
                          visited := (visited st ++ [cid])%list |} in
            if String.eqb cid endId then
              Some (reconstructPath (previous st2) (previousEdge st2) startId endId
                      (match map_get (costs st2) endId with
                       | Some c => c | None => num0 end))
            else
              match map_get graph cid with
              | None => dijkstra_loop f st2
              | Some node =>
                  dijkstra_loop f
                    (fold_left (explore startId endId excludedEdges excludedNodes cid ccost)
                       (neighbors node) st2)
              end
      end
  end.

End Search2.

(** Every node is expanded at most once and an expansion queues at most one
    entry per neighbour, so the loop runs at most once per queue entry: one
    more than the number of adjacency entries of the graph. *)
Definition dijkstra_fuel (graph : Graph) : nat :=
  S (S (fold_right (fun kv n => length (neighbors (snd kv)) + n) 0 graph)).

Definition init_state (startId : string) : DState :=
  {| queue := [(startId, num0)]; costs := [(startId, num0)];
     previous := []; previousEdge := []; visited := [] |}.

Definition dijkstra (graph : Graph) (startId endId : string)
    (excludedEdges excludedNodes : list string) : option PathResult :=
  dijkstra_loop graph startId endId excludedEdges excludedNodes
    (dijkstra_fuel graph) (init_state startId).

End Graph.

Arguments PathResult A : clear implicits.
Arguments GraphNode A : clear implicits.
Arguments Neighbor A : clear implicits.
Arguments Graph A : clear implicits.
Arguments DState A : clear implicits.

(** ** Graph construction *)

Section Build.
Context {A : Type} `{Number A}.

Record Point := { px : A; py : A }.

Record WaypointData := { wp_id : string; wp_x : A; wp_y : A }.

(** [edge.bidirectional] is [None] when the flag is absent; a missing
    [controlPoints] array is the empty list. *)
Record EdgeData := {
  e_id : string;
  e_from : string;
  e_to : string;
  e_cost : A;
  e_type : string;
  e_controlPoints : list Point;
  e_bidirectional : option bool
}.

(** [cubicBezierPoint] (src/js/app.js). *)
Definition cubicBezierPoint (p0 p1 p2 p3 : Point) (t : A) : Point :=
  let t2 := nmul t t in
  let t3 := nmul t2 t in
  let mt := nsub num1 t in
  let mt2 := nmul mt mt in
  let mt3 := nmul mt2 mt in
  let three := num_of_Z 3 in
  {| px := nadd (nadd (nadd (nmul mt3 (px p0)) (nmul (nmul (nmul three mt2) t) (px p1)))
                      (nmul (nmul (nmul three mt) t2) (px p2))) (nmul t3 (px p3));
     py := nadd (nadd (nadd (nmul mt3 (py p0)) (nmul (nmul (nmul three mt2) t) (py p1)))
                      (nmul (nmul (nmul three mt) t2) (py p2))) (nmul t3 (py p3)) |}.

(** The loop of [getBezierLength] for [i = i0 .. i0 + n - 1]. *)
Fixpoint bezier_length_loop (p0 p1 p2 p3 : Point) (segments : Z) (i0 : Z) (n : nat)
    (prevPoint : Point) (length : A) : A :=
  match n with
  | O => length
  | S n' =>
      let t := ndiv (num_of_Z i0) (num_of_Z segments) in
      let point := cubicBezierPoint p0 p1 p2 p3 t in
      let dx := nsub (px point) (px prevPoint) in
      let dy := nsub (py point) (py prevPoint) in
      bezier_length_loop p0 p1 p2 p3 segments (i0 + 1) n' point
        (nadd length (nsqrt (nadd (nmul dx dx) (nmul dy dy))))
  end.

(** [getBezierLength(p0, p1, p2, p3, segments = 50)]. *)
Definition getBezierLength (p0 p1 p2 p3 : Point) (segments : Z) : A :=
  bezier_length_loop p0 p1 p2 p3 segments 1 (Z.to_nat segments) p0 num0.

Definition is_bezier (edge : EdgeData) : bool :=
  String.eqb (e_type edge) "bezier" && (2 <=? List.length (e_controlPoints edge))%nat.

(** [edge.bidirectional !== false] *)
Definition is_bidirectional (edge : EdgeData) : bool :=
  match e_bidirectional edge with Some false => false | _ => true end.

Definition waypointMap (waypoints : list WaypointData) : list (string * WaypointData) :=
  fold_left (fun m wp => map_set m (wp_id wp) wp) waypoints [].

(** Lines 56-76 of buildGraph: the effective cost of a connection. *)
Definition edge_cost (wpMap : list (string * WaypointData)) (edge : EdgeData) : A :=
  if is_bezier edge then
    match map_get wpMap (e_from edge), map_get wpMap (e_to edge),
          e_controlPoints edge with
    | Some fromWp, Some toWp, c0 :: c1 :: _ =>
        let bezierLength :=
          getBezierLength {| px := wp_x fromWp; py := wp_y fromWp |} c0 c1
                          {| px := wp_x toWp; py := wp_y toWp |} 50 in
        let ddx := nsub (wp_x toWp) (wp_x fromWp) in
        let ddy := nsub (wp_y toWp) (wp_y fromWp) in
        let straightLength := nsqrt (nadd (nmul ddx ddx) (nmul ddy ddy)) in
        let lengthRatio :=
          ndiv bezierLength (if nzerob straightLength then num1 else straightLength) in
        nmul (e_cost edge) lengthRatio
    | _, _, _ => e_cost edge
    end
  else e_cost edge.

(** [node.neighbors.set(key, v)] on the node stored under [x]. *)
Definition set_neighbor (g : Graph A) (x key : string) (v : Neighbor A) : Graph A :=
  match map_get g x with
  | None => g
  | Some node =>
      map_set g x {| gn_id := gn_id node; neighbors := map_set (neighbors node) key v |}
  end.

Definition add_edge (wpMap : list (string * WaypointData)) (g : Graph A)
    (edge : EdgeData) : Graph A :=
  match map_get g (e_from edge), map_get g (e_to edge) with
  | Some _, Some _ =>
      let edgeCost := edge_cost wpMap edge in
      let nb := {| ncost := edgeCost; edgeId := e_id edge |} in
      let g1 := set_neighbor g (e_from edge) (e_to edge) nb in
      if is_bidirectional edge then set_neighbor g1 (e_to edge) (e_from edge) nb else g1
  | _, _ => g
  end.

Definition buildGraph (waypoints : list WaypointData) (edges : list EdgeData) : Graph A :=
  let g0 := fold_left (fun g wp => map_set g (wp_id wp) {| gn_id := wp_id wp; neighbors := [] |})
              waypoints [] in
  fold_left (add_edge (waypointMap waypoints)) edges g0.

End Build.

Arguments Point A : clear implicits.
Arguments WaypointData A : clear implicits.
Arguments EdgeData A : clear implicits.

(** ** Yen's K shortest paths *)

Section Yen.
Context {A : Type} `{Number A}.

Fixpoint pathStartsWith (p prefix : list string) : bool :=
  match prefix, p with
  | [], _ => true
  | x :: prefix', y :: p' => String.eqb y x && pathStartsWith p' prefix'
  | _ :: _, [] => false
  end.

(** The edge stored from [x] to [y], if any. *)
Definition graph_edge (graph : Graph A) (x y : string) : option (Neighbor A) :=
  match map_get graph x with
  | Some node => map_get (neighbors node) y
  | None => None
  end.

Fixpoint calculatePathCost (graph : Graph A) (p : list string) : A :=
  match p with
  | x :: (y :: _) as p' =>
      match graph_edge graph x y with
      | Some e => nadd (ncost e) (calculatePathCost graph p')
      | None => calculatePathCost graph p'
      end
  | _ => num0
  end.

Fixpoint getPathEdges (graph : Graph A) (p : list string) : list string :=
  match p with
  | x :: (y :: _) as p' =>
      match graph_edge graph x y with
      | Some e => edgeId e :: getPathEdges graph p'
      | None => getPathEdges graph p'
      end
  | _ => []
  end.

(** [array.slice(0, -1)] *)
Definition drop_last (l : list string) : list string := firstn (pred (List.length l)) l.

Definition path_key (r : PathResult A) : string := String.concat "," (path r).

(** [potentialPaths.sort((a, b) => a.cost - b.cost)], stable. *)
Fixpoint insert_by_cost (x : PathResult A) (l : list (PathResult A)) :=
  match l with
  | [] => [x]
  | y :: l' =>
      if nltb num0 (nsub (cost y) (cost x)) then x :: y :: l' else y :: insert_by_cost x l'
  end.

Definition sort_by_cost (l : list (PathResult A)) : list (PathResult A) :=
  fold_left (fun acc x => insert_by_cost x acc) l [].

Section Spur.
Variables (graph : Graph A) (startId endId : string).

(** The edges excluded at the spur node: for every found path that starts
    with [rootPath], the stored edge from the spur node to its next node. *)
Definition excluded_at (paths : list (PathResult A)) (spurNode : string)
    (rootPath : list string) : list string :=
  fold_left (fun ex p =>
      if pathStartsWith (path p) rootPath then
        match nth_error (path p) (List.length rootPath) with
        | Some nextNode =>
            match graph_edge graph spurNode nextNode with
            | Some e => (ex ++ [edgeId e])%list
            | None => ex
            end
        | None => ex
        end
      else ex) paths [].

(** One iteration [j] of the inner loop. *)
Definition spur_step (paths : list (PathResult A)) (lastPath : PathResult A)
    (potential : list (PathResult A)) (j : nat) : list (PathResult A) :=
  let spurNode := nth j (path lastPath) "" in
  let rootPath := firstn (S j) (path lastPath) in
  let excludedEdges := excluded_at paths spurNode rootPath in
  let excludedNodes := drop_last rootPath in
  match dijkstra graph spurNode endId excludedEdges excludedNodes with
  | None => potential
  | Some spurPath =>
      let totalPath :=
        {| path := (drop_last rootPath ++ path spurPath)%list;
           cost := nadd (calculatePathCost graph (drop_last rootPath)) (cost spurPath);
           edges := (getPathEdges graph rootPath ++ edges spurPath)%list |} in
      let pathKey := path_key totalPath in
      let isDuplicate :=
        existsb (fun p => String.eqb (path_key p) pathKey) potential
        || existsb (fun p => String.eqb (path_key p) pathKey) paths in
      if isDuplicate then potential else (potential ++ [totalPath])%list
  end.

(** The outer loop for [i = 1 .. k - 1]; [paths] is never empty here. *)
Fixpoint yen_loop (n : nat) (paths potential : list (PathResult A))
    : list (PathResult A) :=
  match n with
  | O => paths
  | S n' =>
      let lastPath := last paths {| path := []; cost := num0; edges := [] |} in
      let potential' := fold_left (spur_step paths lastPath) (seq 0 (pred (List.length (path lastPath))))
                          potential in
      match sort_by_cost potential' with
      | [] => paths
      | best :: rest => yen_loop n' (paths ++ [best])%list rest
      end
  end.

Definition findKShortestPaths (k : Z) : list (PathResult A) :=
  match dijkstra graph startId endId [] [] with
  | None => []
  | Some firstPath => yen_loop (Z.to_nat (k - 1)) [firstPath] []
  end.

End Spur.
End Yen.

(** ** Terrain ([src/js/models/Terrain.js]) *)

Module Terrain.

Local Open Scope R_scope.

Record TerrainType := { tt_id : string; tt_name : string; tt_cost : R; tt_color : string }.

(** A cell holds [Some typeId] or [None] (null, unpainted). *)
Record TerrainLayer := {
  gridWidth : Z;
  gridHeight : Z;
  grid : list (option string);
  types : list TerrainType
}.

(** [Math.floor] and [Math.round] on reals: [up x] is the least integer
    strictly above [x]. *)
Definition Math_floor (x : R) : Z := (up x - 1)%Z.
Definition Math_round (x : R) : Z := Math_floor (x + / 2).

(** [Math.round(x * 10) / 10] *)
Definition round1 (x : R) : R := IZR (Math_round (x * 10)) / 10.

Definition imageToGrid (imageX imageY imageWidth imageHeight : R) (terrain : TerrainLayer)
    : Z * Z :=
  let cellX := Math_floor (imageX / imageWidth * IZR (gridWidth terrain)) in
  let cellY := Math_floor (imageY / imageHeight * IZR (gridHeight terrain)) in
  (Z.max 0 (Z.min (gridWidth terrain - 1) cellX),
   Z.max 0 (Z.min (gridHeight terrain - 1) cellY))%Z.

(** [getTerrainAt]: [None] for null and for an index past the array
    (undefined). *)
Definition getTerrainAt (terrain : TerrainLayer) (cellX cellY : Z) : option string :=
  if (cellX <? 0)%Z || (gridWidth terrain <=? cellX)%Z || (cellY <? 0)%Z
     || (gridHeight terrain <=? cellY)%Z then None
  else match nth_error (grid terrain) (Z.to_nat (cellY * gridWidth terrain + cellX)%Z) with
       | Some v => v
       | None => None
       end.

Definition getTerrainType (terrain : TerrainLayer) (typeId : string) : option TerrainType :=
  find (fun t => String.eqb (tt_id t) typeId) (types terrain).

Definition getTerrainCostAt (terrain : TerrainLayer) (imageX imageY imageWidth imageHeight : R)
    : R :=
  let '(cellX, cellY) := imageToGrid imageX imageY imageWidth imageHeight terrain in
  match getTerrainAt terrain cellX cellY with
  | None => 1
  | Some typeId =>
      if String.eqb typeId "" then 1
      else match getTerrainType terrain typeId with
           | Some ty => tt_cost ty
           | None => 1
           end
  end.

Fixpoint path_cost_loop (terrain : TerrainLayer) (imageWidth imageHeight : R)
    (points : list (Point R)) : R :=
  match points with
  | p1 :: ((p2 :: _) as rest) =>
      let dist := sqrt ((px p2 - px p1) * (px p2 - px p1) + (py p2 - py p1) * (py p2 - py p1)) in
      let midX := (px p1 + px p2) / 2 in
      let midY := (py p1 + py p2) / 2 in
      let c := getTerrainCostAt terrain midX midY imageWidth imageHeight in
      dist * c + path_cost_loop terrain imageWidth imageHeight rest
  | _ => 0
  end.

Definition calculatePathTerrainCost (terrain : TerrainLayer) (points : list (Point R))
    (imageWidth imageHeight : R) : R :=
  if (List.length points <? 2)%nat then 0
  else path_cost_loop terrain imageWidth imageHeight points / 100.

Definition sampleLine (x1 y1 x2 y2 : R) (numSamples : nat) : list (Point R) :=
  map (fun i => let t := INR i / INR numSamples in
                {| px := x1 + (x2 - x1) * t; py := y1 + (y2 - y1) * t |})
      (seq 0 (S numSamples)).

Definition sampleBezier (p0 p1 p2 p3 : Point R) (numSamples : nat) : list (Point R) :=
  map (fun i => let t := INR i / INR numSamples in
                let mt := 1 - t in
                let mt2 := mt * mt in
                let mt3 := mt2 * mt in
                let t2 := t * t in
                let t3 := t2 * t in
                {| px := mt3 * px p0 + 3 * mt2 * t * px p1 + 3 * mt * t2 * px p2 + t3 * px p3;
                   py := mt3 * py p0 + 3 * mt2 * t * py p1 + 3 * mt * t2 * py p2 + t3 * py p3 |})
      (seq 0 (S numSamples)).

Definition calculateEdgeTerrainCost (edge : EdgeData R) (fromWp toWp : WaypointData R)
    (terrain : option TerrainLayer) (imageWidth imageHeight : R) : R :=
  match terrain with
  | None =>
      let dist := sqrt ((wp_x toWp - wp_x fromWp) * (wp_x toWp - wp_x fromWp)
                        + (wp_y toWp - wp_y fromWp) * (wp_y toWp - wp_y fromWp)) in
      IZR (Math_round (dist / 100 * 10)) / 10
  | Some t =>
      let points :=
        match e_controlPoints edge with
        | c0 :: c1 :: _ =>
            if String.eqb (e_type edge) "bezier" then
              sampleBezier {| px := wp_x fromWp; py := wp_y fromWp |} c0 c1
                           {| px := wp_x toWp; py := wp_y toWp |} 30
            else sampleLine (wp_x fromWp) (wp_y fromWp) (wp_x toWp) (wp_y toWp) 20
        | _ => sampleLine (wp_x fromWp) (wp_y fromWp) (wp_x toWp) (wp_y toWp) 20
        end in
      IZR (Math_round (calculatePathTerrainCost t points imageWidth imageHeight * 10)) / 10
  end.

(** [paintTerrain] on integer cells.  The brush centre comes from
    [imageToGrid] and the radius from [parseInt], so both are integers and
    [Math.round(centerX + dx)] is [centerX + dx]. *)

(** [arr[i] = v] on a JavaScript array: past the end the array grows, the
    gap reading as undefined (unpainted). *)
Definition js_array_set (l : list (option string)) (i : nat) (v : option string) :=
  if (i <? List.length l)%nat then (firstn i l ++ v :: skipn (S i) l)%list
  else (l ++ repeat None (i - List.length l)%nat ++ [v])%list.

(** [for (let i = lo; i <= hi; i++)] *)
Definition zrange (lo hi : Z) : list Z :=
  map (fun n => lo + Z.of_nat n)%Z (seq 0 (Z.to_nat (hi - lo + 1))).

Definition paint_cell (terrain : TerrainLayer) (centerX centerY radiusSq : Z)
    (typeId : option string) (dy : Z) (newGrid : list (option string)) (dx : Z) :=
  if (dx * dx + dy * dy <=? radiusSq)%Z then
    let cellX := (centerX + dx)%Z in
    let cellY := (centerY + dy)%Z in
    if (0 <=? cellX)%Z && (cellX <? gridWidth terrain)%Z
       && (0 <=? cellY)%Z && (cellY <? gridHeight terrain)%Z then
      js_array_set newGrid (Z.to_nat (cellY * gridWidth terrain + cellX)) typeId
    else newGrid
  else newGrid.

Definition paintTerrain (terrain : TerrainLayer) (centerX centerY radius : Z)
    (typeId : option string) : TerrainLayer :=
  let radiusSq := (radius * radius)%Z in
  let newGrid :=
    fold_left (fun g dy =>
        fold_left (paint_cell terrain centerX centerY radiusSq typeId dy) (zrange (- radius) radius) g)
      (zrange (- radius) radius) (grid terrain) in
  {| gridWidth := gridWidth terrain; gridHeight := gridHeight terrain;
     grid := newGrid; types := types terrain |}.

(** [DEFAULT_TERRAIN_TYPES] and [DEFAULT_GRID_SIZE]. *)
Definition DEFAULT_TERRAIN_TYPES : list TerrainType :=
  [ {| tt_id := "clear"; tt_name := "Clear/Road"; tt_cost := 1; tt_color := "#22c55e" |};
    {| tt_id := "grassland"; tt_name := "Grassland"; tt_cost := 15 / 10; tt_color := "#86efac" |};
    {| tt_id := "forest"; tt_name := "Forest"; tt_cost := 25 / 10; tt_color := "#166534" |};
    {| tt_id := "hills"; tt_name := "Hills"; tt_cost := 3; tt_color := "#a16207" |};
    {| tt_id := "mountain"; tt_name := "Mountain"; tt_cost := 5; tt_color := "#78716c" |};
    {| tt_id := "swamp"; tt_name := "Swamp/Bog"; tt_cost := 4; tt_color := "#365314" |};
    {| tt_id := "water"; tt_name := "Water"; tt_cost := 8; tt_color := "#0ea5e9" |};
    {| tt_id := "impassable"; tt_name := "Impassable"; tt_cost := 999; tt_color := "#1c1917" |} ].

Definition DEFAULT_GRID_SIZE : Z := 100.

(** [new Array(n).fill(null)]: [None] is the RangeError thrown when [n] is
    not an array length. *)
Definition new_null_array (n : Z) : option (list (option string)) :=
  if (0 <=? n)%Z && (n <? 2 ^ 32)%Z then Some (repeat None (Z.to_nat n)) else None.

(** Lines 56-65 of createTerrainLayer: [(gridWidth, gridHeight)].  For
    [imageHeight = 0] the aspect ratio is [+Infinity], [-Infinity] or NaN:
    [gridSize / Infinity] rounds to 0, [gridSize * -Infinity] is
    [-Infinity] for a positive [gridSize] and NaN or [+Infinity] otherwise,
    and [Math.max(1, NaN)] is NaN; [None] stands for such a dimension, with
    which [new Array] throws. *)
Definition grid_dims (imageWidth imageHeight : R) (gridSize : Z) : option (Z * Z) :=
  if Req_EM_T imageHeight 0 then
    if Rlt_dec 0 imageWidth then Some (gridSize, 1%Z)
    else if Rlt_dec imageWidth 0 then
      (if (0 <? gridSize)%Z then Some (1%Z, gridSize) else None)
    else None
  else
    let aspectRatio := imageWidth / imageHeight in
    if Rle_dec 1 aspectRatio then
      Some (gridSize, Z.max 1 (Math_round (IZR gridSize / aspectRatio)))
    else
      Some (Z.max 1 (Math_round (IZR gridSize * aspectRatio)), gridSize).

(** [createTerrainLayer(imageWidth, imageHeight, gridSize)] for an integer
    [gridSize]; [None] is a thrown RangeError. *)
Definition createTerrainLayer (imageWidth imageHeight : R) (gridSize : Z)
    : option TerrainLayer :=
  match grid_dims imageWidth imageHeight gridSize with
  | None => None
  | Some (gw, gh) =>
      match new_null_array (gw * gh) with
      | None => None
      | Some g => Some {| gridWidth := gw; gridHeight := gh; grid := g;
                          types := DEFAULT_TERRAIN_TYPES |}
      end
  end.

Definition setTerrainAt (terrain : TerrainLayer) (cellX cellY : Z) (typeId : option string)
    : TerrainLayer :=
  if (cellX <? 0)%Z || (gridWidth terrain <=? cellX)%Z || (cellY <? 0)%Z
     || (gridHeight terrain <=? cellY)%Z then terrain
  else
    let index := Z.to_nat (cellY * gridWidth terrain + cellX) in
    {| gridWidth := gridWidth terrain; gridHeight := gridHeight terrain;
       grid := js_array_set (grid terrain) index typeId; types := types terrain |}.

(** [gridToImage]: the centre of a cell, [(cellX + 0.5) / gridWidth * imageWidth]. *)
Definition gridToImage (cellX cellY : Z) (imageWidth imageHeight : R) (terrain : TerrainLayer)
    : R * R :=
  ((IZR cellX + 1 / 2) / IZR (gridWidth terrain) * imageWidth,
   (IZR cellY + 1 / 2) / IZR (gridHeight terrain) * imageHeight).

End Terrain.

(** ** Bézier helpers of src/js/app.js *)

Module BezierUtils.

Local Open Scope R_scope.

Definition cubicBezierDerivative (p0 p1 p2 p3 : Point R) (t : R) : Point R :=
  let t2 := t * t in
  let mt := 1 - t in
  let mt2 := mt * mt in
  {| px := 3 * mt2 * (px p1 - px p0) + 6 * mt * t * (px p2 - px p1) + 3 * t2 * (px p3 - px p2);
     py := 3 * mt2 * (py p1 - py p0) + 6 * mt * t * (py p2 - py p1) + 3 * t2 * (py p3 - py p2) |}.

(** [getBezierPoints(p0, p1, p2, p3, count)], [t = i / count] for
    [i = 0 .. count]. *)
Definition getBezierPoints (p0 p1 p2 p3 : Point R) (count : nat) : list (Point R) :=
  map (fun i => cubicBezierPoint p0 p1 p2 p3 (INR i / INR count)) (seq 0 (S count)).

Record ClosestPoint := { cp_point : Point R; cp_t : R; cp_distance : option R }.

(** [d < minDist], where [minDist = None] is [Infinity]. *)
Definition below (d : R) (minDist : option R) : bool :=
  match minDist with None => true | Some m => Rltb d m end.

(** One iteration of the coarse loop of closestPointOnBezier on
    [(minDist, minT, minPoint)]. *)
Definition coarse_step (p0 p1 p2 p3 point : Point R) (samples : nat)
    (st : option R * R * Point R) (i : nat) : option R * R * Point R :=
  let '(minDist, minT, minPoint) := st in
  let t := INR i / INR samples in
  let bezierPoint := cubicBezierPoint p0 p1 p2 p3 t in
  let dx := px bezierPoint - px point in
  let dy := py bezierPoint - py point in
  let dist := dx * dx + dy * dy in
  if below dist minDist then (Some dist, t, bezierPoint) else st.

(** One iteration of the refinement loop on
    [(minDist, minT, minPoint, low, high)]. *)
Definition refine_step (p0 p1 p2 p3 point : Point R)
    (st : option R * R * Point R * R * R) (i : nat) : option R * R * Point R * R * R :=
  let '(minDist, minT, minPoint, low, high) := st in
  let mid1 := low + (high - low) / 3 in
  let mid2 := high - (high - low) / 3 in
  let p1_ := cubicBezierPoint p0 p1 p2 p3 mid1 in
  let p2_ := cubicBezierPoint p0 p1 p2 p3 mid2 in
  let d1 := (px p1_ - px point) ^ 2 + (py p1_ - py point) ^ 2 in
  let d2 := (px p2_ - px point) ^ 2 + (py p2_ - py point) ^ 2 in
  if Rltb d1 d2 then
    if below d1 minDist then (Some d1, mid1, p1_, low, mid2)
    else (minDist, minT, minPoint, low, mid2)
  else
    if below d2 minDist then (Some d2, mid2, p2_, mid1, high)
    else (minDist, minT, minPoint, mid1, high).

(** [closestPointOnBezier(p0, p1, p2, p3, point, samples)]; the distance
    [None] is [Math.sqrt(Infinity)]. *)
Definition closestPointOnBezier (p0 p1 p2 p3 point : Point R) (samples : nat) : ClosestPoint :=
  let '(minDist, minT, minPoint) :=
    fold_left (coarse_step p0 p1 p2 p3 point samples) (seq 0 (S samples)) (None, 0, p0) in
  let low := Rmax 0 (minT - 1 / INR samples) in
  let high := Rmin 1 (minT + 1 / INR samples) in
  let '(minDist, minT, minPoint, _, _) :=
    fold_left (refine_step p0 p1 p2 p3 point) (seq 0 10) (minDist, minT, minPoint, low, high) in
  {| cp_point := minPoint; cp_t := minT;
     cp_distance := match minDist with Some d => Some (sqrt d) | None => None end |}.

(** The parameters in (0, 1) where [a t^2 + b t + c], the derivative of
    one coordinate, vanishes; [1e-10] is the code's threshold. *)
Definition extrema_1d (a b c : R) : list R :=
  if Rltb (/ 10 ^ 10) (Rabs a) then
    let disc := b * b - 4 * a * c in
    if Rle_dec 0 disc then
      let sqrtDisc := sqrt disc in
      let t1 := (- b + sqrtDisc) / (2 * a) in
      let t2 := (- b - sqrtDisc) / (2 * a) in
      ((if Rltb 0 t1 && Rltb t1 1 then [t1] else []) ++
       (if Rltb 0 t2 && Rltb t2 1 then [t2] else []))%list
    else []
  else if Rltb (/ 10 ^ 10) (Rabs b) then
    let t := - c / b in
    if Rltb 0 t && Rltb t 1 then [t] else []
  else [].

(** Bounds; [None] is the initial [Infinity] (for a minimum) or
    [-Infinity] (for a maximum). *)
Record BoundingBox := { minX : option R; minY : option R; maxX : option R; maxY : option R }.

Definition js_min (m : option R) (x : R) : R := match m with None => x | Some m => Rmin m x end.
Definition js_max (m : option R) (x : R) : R := match m with None => x | Some m => Rmax m x end.

Definition getBezierBoundingBox (p0 p1 p2 p3 : Point R) : BoundingBox :=
  let ax := -3 * px p0 + 9 * px p1 - 9 * px p2 + 3 * px p3 in
  let bx := 6 * px p0 - 12 * px p1 + 6 * px p2 in
  let cx := -3 * px p0 + 3 * px p1 in
  let ay := -3 * py p0 + 9 * py p1 - 9 * py p2 + 3 * py p3 in
  let by' := 6 * py p0 - 12 * py p1 + 6 * py p2 in
  let cy := -3 * py p0 + 3 * py p1 in
  let extremaT := (extrema_1d ax bx cx ++ extrema_1d ay by' cy ++ [0; 1])%list in
  fold_left (fun bb t =>
      let point := cubicBezierPoint p0 p1 p2 p3 t in
      {| minX := Some (js_min (minX bb) (px point));
         minY := Some (js_min (minY bb) (py point));
         maxX := Some (js_max (maxX bb) (px point));
         maxY := Some (js_max (maxY bb) (py point)) |})
    extremaT {| minX := None; minY := None; maxX := None; maxY := None |}.

Definition lerp (a b : Point R) (t : R) : Point R :=
  {| px := px a + (px b - px a) * t; py := py a + (py b - py a) * t |}.

(** [splitBezier]: [(left, right)]. *)
Definition splitBezier (p0 p1 p2 p3 : Point R) (t : R) : list (Point R) * list (Point R) :=
  let p01 := lerp p0 p1 t in
  let p12 := lerp p1 p2 t in
  let p23 := lerp p2 p3 t in
  let p012 := lerp p01 p12 t in
  let p123 := lerp p12 p23 t in
  let p0123 := lerp p012 p123 t in
  ([p0; p01; p012; p0123], [p0123; p123; p23; p3]).

End BezierUtils.

(** ** The EventBus of src/js/engine/Pathfinder.js *)

Module EventBus.

(** A listener is a function the caller passed ([Fn f], the number naming
    the function object) or the closure [once] wraps around one.  Each call
    of [once] creates a new closure, named by a fresh token.  The callers'
    functions are opaque: they do not call back into the bus, and an error
    they throw is caught by [emit]. *)
Inductive Callback := Fn (f : nat) | OnceWrapper (token : nat) (callback : nat).

Definition Callback_eqb (a b : Callback) : bool :=
  match a, b with
  | Fn f, Fn g => Nat.eqb f g
  | OnceWrapper t f, OnceWrapper u g => Nat.eqb t u && Nat.eqb f g
  | _, _ => false
  end.

(** [listeners], a [Map<string, Set<Function>>], and the next token. *)
Record Bus := { listeners : list (string * list Callback); next_token : nat }.

Definition set_add (s : list Callback) (c : Callback) : list Callback :=
  if existsb (Callback_eqb c) s then s else (s ++ [c])%list.

Definition set_delete (s : list Callback) (c : Callback) : list Callback :=
  filter (fun d => negb (Callback_eqb c d)) s.

Fixpoint map_delete {V : Type} (m : list (string * V)) (k : string) : list (string * V) :=
  match m with
  | [] => []
  | (k', v) :: m' => if String.eqb k' k then m' else (k', v) :: map_delete m' k
  end.

Definition map_has {V : Type} (m : list (string * V)) (k : string) : bool :=
  match map_get m k with Some _ => true | None => false end.

(** [on(event, callback)]; the unsubscribe function it returns is
    [off event callback]. *)
Definition on (b : Bus) (event : string) (callback : Callback) : Bus :=
  let ls := if map_has (listeners b) event then listeners b
            else map_set (listeners b) event [] in
  let s := match map_get ls event with Some s => s | None => [] end in
  {| listeners := map_set ls event (set_add s callback); next_token := next_token b |}.

Definition once (b : Bus) (event : string) (callback : nat) : Bus :=
  on {| listeners := listeners b; next_token := S (next_token b) |} event
     (OnceWrapper (next_token b) callback).

Definition off (b : Bus) (event : string) (callback : Callback) : Bus :=
  match map_get (listeners b) event with
  | None => b
  | Some callbacks =>
      let callbacks' := set_delete callbacks callback in
      {| listeners := if Nat.eqb (List.length callbacks') 0
                      then map_delete (listeners b) event
                      else map_set (listeners b) event callbacks';
         next_token := next_token b |}
  end.

(** The caller's function a listener runs. *)
Definition target (c : Callback) : nat := match c with Fn f => f | OnceWrapper _ f => f end.

(** One step of [callbacks.forEach]: an entry deleted before it is reached
    is skipped; a once-wrapper unsubscribes itself, then calls its
    function.  The second component lists the functions called. *)
Definition emit_step (event : string) (st : Bus * list nat) (c : Callback) : Bus * list nat :=
  let '(b, calls) := st in
  let live := match map_get (listeners b) event with Some s => s | None => [] end in
  if existsb (Callback_eqb c) live then
    match c with
    | Fn f => (b, (calls ++ [f])%list)
    | OnceWrapper _ f => (off b event c, (calls ++ [f])%list)
    end
  else st.

Definition emit (b : Bus) (event : string) : Bus * list nat :=
  match map_get (listeners b) event with
  | None => (b, [])
  | Some callbacks => fold_left (emit_step event) callbacks (b, [])
  end.

(** [clear(event)]: [None] is an omitted argument; the empty string is
    falsy too. *)
Definition clear (b : Bus) (event : option string) : Bus :=
  match event with
  | Some e =>
      if String.eqb e "" then {| listeners := []; next_token := next_token b |}
      else {| listeners := map_delete (listeners b) e; next_token := next_token b |}
  | None => {| listeners := []; next_token := next_token b |}
  end.

Definition listenerCount (b : Bus) (event : string) : nat :=
  match map_get (listeners b) event with Some s => List.length s | None => 0 end.

End EventBus.

(** ** Callers in the user interface *)

Module Editor.
Import Terrain.
Local Open Scope R_scope.

Inductive PaintOutcome :=
  | Skipped                     (* the early return: nothing is stored *)
  | Stored (t : TerrainLayer)   (* the layer passed to [store.setTerrain] *)
  | Thrown.                     (* createTerrainLayer threw *)

(** [EditorController.paintAt(canvasPos, map)] with the brush size (an
    integer from [parseInt]) and the selected terrain type. *)
Definition paintAt (canvasX canvasY : R) (imageWidth imageHeight : R)
    (mapTerrain : option TerrainLayer) (brushSize : Z) (selectedTerrainType : option string)
    : PaintOutcome :=
  if Rltb canvasX 0 || Rltb imageWidth canvasX || Rltb canvasY 0 || Rltb imageHeight canvasY
  then Skipped
  else
    match match mapTerrain with
          | Some t => Some t
          | None => createTerrainLayer imageWidth imageHeight DEFAULT_GRID_SIZE
          end with
    | None => Thrown
    | Some terrain =>
        let '(cellX, cellY) := imageToGrid canvasX canvasY imageWidth imageHeight terrain in
        Stored (paintTerrain terrain cellX cellY brushSize selectedTerrainType)
    end.

End Editor.

Module Viewer.
Import Terrain.
Local Open Scope R_scope.

Definition NEARBY_WAYPOINT_RADIUS : R := 500.

(** [distance] of src/js/utils/geometry.js. *)
Definition distance (x1 y1 x2 y2 : R) : R :=
  let dx := x2 - x1 in
  let dy := y2 - y1 in
  sqrt (dx * dx + dy * dy).

(** One iteration of the waypoint loop on [(nearest, nearestDist)]; [None]
    is [(null, Infinity)]. *)
Definition nearest_step (pointX pointY : R) (st : option (WaypointData R * R))
    (wp : WaypointData R) : option (WaypointData R * R) :=
  let dist := distance pointX pointY (wp_x wp) (wp_y wp) in
  if BezierUtils.below dist (option_map snd st) && Rltb dist NEARBY_WAYPOINT_RADIUS
  then Some (wp, dist) else st.

(** The terrain loop: [terrainCost] accumulated over the segments. *)
Fixpoint terrain_loop (terrain : TerrainLayer) (imageWidth imageHeight : R)
    (samples : list (Point R)) (terrainCost : R) : R :=
  match samples with
  | s1 :: ((s2 :: _) as rest) =>
      let midX := (px s1 + px s2) / 2 in
      let midY := (py s1 + py s2) / 2 in
      let segmentDist := distance (px s1) (py s1) (px s2) (py s2) in
      let terrainMultiplier := getTerrainCostAt terrain midX midY imageWidth imageHeight in
      terrain_loop terrain imageWidth imageHeight rest (terrainCost + segmentDist * terrainMultiplier)
  | _ => terrainCost
  end.

(** [ViewerController.findNearestWaypoint(point, map)]: [(waypointId, cost)]. *)
Definition findNearestWaypoint (pointX pointY : R) (waypoints : list (WaypointData R))
    (terrain : option TerrainLayer) (imageWidth imageHeight : R) : option string * R :=
  match fold_left (nearest_step pointX pointY) waypoints None with
  | None => (None, 0)
  | Some (nearest, nearestDist) =>
      let cost :=
        match terrain with
        | None => nearestDist / 100
        | Some t =>
            let samples := sampleLine pointX pointY (wp_x nearest) (wp_y nearest) 10 in
            terrain_loop t imageWidth imageHeight samples 0 / 100
        end in
      (Some (wp_id nearest), IZR (Math_round (cost * 10)) / 10)
  end.

End Viewer.

(** ** Specification-side definitions *)

Section Routes.
Context {A : Type} `{Number A}.
Variables (graph : Graph A) (startId endId : string)
          (excludedEdges excludedNodes : list string).

(** A node may be entered unless it is excluded; the source and the target
    may always be entered. *)
Definition node_allowed (y : string) : bool :=
  String.eqb y startId || String.eqb y endId || negb (set_has excludedNodes y).

(** One step of a route that respects the exclusions. *)
Inductive allowed_step : string -> string -> Prop :=
| AllowedStep x y node nb :
    map_get graph x = Some node ->
    In (y, nb) (neighbors node) ->
    set_has excludedEdges (edgeId nb) = false ->
    node_allowed y = true ->
    allowed_step x y.

(** Nodes reachable from the source by such routes. *)
Inductive reachable : string -> Prop :=
| reach_start : reachable startId
| reach_step x y : reachable x -> allowed_step x y -> reachable y.

End Routes.

Section Adjacency.
Context {A : Type} `{Number A}.

Definition neighbors_of (g : Graph A) (x : string) : list (string * Neighbor A) :=
  match map_get g x with Some node => neighbors node | None => [] end.

(** Both endpoint ids of the connection are waypoint ids. *)
Definition resolvable (waypoints : list (WaypointData A)) (e : EdgeData A) : bool :=
  set_has (map wp_id waypoints) (e_from e) && set_has (map wp_id waypoints) (e_to e).

(** The connection writes an entry for neighbour [y] of node [x]. *)
Definition sets_pair (e : EdgeData A) (x y : string) : bool :=
  (String.eqb (e_from e) x && String.eqb (e_to e) y)
  || (is_bidirectional e && String.eqb (e_to e) x && String.eqb (e_from e) y).

(** The last connection, in list order, that writes the entry [x -> y]. *)
Definition last_setter (waypoints : list (WaypointData A)) (es : list (EdgeData A))
    (x y : string) : option (EdgeData A) :=
  fold_left (fun acc e => if resolvable waypoints e && sets_pair e x y then Some e else acc)
    es None.

(** Number of adjacency entries of a graph. *)
Definition adjacency_count (g : Graph A) : nat :=
  fold_right (fun kv n => List.length (neighbors (snd kv)) + n)%nat 0%nat g.

(** The count the directionality statement predicts: two entries per
    resolvable bidirectional connection, one per resolvable directed one. *)
Definition predicted_count (waypoints : list (WaypointData A)) (es : list (EdgeData A)) : nat :=
  fold_right (fun e n => (if resolvable waypoints e then
                            if is_bidirectional e then 2 else 1 else 0) + n)%nat 0%nat es.

End Adjacency.

Module CurveCost.

Local Open Scope R_scope.

(** The cubic Bézier curve in Bernstein form. *)
Definition bezier (p0 p1 p2 p3 : Point R) (t : R) : R * R :=
  ((1 - t) ^ 3 * px p0 + 3 * (1 - t) ^ 2 * t * px p1 + 3 * (1 - t) * t ^ 2 * px p2
     + t ^ 3 * px p3,
   (1 - t) ^ 3 * py p0 + 3 * (1 - t) ^ 2 * t * py p1 + 3 * (1 - t) * t ^ 2 * py p2
     + t ^ 3 * py p3).

Definition dist (a b : R * R) : R :=
  sqrt ((fst b - fst a) ^ 2 + (snd b - snd a) ^ 2).

(** Arc length as the length of the polyline through the curve points at
    the [n + 1] uniform parameters [i / n]. *)
Definition polyline_length (p0 p1 p2 p3 : Point R) (n : nat) : R :=
  fold_right Rplus 0
    (map (fun i => dist (bezier p0 p1 p2 p3 (INR i / INR n))
                        (bezier p0 p1 p2 p3 (INR (S i) / INR n)))
         (seq 0 n)).

(** The waypoint of an id (the last one listed with it). *)
Definition waypoint_of (waypoints : list (WaypointData R)) (id : string)
    : option (WaypointData R) :=
  find (fun wp => String.eqb (wp_id wp) id) (rev waypoints).

(** Effective traversal cost as the specification states it. *)
Definition spec_edge_cost (waypoints : list (WaypointData R)) (e : EdgeData R) : R :=
  match waypoint_of waypoints (e_from e), waypoint_of waypoints (e_to e),
        e_controlPoints e with
  | Some a, Some b, c0 :: c1 :: _ =>
      if String.eqb (e_type e) "bezier" then
        let straight := dist (wp_x a, wp_y a) (wp_x b, wp_y b) in
        e_cost e * (polyline_length {| px := wp_x a; py := wp_y a |} c0 c1
                                    {| px := wp_x b; py := wp_y b |} 50
                    / (if Req_EM_T straight 0 then 1 else straight))
      else e_cost e
  | _, _, _ => e_cost e
  end.

End CurveCost.

(** ** Concrete inputs (integer costs, straight connections) *)

Module Samples.

Definition wp (i : string) : WaypointData Z := {| wp_id := i; wp_x := 0%Z; wp_y := 0%Z |}.

Definition conn (i f t : string) (c : Z) (bidi : option bool) : EdgeData Z :=
  {| e_id := i; e_from := f; e_to := t; e_cost := c; e_type := "straight";
     e_controlPoints := []; e_bidirectional := bidi |}.

(** A-B cost 2, B-C cost 3, A-C cost 10, all bidirectional. *)
Definition triangle : Graph Z :=
  buildGraph [wp "A"; wp "B"; wp "C"]
    [conn "A-B" "A" "B" 2 None; conn "B-C" "B" "C" 3 None; conn "A-C" "A" "C" 10 None].

(** A square with a detour B-D-C around the edge B-C. *)
Definition detour (ab : Z) : Graph Z :=
  buildGraph [wp "A"; wp "B"; wp "C"; wp "D"]
    [conn "A-B" "A" "B" ab None; conn "B-C" "B" "C" 1 None;
     conn "B-D" "B" "D" 1 None; conn "D-C" "D" "C" 1 None].

(** One waypoint with a bidirectional self-loop. *)
Definition loop_wps : list (WaypointData Z) := [wp "A"].
Definition loop_conns : list (EdgeData Z) := [conn "A-A" "A" "A" 1 None].

(** A 3 x 3 unpainted layer. *)
Definition layer3 : Terrain.TerrainLayer :=
  {| Terrain.gridWidth := 3; Terrain.gridHeight := 3;
     Terrain.grid := repeat None 9; Terrain.types := [] |}.

(** Two waypoints 5 px apart joined by a curved connection of base cost 2. *)
Definition wpR (i : string) (x y : R) : WaypointData R := {| wp_id := i; wp_x := x; wp_y := y |}.

Definition curve_wps : list (WaypointData R) := [wpR "A" 0 0; wpR "B" 3 4].

Definition curve_conn : EdgeData R :=
  {| e_id := "A-B"; e_from := "A"; e_to := "B"; e_cost := 2%R; e_type := "bezier";
     e_controlPoints := [{| px := 1%R; py := 1%R |}; {| px := 2%R; py := 3%R |}];
     e_bidirectional := None |}.

End Samples.

(** * Theorems *)

(** ** Maps *)

Section MapFacts.
Context {V : Type}.

Lemma map_get_In (m : list (string * V)) k v :
  map_get m k = Some v -> In (k, v) m.
Proof.
  induction m as [|[k' v'] m IH]; simpl; [discriminate|].
  destruct (String.eqb k' k) eqn:E.
  - intros [= <-]. apply String.eqb_eq in E. subst. now left.
  - intros Hg. right. now apply IH.
Qed.

Lemma In_map_set (m : list (string * V)) k v k' v' :
  In (k', v') (map_set m k v) -> In (k', v') m \/ (k' = k /\ v' = v).
Proof.
  induction m as [|[k0 v0] m IH]; simpl.
  - intros [[= <- <-]|[]]. now right.
  - destruct (String.eqb k0 k) eqn:E.
    + intros [[= <- <-]|Hin].
      * apply String.eqb_eq in E. subst. now right.
      * left. now right.
    + intros [[= <- <-]|Hin].
      * left. now left.
      * destruct (IH Hin) as [H1|H1]; [left; now right|now right].
Qed.

Lemma map_get_set_same (m : list (string * V)) k v :
  map_get (map_set m k v) k = Some v.
Proof.
  induction m as [|[k0 v0] m IH]; simpl.
  - now rewrite String.eqb_refl.
  - destruct (String.eqb k0 k) eqn:E; simpl; rewrite E; auto.
Qed.

Lemma map_get_set_other (m : list (string * V)) k v k' :
  k <> k' -> map_get (map_set m k v) k' = map_get m k'.
Proof.
  intros Hne. induction m as [|[k0 v0] m IH]; simpl.
  - destruct (String.eqb k k') eqn:E; [apply String.eqb_eq in E; congruence|reflexivity].
  - destruct (String.eqb k0 k) eqn:E; simpl.
    + apply String.eqb_eq in E. subst k0.
      destruct (String.eqb k k') eqn:E'; [apply String.eqb_eq in E'; congruence|reflexivity].
    + now rewrite IH.
Qed.

End MapFacts.

Lemma set_has_In (s : list string) x : set_has s x = true <-> In x s.
Proof.
  unfold set_has. rewrite existsb_exists. split.
  - intros [y [Hy Heq]]. apply String.eqb_eq in Heq. now subst.
  - intros Hin. exists x. split; [exact Hin|apply String.eqb_refl].
Qed.

(** ** Dijkstra on the hand-computed triangle *)

(** C3: on the graph A-B (2), B-C (3), A-C (10), all bidirectional, the
    shortest path from A to C is A, B, C with cost 5 through the
    connections A-B and B-C. *)
Theorem dijkstra_triangle :
  dijkstra Samples.triangle "A" "C" [] [] =
  Some {| path := ["A"; "B"; "C"]; cost := 5%Z; edges := ["A-B"; "B-C"] |}.
Proof. vm_compute. reflexivity. Qed.

(** C9: searching from a node to itself yields the one-node path with no
    connection and cost 0, for any graph, exclusions and id (also an id
    that is no node of the graph). *)
Theorem dijkstra_same_endpoints {A : Type} `{Number A} (graph : Graph A) (s : string)
    (excludedEdges excludedNodes : list string) :
  dijkstra graph s s excludedEdges excludedNodes =
  Some {| path := [s]; cost := num0; edges := [] |}.
Proof.
  unfold dijkstra, dijkstra_fuel, init_state. simpl.
  rewrite String.eqb_refl. reflexivity.
Qed.

(** ** Yen's algorithm on the detour square *)

(** C1 (defect): with A-B of cost 1, the second path A, B, D, C traverses
    A-B, B-D and D-C, of total cost 3, but is reported with cost 2: the
    spliced cost adds the root prefix without its last edge A-B. *)
Theorem yen_spliced_cost_drops_root_edge :
  findKShortestPaths (Samples.detour 1) "A" "C" 2 =
  [{| path := ["A"; "B"; "C"]; cost := 2%Z; edges := ["A-B"; "B-C"] |};
   {| path := ["A"; "B"; "D"; "C"]; cost := 2%Z; edges := ["A-B"; "B-D"; "D-C"] |}]
  /\ calculatePathCost (Samples.detour 1) ["A"; "B"; "D"; "C"] = 3%Z.
Proof. split; vm_compute; reflexivity. Qed.

(** C2 (defect): with A-B of cost 10, the second reported path costs 2,
    less than the first path's 11. *)
Theorem yen_costs_decrease :
  findKShortestPaths (Samples.detour 10) "A" "C" 2 =
  [{| path := ["A"; "B"; "C"]; cost := 11%Z; edges := ["A-B"; "B-C"] |};
   {| path := ["A"; "B"; "D"; "C"]; cost := 2%Z; edges := ["A-B"; "B-D"; "D-C"] |}].
Proof. vm_compute. reflexivity. Qed.

(** C5, as stated, fails: the id "X" is no node of the empty graph, yet
    the search from "X" to "X" returns a path rather than no path. *)
Lemma dijkstra_unknown_id_counterexample :
  map_get ([] : Graph Z) "X" = None /\
  dijkstra ([] : Graph Z) "X" "X" [] [] =
  Some {| path := ["X"]; cost := 0%Z; edges := [] |}.
Proof. split; vm_compute; reflexivity. Qed.

(** ** Dijkstra respects its exclusions *)

Lemma In_insert_sorted {A : Type} `{Number A} (x y : string * A) l :
  In x (insert_sorted y l) -> y = x \/ In x l.
Proof.
  induction l as [|z l IH]; simpl.
  - intros [E|[]]. now left.
  - destruct (cmp_pos z y); simpl.
    + intros [E|[E|Hin]]; auto.
    + intros [E|Hin]; auto. destruct (IH Hin); auto.
Qed.

Lemma In_sort_queue {A : Type} `{Number A} (q : list (string * A)) x :
  In x (sort_queue q) -> In x q.
Proof.
  unfold sort_queue.
  assert (Hgen : forall acc, In x (fold_left (fun acc x => insert_sorted x acc) q acc) ->
                             In x acc \/ In x q).
  { induction q as [|y q IH]; simpl; intros acc Hin; auto.
    destruct (IH _ Hin) as [H1|H1]; auto.
    destruct (In_insert_sorted _ _ _ H1); subst; auto. }
  intros Hin. destruct (Hgen [] Hin) as [[]|H1]. exact H1.
Qed.

Section DijkstraInvariant.
Context {A : Type} `{Number A}.
Variables (graph : Graph A) (startId endId : string)
          (excludedEdges excludedNodes : list string).

Let allowed := node_allowed startId endId excludedNodes.
Let reach := reachable graph startId endId excludedEdges excludedNodes.

(** Every queued node is allowed and reachable; every recorded predecessor
    link joins allowed nodes; every recorded edge is not excluded. *)
Definition search_inv (st : DState A) : Prop :=
  (forall x c, In (x, c) (queue st) -> allowed x = true /\ reach x) /\
  (forall k v, In (k, v) (previous st) -> allowed k = true /\ allowed v = true) /\
  (forall k e, In (k, e) (previousEdge st) -> set_has excludedEdges e = false).

Lemma search_inv_init : search_inv (init_state startId).
Proof.
  unfold search_inv, init_state; simpl. split; [|split].
  - intros x c [[= <- _]|[]]. split; [|constructor].
    unfold allowed, node_allowed. now rewrite String.eqb_refl.
  - intros k v [].
  - intros k e [].
Qed.

Lemma explore_inv cid ccost node st nb :
  search_inv st -> allowed cid = true -> reach cid ->
  map_get graph cid = Some node -> In nb (neighbors node) ->
  search_inv (explore startId endId excludedEdges excludedNodes cid ccost st nb).
Proof.
  intros [Hq [Hp He]] Hc Hr Hg Hin.
  destruct nb as [nid neighbor]. unfold explore.
  destruct (set_has excludedEdges (edgeId neighbor)) eqn:E1; [now split|].
  destruct (negb (String.eqb nid startId) && negb (String.eqb nid endId)
            && set_has excludedNodes nid) eqn:E2; [now split|].
  destruct (set_has (visited st) nid); [now split|].
  assert (Hal : allowed nid = true).
  { unfold allowed, node_allowed.
    destruct (String.eqb nid startId), (String.eqb nid endId),
             (set_has excludedNodes nid); simpl in *; congruence. }
  assert (Hinv : search_inv
    {| queue := (queue st ++ [(nid, nadd ccost (ncost neighbor))])%list;
       costs := map_set (costs st) nid (nadd ccost (ncost neighbor));
       previous := map_set (previous st) nid cid;
       previousEdge := map_set (previousEdge st) nid (edgeId neighbor);
       visited := visited st |}).
  { unfold search_inv; simpl. split; [|split].
    - intros x c Hx. apply in_app_or in Hx. destruct Hx as [Hx|[[= <- _]|[]]].
      + exact (Hq x c Hx).
      + split; [exact Hal|].
        apply reach_step with cid; [exact Hr|].
        apply AllowedStep with node neighbor; assumption.
    - intros k v Hkv. destruct (In_map_set _ _ _ _ _ Hkv) as [H1|[-> ->]].
      + exact (Hp k v H1).
      + split; [exact Hal|exact Hc].
    - intros k e Hke. destruct (In_map_set _ _ _ _ _ Hke) as [H1|[-> ->]].
      + exact (He k e H1).
      + exact E1. }
  destruct (map_get (costs st) nid); [|exact Hinv].
  destruct (nltb _ _); [exact Hinv|now split].
Qed.

Lemma explore_all_inv cid ccost node :
  allowed cid = true -> reach cid -> map_get graph cid = Some node ->
  forall l st, incl l (neighbors node) -> search_inv st ->
  search_inv (fold_left (explore startId endId excludedEdges excludedNodes cid ccost) l st).
Proof.
  intros Hc Hr Hg l. induction l as [|nb l IH]; simpl; intros st Hincl Hst; [exact Hst|].
  apply IH.
  - intros y Hy. apply Hincl. now right.
  - apply explore_inv with node; auto. apply Hincl. now left.
Qed.

Lemma reconstruct_loop_inv (P Q : string -> Prop) prev pe :
  (forall k v, In (k, v) prev -> P v) ->
  (forall k e, In (k, e) pe -> Q e) ->
  forall fuel cur p es p' es',
  reconstruct_loop prev pe fuel cur p es = (p', es') ->
  P cur -> Forall P p -> Forall Q es -> Forall P p' /\ Forall Q es'.
Proof.
  intros HP HQ fuel. induction fuel as [|f IH]; simpl;
    intros cur p es p' es' Hr Hc Hp Hes.
  - injection Hr as <- <-. auto.
  - assert (Hes' : Forall Q (match map_get pe cur with
                              | Some e => if String.eqb e "" then es else e :: es
                              | None => es end)).
    { destruct (map_get pe cur) as [e|] eqn:Eg; [|exact Hes].
      destruct (String.eqb e ""); [exact Hes|].
      constructor; [|exact Hes]. exact (HQ _ _ (map_get_In _ _ _ Eg)). }
    destruct (map_get prev cur) as [c|] eqn:Eg.
    + apply (IH c _ _ _ _ Hr); [exact (HP _ _ (map_get_In _ _ _ Eg))|now constructor|exact Hes'].
    + injection Hr as <- <-. split; [now constructor|exact Hes'].
Qed.

Lemma dijkstra_loop_sound fuel st r :
  search_inv st ->
  dijkstra_loop graph startId endId excludedEdges excludedNodes fuel st = Some r ->
  Forall (fun e => set_has excludedEdges e = false) (edges r) /\
  Forall (fun x => allowed x = true) (path r) /\ reach endId.
Proof.
  revert st. induction fuel as [|f IH]; simpl; intros st Hst Hrun; [discriminate|].
  destruct (sort_queue (queue st)) as [|[cid ccost] rest] eqn:Eq; [discriminate|].
  assert (Hcur : allowed cid = true /\ reach cid).
  { apply (proj1 Hst cid ccost). apply In_sort_queue. rewrite Eq. now left. }
  assert (Hrest : forall x c, In (x, c) rest -> allowed x = true /\ reach x).
  { intros x c Hx. apply (proj1 Hst x c). apply In_sort_queue. rewrite Eq. now right. }
  destruct Hst as [Hq [Hp He]].
  destruct (set_has (visited st) cid).
  { apply IH in Hrun; [exact Hrun|]. split; [exact Hrest|split; assumption]. }
  destruct (String.eqb cid endId) eqn:Ee.
  - apply String.eqb_eq in Ee. subst cid.
    injection Hrun as <-. unfold reconstructPath.
    destruct (reconstruct_loop (previous st) (previousEdge st) (S (length (previous st)))
                endId [] []) as [p es] eqn:Er.
    destruct (reconstruct_loop_inv (fun x => allowed x = true)
                (fun e => set_has excludedEdges e = false) (previous st) (previousEdge st)
                (fun k v Hkv => proj2 (Hp k v Hkv)) He _ _ _ _ _ _ Er (proj1 Hcur)
                (Forall_nil _) (Forall_nil _)) as [Hp' Hes'].
    simpl. split; [exact Hes'|split; [exact Hp'|exact (proj2 Hcur)]].
  - assert (Hst2 : search_inv {| queue := rest; costs := costs st; previous := previous st;
                                 previousEdge := previousEdge st;
                                 visited := (visited st ++ [cid])%list |})
      by (split; [exact Hrest|split; assumption]).
    destruct (map_get graph cid) as [node|] eqn:Eg.
    + apply IH in Hrun; [exact Hrun|].
      apply explore_all_inv with node; auto; [exact (proj1 Hcur)|exact (proj2 Hcur)|apply incl_refl].
    + exact (IH _ Hst2 Hrun).
Qed.

End DijkstraInvariant.

Lemma dijkstra_result_sound {A : Type} `{Number A} (graph : Graph A) s t
    (excludedEdges excludedNodes : list string) r :
  dijkstra graph s t excludedEdges excludedNodes = Some r ->
  (forall e, In e (edges r) -> ~ In e excludedEdges) /\
  (forall x, In x (path r) -> x = s \/ x = t \/ ~ In x excludedNodes) /\
  reachable graph s t excludedEdges excludedNodes t.
Proof.
  intros Hr.
  destruct (dijkstra_loop_sound graph s t excludedEdges excludedNodes _ _ r
              (search_inv_init graph s t excludedEdges excludedNodes) Hr)
    as [He [Hp Hreach]].
  split; [|split; [|exact Hreach]].
  - intros e Hin Hex. rewrite Forall_forall in He. specialize (He e Hin).
    apply set_has_In in Hex. congruence.
  - intros x Hin. rewrite Forall_forall in Hp. specialize (Hp x Hin).
    unfold node_allowed in Hp.
    destruct (String.eqb x s) eqn:E1; [left; now apply String.eqb_eq|].
    destruct (String.eqb x t) eqn:E2; [right; left; now apply String.eqb_eq|].
    right; right. intros Hex. apply set_has_In in Hex. rewrite Hex in Hp. discriminate.
Qed.

Lemma dijkstra_unreachable_none {A : Type} `{Number A} (graph : Graph A) s t
    (excludedEdges excludedNodes : list string) :
  ~ reachable graph s t excludedEdges excludedNodes t ->
  dijkstra graph s t excludedEdges excludedNodes = None.
Proof.
  intros Hn. destruct (dijkstra graph s t excludedEdges excludedNodes) as [r|] eqn:Hd;
    [|reflexivity].
  exfalso. apply Hn. exact (proj2 (proj2 (dijkstra_result_sound _ _ _ _ _ r Hd))).
Qed.

(** C4: a path returned by dijkstra uses no excluded connection and enters
    no excluded node other than the source and the target (which may be
    listed as excluded and are still allowed); when no route respecting
    the exclusions reaches the target, the result is no path. *)
Theorem dijkstra_respects_exclusions {A : Type} `{Number A} (graph : Graph A) s t
    (excludedEdges excludedNodes : list string) :
  (forall r, dijkstra graph s t excludedEdges excludedNodes = Some r ->
     (forall e, In e (edges r) -> ~ In e excludedEdges) /\
     (forall x, In x (path r) -> x = s \/ x = t \/ ~ In x excludedNodes)) /\
  (~ reachable graph s t excludedEdges excludedNodes t ->
   dijkstra graph s t excludedEdges excludedNodes = None).
Proof.
  split.
  - intros r Hr. destruct (dijkstra_result_sound _ _ _ _ _ r Hr) as [He [Hp _]]. auto.
  - apply dijkstra_unreachable_none.
Qed.

Lemma reachable_unknown_source {A : Type} `{Number A} (graph : Graph A) s t
    (excludedEdges excludedNodes : list string) y :
  map_get graph s = None ->
  reachable graph s t excludedEdges excludedNodes y -> y = s.
Proof.
  intros Hs Hr. induction Hr as [|x y Hx IH Hst]; [reflexivity|].
  subst x. inversion Hst; congruence.
Qed.

(** C5 (amended): dijkstra is a total function (it never fails) and
    returns no path whenever no route respecting the exclusions reaches
    the target; in particular, when source and target differ, for an
    unknown source and for a target that no adjacency entry leads to.
    When source and target are the same id it returns the one-node path
    with cost 0 and no connection, whether or not the id is a node of the
    graph. *)
Theorem dijkstra_no_route_none {A : Type} `{Number A} (graph : Graph A) s t
    (excludedEdges excludedNodes : list string) :
  (~ reachable graph s t excludedEdges excludedNodes t ->
   dijkstra graph s t excludedEdges excludedNodes = None) /\
  (s <> t -> map_get graph s = None ->
   dijkstra graph s t excludedEdges excludedNodes = None) /\
  (s <> t ->
   (forall x node nb, map_get graph x = Some node -> ~ In (t, nb) (neighbors node)) ->
   dijkstra graph s t excludedEdges excludedNodes = None) /\
  (s = t ->
   dijkstra graph s t excludedEdges excludedNodes =
   Some {| path := [t]; cost := num0; edges := [] |}).
Proof.
  split; [|split; [|split]].
  - apply dijkstra_unreachable_none.
  - intros Hne Hs. apply dijkstra_unreachable_none. intros Hr.
    apply Hne. symmetry. exact (reachable_unknown_source _ _ _ _ _ _ Hs Hr).
  - intros Hne Ht. apply dijkstra_unreachable_none. intros Hr.
    inversion Hr as [Heq|x y Hx Hst]; [congruence|].
    inversion Hst as [x' y' node nb Hg Hin _ _]. exact (Ht _ _ _ Hg Hin).
  - intros <-. unfold dijkstra, dijkstra_fuel, init_state. simpl.
    rewrite String.eqb_refl. reflexivity.
Qed.

(** ** Graph construction *)

Section BuildFacts.
Context {A : Type} `{Number A}.

Definition present (g : Graph A) (x : string) : Prop := map_get g x <> None.

Lemma set_neighbor_present (g : Graph A) x k v z :
  present (set_neighbor g x k v) z <-> present g z.
Proof.
  unfold present, set_neighbor.
  destruct (map_get g x) as [node|] eqn:Ex; [|reflexivity].
  destruct (String.eqb x z) eqn:E.
  - apply String.eqb_eq in E. subst z. rewrite map_get_set_same, Ex.
    split; intros _; discriminate.
  - rewrite map_get_set_other; [reflexivity|].
    intros ->. now rewrite String.eqb_refl in E.
Qed.

Lemma set_neighbor_lookup (g : Graph A) x k v z y :
  present g x ->
  map_get (neighbors_of (set_neighbor g x k v) z) y =
  if String.eqb x z && String.eqb k y then Some v
  else map_get (neighbors_of g z) y.
Proof.
  unfold present, set_neighbor, neighbors_of. intros Hx.
  destruct (map_get g x) as [node|] eqn:Ex; [|congruence].
  destruct (String.eqb x z) eqn:E; simpl.
  - apply String.eqb_eq in E. subst z. rewrite map_get_set_same, Ex. simpl.
    destruct (String.eqb k y) eqn:Ek.
    + apply String.eqb_eq in Ek. subst y. apply map_get_set_same.
    + rewrite map_get_set_other; [reflexivity|].
      intros ->. now rewrite String.eqb_refl in Ek.
  - rewrite map_get_set_other; [reflexivity|].
    intros ->. now rewrite String.eqb_refl in E.
Qed.

Lemma init_graph_facts (waypoints : list (WaypointData A)) :
  forall g : Graph A, (forall x, neighbors_of g x = []) ->
  let g' := fold_left (fun g wp => map_set g (wp_id wp) {| gn_id := wp_id wp; neighbors := [] |})
              waypoints g in
  (forall x, neighbors_of g' x = []) /\
  (forall x, present g' x <-> present g x \/ In x (map wp_id waypoints)).
Proof.
  induction waypoints as [|wp wps IH]; simpl; intros g Hg.
  - split; [exact Hg|]. intros x. tauto.
  - assert (Hg' : forall x, neighbors_of
                     (map_set g (wp_id wp) {| gn_id := wp_id wp; neighbors := [] |}) x = []).
    { intros x. unfold neighbors_of.
      destruct (String.eqb (wp_id wp) x) eqn:E.
      - apply String.eqb_eq in E. subst x. now rewrite map_get_set_same.
      - rewrite map_get_set_other; [apply Hg|].
        intros Heq. rewrite Heq, String.eqb_refl in E. discriminate. }
    destruct (IH _ Hg') as [H1 H2].
    + split; [exact H1|]. intros x. rewrite H2. unfold present.
      destruct (String.eqb (wp_id wp) x) eqn:E.
      * apply String.eqb_eq in E. subst x. rewrite map_get_set_same.
        split; [intros _; right; now left|intros _; left; discriminate].
      * rewrite map_get_set_other
          by (intros Heq; rewrite Heq, String.eqb_refl in E; discriminate).
        simpl. split.
        -- intros [Hp|Hp]; [left|right; right]; assumption.
        -- intros [Hp|[Hp|Hp]]; [left; assumption| |right; assumption].
           subst x. rewrite String.eqb_refl in E. discriminate.
Qed.

Section Edges.
Variable (waypoints : list (WaypointData A)).

Let mk (e : EdgeData A) : Neighbor A :=
  {| ncost := edge_cost (waypointMap waypoints) e; edgeId := e_id e |}.

Lemma add_edge_facts (g : Graph A) e :
  (forall z, present g z <-> In z (map wp_id waypoints)) ->
  (forall z, present (add_edge (waypointMap waypoints) g e) z <-> present g z) /\
  (forall x y, map_get (neighbors_of (add_edge (waypointMap waypoints) g e) x) y =
     if resolvable waypoints e && sets_pair e x y then Some (mk e)
     else map_get (neighbors_of g x) y).
Proof.
  intros Hkeys. unfold add_edge, resolvable.
  destruct (map_get g (e_from e)) as [nf|] eqn:Ef;
  destruct (map_get g (e_to e)) as [nt|] eqn:Et.
  - assert (Pf : present g (e_from e)) by (unfold present; congruence).
    assert (Pt : present g (e_to e)) by (unfold present; congruence).
    assert (Hres : set_has (map wp_id waypoints) (e_from e)
                   && set_has (map wp_id waypoints) (e_to e) = true).
    { apply andb_true_intro; split; apply set_has_In; apply Hkeys; assumption. }
    rewrite Hres. simpl.
    assert (Pt1 : present (set_neighbor g (e_from e) (e_to e) (mk e)) (e_to e))
      by (apply set_neighbor_present; exact Pt).
    unfold sets_pair, is_bidirectional. fold (mk e).
    destruct (e_bidirectional e) as [[|]|]; split.
    + intros z. rewrite !set_neighbor_present. reflexivity.
    + intros x y. rewrite (set_neighbor_lookup _ _ _ _ _ _ Pt1), (set_neighbor_lookup _ _ _ _ _ _ Pf).
      destruct (String.eqb (e_from e) x), (String.eqb (e_to e) y),
               (String.eqb (e_to e) x), (String.eqb (e_from e) y); reflexivity.
    + intros z. rewrite !set_neighbor_present. reflexivity.
    + intros x y. rewrite (set_neighbor_lookup _ _ _ _ _ _ Pf).
      destruct (String.eqb (e_from e) x), (String.eqb (e_to e) y),
               (String.eqb (e_to e) x), (String.eqb (e_from e) y); reflexivity.
    + intros z. rewrite !set_neighbor_present. reflexivity.
    + intros x y. rewrite (set_neighbor_lookup _ _ _ _ _ _ Pt1), (set_neighbor_lookup _ _ _ _ _ _ Pf).
      destruct (String.eqb (e_from e) x), (String.eqb (e_to e) y),
               (String.eqb (e_to e) x), (String.eqb (e_from e) y); reflexivity.
  - assert (Hres : set_has (map wp_id waypoints) (e_to e) = false).
    { destruct (set_has _ _) eqn:Ht; [|reflexivity].
      apply set_has_In, Hkeys in Ht. unfold present in Ht. congruence. }
    rewrite Hres, andb_false_r. split; reflexivity.
  - assert (Hres : set_has (map wp_id waypoints) (e_from e) = false).
    { destruct (set_has _ _) eqn:Ht; [|reflexivity].
      apply set_has_In, Hkeys in Ht. unfold present in Ht. congruence. }
    rewrite Hres. split; reflexivity.
  - assert (Hres : set_has (map wp_id waypoints) (e_from e) = false).
    { destruct (set_has _ _) eqn:Ht; [|reflexivity].
      apply set_has_In, Hkeys in Ht. unfold present in Ht. congruence. }
    rewrite Hres. split; reflexivity.
Qed.

Lemma add_edges_lookup es :
  forall (g : Graph A) (F : string -> string -> option (EdgeData A)),
  (forall z, present g z <-> In z (map wp_id waypoints)) ->
  (forall x y, map_get (neighbors_of g x) y = option_map mk (F x y)) ->
  forall x y,
  map_get (neighbors_of (fold_left (add_edge (waypointMap waypoints)) es g) x) y =
  option_map mk (fold_left (fun acc e =>
                   if resolvable waypoints e && sets_pair e x y then Some e else acc)
                   es (F x y)).
Proof.
  induction es as [|e es IH]; simpl; intros g F Hkeys HF x y; [apply HF|].
  destruct (add_edge_facts g e Hkeys) as [Hk Hl].
  apply (IH _ (fun x y => if resolvable waypoints e && sets_pair e x y then Some e else F x y)).
  - intros z. rewrite Hk. apply Hkeys.
  - intros x' y'. rewrite Hl. destruct (_ && _); [reflexivity|apply HF].
Qed.

End Edges.
End BuildFacts.

Lemma buildGraph_neighbor_entry {A : Type} `{Number A} (waypoints : list (WaypointData A))
    (es : list (EdgeData A)) (x y : string) :
  map_get (neighbors_of (buildGraph waypoints es) x) y =
  option_map (fun e => {| ncost := edge_cost (waypointMap waypoints) e; edgeId := e_id e |})
    (last_setter waypoints es x y).
Proof.
  unfold buildGraph, last_setter.
  destruct (init_graph_facts waypoints [] (fun x => eq_refl)) as [Hn Hp].
  apply (add_edges_lookup waypoints es _ (fun _ _ => None)).
  - intros z. rewrite Hp. unfold present. simpl. tauto.
  - intros x' y'. rewrite Hn. reflexivity.
Qed.

(** C6, as stated, fails: a bidirectional self-loop on A yields one
    adjacency entry, where two are predicted. *)
Lemma buildGraph_self_loop_counterexample :
  adjacency_count (buildGraph Samples.loop_wps Samples.loop_conns) = 1%nat /\
  predicted_count Samples.loop_wps Samples.loop_conns = 2%nat.
Proof. split; vm_compute; reflexivity. Qed.

(** ** Effective cost of curved connections *)

Module CurveFacts.
Import CurveCost.
Local Open Scope R_scope.

Lemma map_get_set {V : Type} (m : list (string * V)) k v k' :
  map_get (map_set m k v) k' = if String.eqb k k' then Some v else map_get m k'.
Proof.
  destruct (String.eqb k k') eqn:E.
  - apply String.eqb_eq in E. subst k'. apply map_get_set_same.
  - apply map_get_set_other. intros ->. now rewrite String.eqb_refl in E.
Qed.

Lemma find_app {T : Type} (f : T -> bool) l1 l2 :
  find f (l1 ++ l2) = match find f l1 with Some x => Some x | None => find f l2 end.
Proof.
  induction l1 as [|x l1 IH]; simpl; [reflexivity|].
  destruct (f x); [reflexivity|exact IH].
Qed.

Lemma waypointMap_get (waypoints : list (WaypointData R)) id :
  map_get (waypointMap waypoints) id = waypoint_of waypoints id.
Proof.
  unfold waypointMap, waypoint_of.
  assert (Hgen : forall m, map_get (fold_left (fun m wp => map_set m (wp_id wp) wp) waypoints m) id
                 = match find (fun wp => String.eqb (wp_id wp) id) (rev waypoints) with
                   | Some w => Some w | None => map_get m id end).
  { induction waypoints as [|wp wps IH]; simpl; intros m; [reflexivity|].
    rewrite IH, find_app, map_get_set. simpl.
    destruct (find _ (rev wps)); [reflexivity|].
    destruct (String.eqb (wp_id wp) id); reflexivity. }
  rewrite Hgen. simpl. destruct (find _ _); reflexivity.
Qed.

Lemma cubicBezierPoint_bezier (p0 p1 p2 p3 : Point R) t :
  (px (cubicBezierPoint p0 p1 p2 p3 t), py (cubicBezierPoint p0 p1 p2 p3 t)) =
  bezier p0 p1 p2 p3 t.
Proof. unfold cubicBezierPoint, bezier; simpl. f_equal; ring. Qed.

Lemma bezier_length_loop_polyline (p0 p1 p2 p3 : Point R) (N : nat) :
  forall n j prev len,
  (px prev, py prev) = bezier p0 p1 p2 p3 (INR j / INR N) ->
  bezier_length_loop p0 p1 p2 p3 (Z.of_nat N) (Z.of_nat (S j)) n prev len =
  len + fold_right Rplus 0
          (map (fun i => dist (bezier p0 p1 p2 p3 (INR i / INR N))
                              (bezier p0 p1 p2 p3 (INR (S i) / INR N)))
               (seq j n)).
Proof.
  induction n as [|n IH]; intros j prev len Hprev; cbn [bezier_length_loop seq map fold_right];
    [ring|].
  replace (Z.of_nat (S j) + 1)%Z with (Z.of_nat (S (S j))) by lia.
  assert (Ht : ndiv (num_of_Z (Z.of_nat (S j))) (num_of_Z (Z.of_nat N)) = INR (S j) / INR N).
  { cbn [ndiv num_of_Z Number_R]. rewrite !INR_IZR_INZ. reflexivity. }
  rewrite Ht.
  rewrite IH by (apply cubicBezierPoint_bezier).
  rewrite Rplus_assoc. f_equal. f_equal.
  rewrite <- Hprev, <- cubicBezierPoint_bezier. unfold dist. cbn [fst snd].
  cbn [nsqrt nadd nmul nsub Number_R]. f_equal. ring.
Qed.

Lemma getBezierLength_polyline (p0 p1 p2 p3 : Point R) :
  getBezierLength p0 p1 p2 p3 50 = polyline_length p0 p1 p2 p3 50.
Proof.
  unfold getBezierLength, polyline_length.
  change (Z.to_nat 50) with 50%nat.
  change (bezier_length_loop p0 p1 p2 p3 50 1 50 p0 num0)
    with (bezier_length_loop p0 p1 p2 p3 (Z.of_nat 50) (Z.of_nat 1) 50 p0 0).
  rewrite (bezier_length_loop_polyline p0 p1 p2 p3 50 50 0 p0 0).
  - ring.
  - unfold bezier. cbn [px py fst snd]. rewrite Rdiv_0_l.
    f_equal; ring.
Qed.

Lemma edge_cost_spec (waypoints : list (WaypointData R)) (e : EdgeData R) :
  edge_cost (waypointMap waypoints) e = spec_edge_cost waypoints e.
Proof.
  unfold edge_cost, spec_edge_cost, is_bezier. rewrite !waypointMap_get.
  destruct (waypoint_of waypoints (e_from e)) as [a|];
  destruct (waypoint_of waypoints (e_to e)) as [b|];
  destruct (e_controlPoints e) as [|c0 [|c1 cs]]; simpl;
  destruct (String.eqb (e_type e) "bezier"); simpl; try reflexivity.
  rewrite getBezierLength_polyline.
  replace (sqrt ((wp_x b - wp_x a) * (wp_x b - wp_x a) + (wp_y b - wp_y a) * (wp_y b - wp_y a)))
    with (dist (wp_x a, wp_y a) (wp_x b, wp_y b))
    by (unfold dist; simpl; f_equal; ring).
  unfold Rzerob. destruct (Req_EM_T _ 0); reflexivity.
Qed.

End CurveFacts.

(** C7: in the graph built by buildGraph (real arithmetic), the adjacency
    entry written by a connection carries the cost the specification
    gives: for a curved connection (type "bezier" with two control points)
    between resolvable waypoints, the base cost times the 50-segment
    polyline length of the curve divided by the straight-line distance of
    the endpoints (1 when that distance is 0); for any other connection,
    the stored base cost. *)
Theorem buildGraph_curve_cost (waypoints : list (WaypointData R))
    (es : list (EdgeData R)) (x y : string) (e : EdgeData R) :
  last_setter waypoints es x y = Some e ->
  map_get (neighbors_of (buildGraph waypoints es) x) y =
  Some {| ncost := CurveCost.spec_edge_cost waypoints e; edgeId := e_id e |}.
Proof.
  intros Hl. rewrite buildGraph_neighbor_entry, Hl. simpl.
  rewrite CurveFacts.edge_cost_spec. reflexivity.
Qed.

Lemma buildGraph_curve_cost_witness :
  last_setter Samples.curve_wps [Samples.curve_conn] "B" "A" = Some Samples.curve_conn /\
  map_get (neighbors_of (buildGraph Samples.curve_wps [Samples.curve_conn]) "B") "A" =
  Some {| ncost := CurveCost.spec_edge_cost Samples.curve_wps Samples.curve_conn;
          edgeId := "A-B" |}.
Proof.
  split; [reflexivity|].
  apply (buildGraph_curve_cost Samples.curve_wps [Samples.curve_conn] "B" "A" Samples.curve_conn).
  reflexivity.
Defined.

(** ** Edge cost rounding *)

Section EdgeCostRounding.
Local Open Scope R_scope.

Lemma Math_round_123 : Terrain.Math_round (123 / 100 * 10) = 12%Z.
Proof.
  unfold Terrain.Math_round, Terrain.Math_floor.
  rewrite <- (tech_up (123 / 100 * 10 + / 2) 13); [reflexivity| |]; lra.
Qed.

(** C8: calculateEdgeTerrainCost returns [Math.round(c * 10) / 10], a whole
    number of tenths, where [c] is, without terrain, the straight pixel
    distance of the endpoints divided by 100, and, with terrain, the path
    terrain cost of the edge's shape sampled with 30 segments for a
    curved edge (type "bezier" with two control points) and 20 for any
    other; a distance-only edge of 123 px costs 1.2. *)
Theorem calculateEdgeTerrainCost_rounded (edge : EdgeData R) (fromWp toWp : WaypointData R)
    (terrain : option Terrain.TerrainLayer) (imageWidth imageHeight : R) :
  let c := Terrain.calculateEdgeTerrainCost edge fromWp toWp terrain imageWidth imageHeight in
  (exists n : Z, c = IZR n / 10) /\
  c = match terrain with
      | None =>
          Terrain.round1
            (sqrt ((wp_x toWp - wp_x fromWp) * (wp_x toWp - wp_x fromWp)
                   + (wp_y toWp - wp_y fromWp) * (wp_y toWp - wp_y fromWp)) / 100)
      | Some t =>
          Terrain.round1
            (Terrain.calculatePathTerrainCost t
               (if is_bezier edge then
                  Terrain.sampleBezier {| px := wp_x fromWp; py := wp_y fromWp |}
                    (nth 0 (e_controlPoints edge) {| px := 0; py := 0 |})
                    (nth 1 (e_controlPoints edge) {| px := 0; py := 0 |})
                    {| px := wp_x toWp; py := wp_y toWp |} 30
                else Terrain.sampleLine (wp_x fromWp) (wp_y fromWp) (wp_x toWp) (wp_y toWp) 20)
               imageWidth imageHeight)
      end /\
  Terrain.calculateEdgeTerrainCost edge
    {| wp_id := wp_id fromWp; wp_x := 0; wp_y := 0 |}
    {| wp_id := wp_id toWp; wp_x := 123; wp_y := 0 |} None imageWidth imageHeight = 12 / 10.
Proof.
  intros c. split; [|split].
  - unfold c, Terrain.calculateEdgeTerrainCost.
    destruct terrain; eexists; reflexivity.
  - unfold c, Terrain.calculateEdgeTerrainCost, Terrain.round1, is_bezier.
    destruct terrain as [t|]; [|reflexivity].
    destruct (e_controlPoints edge) as [|c0 [|c1 cs]]; simpl;
      destruct (String.eqb (e_type edge) "bezier"); reflexivity.
  - unfold Terrain.calculateEdgeTerrainCost. cbn [wp_x wp_y].
    replace ((123 - 0) * (123 - 0) + (0 - 0) * (0 - 0)) with (123 * 123) by ring.
    rewrite sqrt_square by lra. rewrite Math_round_123. reflexivity.
Qed.

End EdgeCostRounding.

(** ** Painting terrain *)

Lemma js_array_set_spec l i v :
  (i < List.length l)%nat ->
  List.length (Terrain.js_array_set l i v) = List.length l /\
  forall j, nth_error (Terrain.js_array_set l i v) j =
            if Nat.eqb j i then Some v else nth_error l j.
Proof.
  intros Hi. unfold Terrain.js_array_set.
  assert (Hb : Nat.ltb i (List.length l) = true) by (apply Nat.ltb_lt; exact Hi).
  rewrite Hb.
  assert (Hf : List.length (firstn i l) = i) by (apply firstn_length_le; lia).
  split.
  - rewrite length_app, Hf. cbn [List.length]. rewrite length_skipn. lia.
  - intros j. destruct (Nat.lt_total j i) as [Hj|[Hj|Hj]].
    + rewrite nth_error_app1 by lia. rewrite nth_error_firstn.
      assert (Nat.ltb j i = true) as -> by (apply Nat.ltb_lt; exact Hj).
      assert (Nat.eqb j i = false) as -> by (apply Nat.eqb_neq; lia). reflexivity.
    + subst j. rewrite Nat.eqb_refl, nth_error_app2 by lia. rewrite Hf, Nat.sub_diag.
      reflexivity.
    + rewrite nth_error_app2 by lia. rewrite Hf.
      assert (Nat.eqb j i = false) as -> by (apply Nat.eqb_neq; lia).
      replace (j - i)%nat with (S (j - S i)) by lia. cbn [nth_error].
      rewrite nth_error_skipn. f_equal. lia.
Qed.

Lemma In_zrange lo hi z : In z (Terrain.zrange lo hi) <-> (lo <= z <= hi)%Z.
Proof.
  unfold Terrain.zrange. rewrite in_map_iff. split.
  - intros [n [<- Hn]]. apply in_seq in Hn. lia.
  - intros Hz. exists (Z.to_nat (z - lo)). split; [lia|].
    apply in_seq. lia.
Qed.

(** A read [grid[i]] of a JavaScript array: a missing element reads as
    undefined, that is unpainted. *)
Definition cell_value (c : option (option string)) : option string :=
  match c with Some v => v | None => None end.

Lemma nth_error_repeat_None n j : cell_value (nth_error (repeat (@None string) n) j) = None.
Proof.
  revert j. induction n as [|n IH]; intros [|j]; simpl; auto.
Qed.

Lemma js_array_set_get l i v j :
  cell_value (nth_error (Terrain.js_array_set l i v) j) =
  if Nat.eqb j i then v else cell_value (nth_error l j).
Proof.
  destruct (Nat.lt_ge_cases i (List.length l)) as [Hi|Hi].
  - rewrite (proj2 (js_array_set_spec l i v Hi) j). destruct (Nat.eqb j i); reflexivity.
  - unfold Terrain.js_array_set. assert (Nat.ltb i (List.length l) = false) as -> by (apply Nat.ltb_ge; lia).
    destruct (Nat.lt_ge_cases j (List.length l)) as [Hj|Hj].
    + rewrite nth_error_app1 by lia. assert (Nat.eqb j i = false) as -> by (apply Nat.eqb_neq; lia).
      reflexivity.
    + rewrite nth_error_app2 by lia. rewrite (proj2 (nth_error_None l j) Hj).
      destruct (Nat.lt_total (j - List.length l) (i - List.length l)) as [Hk|[Hk|Hk]].
      * rewrite nth_error_app1 by (rewrite repeat_length; lia).
        rewrite nth_error_repeat by lia. assert (Nat.eqb j i = false) as -> by (apply Nat.eqb_neq; lia).
        reflexivity.
      * rewrite nth_error_app2 by (rewrite repeat_length; lia). rewrite repeat_length.
        assert (j = i) by lia. subst j. rewrite Nat.eqb_refl, Nat.sub_diag. reflexivity.
      * rewrite nth_error_app2 by (rewrite repeat_length; lia). rewrite repeat_length.
        assert (Nat.eqb j i = false) as -> by (apply Nat.eqb_neq; lia).
        replace (j - List.length l - (i - List.length l))%nat with (S (j - S i)) by lia.
        simpl. destruct (j - S i)%nat; reflexivity.
Qed.

Section PaintFacts.
Variables (T : Terrain.TerrainLayer) (cx cy r : Z) (v : option string).

Let W := Terrain.gridWidth T.
Let Hh := Terrain.gridHeight T.

Definition in_grid (x y : Z) : bool :=
  (0 <=? x)%Z && (x <? W)%Z && (0 <=? y)%Z && (y <? Hh)%Z.

(** The brush offset [(dx, dy)] writes the cell of index [i]. *)
Definition hit (dy : Z) (i : nat) (dx : Z) : bool :=
  (dx * dx + dy * dy <=? r * r)%Z && in_grid (cx + dx) (cy + dy)
  && Nat.eqb (Z.to_nat ((cy + dy) * W + (cx + dx))) i.

Lemma paint_row_spec dy :
  forall dxs g, List.length g = Z.to_nat (W * Hh) ->
  List.length (fold_left (Terrain.paint_cell T cx cy (r * r) v dy) dxs g) = List.length g /\
  forall i, nth_error (fold_left (Terrain.paint_cell T cx cy (r * r) v dy) dxs g) i =
            if existsb (hit dy i) dxs then Some v else nth_error g i.
Proof.
  induction dxs as [|dx dxs IH]; simpl; intros g Hg; [split; reflexivity|].
  assert (Hstep : List.length (Terrain.paint_cell T cx cy (r * r) v dy g dx) = List.length g /\
                  forall i, nth_error (Terrain.paint_cell T cx cy (r * r) v dy g dx) i =
                            if hit dy i dx then Some v else nth_error g i).
  { unfold Terrain.paint_cell, hit, in_grid. fold W Hh.
    destruct (dx * dx + dy * dy <=? r * r)%Z; simpl; [|split; reflexivity].
    destruct ((0 <=? cx + dx)%Z && (cx + dx <? W)%Z && (0 <=? cy + dy)%Z
              && (cy + dy <? Hh)%Z) eqn:Eb; simpl; [|split; reflexivity].
    rewrite !andb_true_iff, !Z.leb_le, !Z.ltb_lt in Eb.
    destruct (js_array_set_spec g (Z.to_nat ((cy + dy) * W + (cx + dx))) v) as [H1 H2];
      [rewrite Hg; nia|].
    split; [exact H1|]. intros i. rewrite H2.
    destruct (Nat.eqb i _) eqn:E1; destruct (Nat.eqb (Z.to_nat _) i) eqn:E2; try reflexivity;
      apply Nat.eqb_eq in E1 || apply Nat.eqb_eq in E2;
      [rewrite E1, Nat.eqb_refl in E2|rewrite E2, Nat.eqb_refl in E1]; discriminate. }
  destruct Hstep as [Hl Hn].
  destruct (IH _ (eq_trans Hl Hg)) as [H1 H2]. split; [congruence|].
  intros i. rewrite H2, Hn. destruct (hit dy i dx), (existsb (hit dy i) dxs); reflexivity.
Qed.

Lemma paint_rows_spec dxs :
  forall dys g, List.length g = Z.to_nat (W * Hh) ->
  let g' := fold_left (fun g dy => fold_left (Terrain.paint_cell T cx cy (r * r) v dy) dxs g)
              dys g in
  List.length g' = List.length g /\
  forall i, nth_error g' i =
            if existsb (fun dy => existsb (hit dy i) dxs) dys then Some v else nth_error g i.
Proof.
  induction dys as [|dy dys IH]; simpl; intros g Hg; [split; reflexivity|].
  destruct (paint_row_spec dy dxs g Hg) as [Hl Hn].
  destruct (IH _ (eq_trans Hl Hg)) as [H1 H2]. split; [congruence|].
  intros i. rewrite H2, Hn.
  destruct (existsb (hit dy i) dxs), (existsb _ dys); reflexivity.
Qed.

(** The same without any assumption on the grid length, reading cells as
    [grid[i]] does. *)
Lemma paint_row_cell dy :
  forall dxs g i,
  cell_value (nth_error (fold_left (Terrain.paint_cell T cx cy (r * r) v dy) dxs g) i) =
  if existsb (hit dy i) dxs then v else cell_value (nth_error g i).
Proof.
  induction dxs as [|dx dxs IH]; simpl; intros g i; [reflexivity|].
  rewrite IH.
  assert (Hstep : cell_value (nth_error (Terrain.paint_cell T cx cy (r * r) v dy g dx) i) =
                  if hit dy i dx then v else cell_value (nth_error g i)).
  { unfold Terrain.paint_cell, hit, in_grid. fold W Hh.
    destruct (dx * dx + dy * dy <=? r * r)%Z; simpl; [|reflexivity].
    destruct ((0 <=? cx + dx)%Z && (cx + dx <? W)%Z && (0 <=? cy + dy)%Z
              && (cy + dy <? Hh)%Z); simpl; [|reflexivity].
    rewrite js_array_set_get, Nat.eqb_sym. reflexivity. }
  rewrite Hstep. destruct (hit dy i dx), (existsb (hit dy i) dxs); reflexivity.
Qed.

Lemma paint_rows_cell dxs :
  forall dys g i,
  cell_value (nth_error (fold_left (fun g dy =>
                 fold_left (Terrain.paint_cell T cx cy (r * r) v dy) dxs g) dys g) i) =
  if existsb (fun dy => existsb (hit dy i) dxs) dys then v else cell_value (nth_error g i).
Proof.
  induction dys as [|dy dys IH]; simpl; intros g i; [reflexivity|].
  rewrite IH, paint_row_cell.
  destruct (existsb (hit dy i) dxs), (existsb _ dys); reflexivity.
Qed.

(** Every write lands below [gridWidth * gridHeight], so a grid at least
    that long keeps its length. *)
Lemma paint_row_length dy :
  forall dxs g, (Z.to_nat (W * Hh) <= List.length g)%nat ->
  List.length (fold_left (Terrain.paint_cell T cx cy (r * r) v dy) dxs g) = List.length g.
Proof.
  induction dxs as [|dx dxs IH]; simpl; intros g Hg; [reflexivity|].
  assert (Hstep : List.length (Terrain.paint_cell T cx cy (r * r) v dy g dx) = List.length g).
  { unfold Terrain.paint_cell. fold W Hh.
    destruct (dx * dx + dy * dy <=? r * r)%Z; simpl; [|reflexivity].
    destruct ((0 <=? cx + dx)%Z && (cx + dx <? W)%Z && (0 <=? cy + dy)%Z
              && (cy + dy <? Hh)%Z) eqn:Eb; simpl; [|reflexivity].
    rewrite !andb_true_iff, !Z.leb_le, !Z.ltb_lt in Eb.
    apply js_array_set_spec. nia. }
  rewrite IH; [exact Hstep|]. rewrite Hstep. exact Hg.
Qed.

Lemma paint_rows_length dxs :
  forall dys g, (Z.to_nat (W * Hh) <= List.length g)%nat ->
  List.length (fold_left (fun g dy =>
                 fold_left (Terrain.paint_cell T cx cy (r * r) v dy) dxs g) dys g)
  = List.length g.
Proof.
  induction dys as [|dy dys IH]; simpl; intros g Hg; [reflexivity|].
  rewrite IH; rewrite paint_row_length by exact Hg; [reflexivity|exact Hg].
Qed.

End PaintFacts.

Lemma cell_index_inj (W x1 y1 x2 y2 : Z) :
  (0 <= x1 < W)%Z -> (0 <= x2 < W)%Z -> (0 <= y1)%Z -> (0 <= y2)%Z ->
  (y1 * W + x1 = y2 * W + x2)%Z -> x1 = x2 /\ y1 = y2.
Proof.
  intros Hx1 Hx2 Hy1 Hy2 E.
  assert (y1 = y2) by (destruct (Z.lt_total y1 y2) as [h|[h|h]]; [nia|exact h|nia]).
  subst. lia.
Qed.

Lemma sq_sum_bound (a b r : Z) :
  (0 <= r)%Z -> (a * a + b * b <= r * r)%Z -> (- r <= a <= r)%Z.
Proof.
  intros Hr H. assert (0 <= b * b)%Z by nia.
  split; apply Z.nlt_ge; intros Hlt; nia.
Qed.

Lemma brush_hits_cell (T : Terrain.TerrainLayer) cx cy r x y :
  (0 <= r)%Z -> (0 <= x < Terrain.gridWidth T)%Z -> (0 <= y < Terrain.gridHeight T)%Z ->
  existsb (fun dy => existsb (hit T cx cy r dy (Z.to_nat (y * Terrain.gridWidth T + x)))
                       (Terrain.zrange (- r) r))
          (Terrain.zrange (- r) r)
  = ((x - cx) * (x - cx) + (y - cy) * (y - cy) <=? r * r)%Z.
Proof.
  intros Hr Hx Hy. set (W := Terrain.gridWidth T).
  destruct (existsb _ _) eqn:E.
  - apply existsb_exists in E. destruct E as [dy [_ E]].
    apply existsb_exists in E. destruct E as [dx [_ E]].
    unfold hit, in_grid in E. fold W in E.
    rewrite !andb_true_iff, !Z.leb_le, !Z.ltb_lt, Nat.eqb_eq in E.
    destruct E as [[Hc [[[H1 H2] H3] H4]] Hi].
    apply Z2Nat.inj in Hi; [|nia|nia].
    destruct (cell_index_inj W (cx + dx) (cy + dy) x y) as [Ex Ey]; try lia.
  - symmetry. apply not_true_is_false. intros Hc. apply Z.leb_le in Hc.
    assert (Hdx : (- r <= x - cx <= r)%Z) by exact (sq_sum_bound _ _ _ Hr Hc).
    assert (Hdy : (- r <= y - cy <= r)%Z)
      by (apply (sq_sum_bound _ (x - cx) _ Hr); lia).
    apply not_true_iff_false in E. apply E. apply existsb_exists.
    exists (y - cy)%Z. split; [apply In_zrange; exact Hdy|].
    apply existsb_exists. exists (x - cx)%Z. split; [apply In_zrange; exact Hdx|].
    unfold hit, in_grid. fold W.
    replace (cx + (x - cx))%Z with x by ring. replace (cy + (y - cy))%Z with y by ring.
    rewrite !andb_true_iff, !Z.leb_le, !Z.ltb_lt, Nat.eqb_eq. lia.
Qed.

Lemma zrange_empty lo hi : (hi < lo)%Z -> Terrain.zrange lo hi = [].
Proof.
  intros Hlt. unfold Terrain.zrange.
  replace (Z.to_nat (hi - lo + 1)) with 0%nat by lia. reflexivity.
Qed.

Lemma brush_hits_cell_any (T : Terrain.TerrainLayer) cx cy r x y :
  (0 <= x < Terrain.gridWidth T)%Z -> (0 <= y < Terrain.gridHeight T)%Z ->
  existsb (fun dy => existsb (hit T cx cy r dy (Z.to_nat (y * Terrain.gridWidth T + x)))
                       (Terrain.zrange (- r) r))
          (Terrain.zrange (- r) r)
  = (0 <=? r)%Z && ((x - cx) * (x - cx) + (y - cy) * (y - cy) <=? r * r)%Z.
Proof.
  intros Hx Hy. destruct (Z.leb_spec 0 r) as [Hr|Hr].
  - apply brush_hits_cell; assumption.
  - rewrite zrange_empty by lia. reflexivity.
Qed.

(** C10 (amended): for an integer centre and an integer radius [r],
    paintTerrain returns a layer with the same width, height and types, and
    with the same grid length when the grid has at least
    [gridWidth * gridHeight] cells.  For [r >= 0], an in-bounds cell
    [(x, y)] reads back the given type when [(x - cx)^2 + (y - cy)^2 <= r^2]
    and its previous value otherwise.  For a negative radius the brush
    loops are empty and the layer comes back unchanged.  The input layer is
    a value and is not changed. *)
Theorem paintTerrain_brush (T : Terrain.TerrainLayer) (cx cy r : Z) (v : option string) :
  let T' := Terrain.paintTerrain T cx cy r v in
  Terrain.gridWidth T' = Terrain.gridWidth T /\
  Terrain.gridHeight T' = Terrain.gridHeight T /\
  Terrain.types T' = Terrain.types T /\
  ((Z.to_nat (Terrain.gridWidth T * Terrain.gridHeight T) <= List.length (Terrain.grid T))%nat ->
   List.length (Terrain.grid T') = List.length (Terrain.grid T)) /\
  (forall x y, (0 <= x < Terrain.gridWidth T)%Z -> (0 <= y < Terrain.gridHeight T)%Z ->
    Terrain.getTerrainAt T' x y =
    if (0 <=? r)%Z && ((x - cx) * (x - cx) + (y - cy) * (y - cy) <=? r * r)%Z then v
    else Terrain.getTerrainAt T x y) /\
  ((r < 0)%Z -> T' = T).
Proof.
  intros T'. unfold T', Terrain.paintTerrain.
  cbn [Terrain.gridWidth Terrain.gridHeight Terrain.types Terrain.grid].
  split; [reflexivity|split; [reflexivity|split; [reflexivity|split]]].
  - apply paint_rows_length.
  - split.
    + intros x y Hx Hy.
      pose proof (paint_rows_cell T cx cy r v (Terrain.zrange (- r) r) (Terrain.zrange (- r) r)
                    (Terrain.grid T) (Z.to_nat (y * Terrain.gridWidth T + x))) as Hc.
      rewrite brush_hits_cell_any in Hc by assumption.
      unfold Terrain.getTerrainAt. cbn [Terrain.gridWidth Terrain.gridHeight Terrain.grid].
      replace ((x <? 0)%Z || (Terrain.gridWidth T <=? x)%Z || (y <? 0)%Z
               || (Terrain.gridHeight T <=? y)%Z) with false
        by (symmetry; repeat rewrite orb_false_iff; repeat split;
            first [apply Z.ltb_ge | apply Z.leb_gt]; lia).
      exact Hc.
    + intros Hr. rewrite zrange_empty by lia. destruct T. reflexivity.
Qed.

(** C10, as stated, fails for a negative radius: with [r = -1] the centre
    cell satisfies [0 <= r^2] but the brush loops are empty and the cell
    keeps its value. *)
Lemma paintTerrain_negative_radius_counterexample :
  ((1 - 1) * (1 - 1) + (1 - 1) * (1 - 1) <= (-1) * (-1))%Z /\
  nth_error (Terrain.grid (Terrain.paintTerrain Samples.layer3 1 1 (-1) (Some "forest")))
    (Z.to_nat (1 * 3 + 1)) = Some None.
Proof. split; [lia|vm_compute; reflexivity]. Qed.

(** * Further properties of the code *)

Fixpoint index_of (x : string) (l : list string) : nat :=
  match l with
  | [] => O
  | y :: l' => if String.eqb y x then O else S (index_of x l')
  end.

Lemma index_of_app_in x l m : In x l -> index_of x (l ++ m) = index_of x l.
Proof.
  induction l as [|y l IH]; simpl; [intros []|].
  intros [->|Hin]; [now rewrite String.eqb_refl|].
  destruct (String.eqb y x); [reflexivity|now rewrite IH].
Qed.

Lemma index_of_lt x l : In x l -> (index_of x l < length l)%nat.
Proof.
  induction l as [|y l IH]; simpl; [intros []|].
  intros [->|Hin]; [rewrite String.eqb_refl; lia|].
  destruct (String.eqb y x); [lia|]. specialize (IH Hin). lia.
Qed.

Lemma index_of_app_notin x l : ~ In x l -> index_of x (l ++ [x]) = length l.
Proof.
  induction l as [|y l IH]; simpl; [now rewrite String.eqb_refl|].
  intros Hn. destruct (String.eqb y x) eqn:E.
  - apply String.eqb_eq in E. exfalso. apply Hn. now left.
  - rewrite IH; [reflexivity|]. intros Hin. apply Hn. now right.
Qed.

Lemma In_insert_sorted_iff {A : Type} `{Number A} (x y : string * A) l :
  In x (insert_sorted y l) <-> y = x \/ In x l.
Proof.
  split; [apply In_insert_sorted|].
  induction l as [|z l IH]; simpl.
  - intros [E|[]]. now left.
  - destruct (cmp_pos z y); simpl.
    + intros [E|[E|Hin]]; auto.
    + intros [E|[E|Hin]]; auto.
Qed.

Lemma In_sort_queue_iff {A : Type} `{Number A} (q : list (string * A)) x :
  In x (sort_queue q) <-> In x q.
Proof.
  split; [apply In_sort_queue|].
  unfold sort_queue.
  assert (Hgen : forall acc, In x acc \/ In x q ->
             In x (fold_left (fun acc x => insert_sorted x acc) q acc)).
  { induction q as [|y q IH]; simpl; intros acc [Hin|Hin]; auto; [destruct Hin|..].
    - apply IH. left. apply In_insert_sorted_iff. now right.
    - destruct Hin as [->|Hin]; apply IH; [left; apply In_insert_sorted_iff; now left|now right]. }
  intros Hin. apply Hgen. now right.
Qed.

Section SortR.
Local Open Scope R_scope.

Let le_snd (a b : string * R) : Prop := snd a <= snd b.

Lemma cmp_pos_R (a b : string * R) : cmp_pos a b = true <-> snd b < snd a.
Proof.
  unfold cmp_pos. simpl. unfold Rltb.
  destruct (Rlt_dec 0 (snd a - snd b)); split; intros; try lra; congruence.
Qed.

Lemma insert_sorted_sorted (x : string * R) l :
  Sorted le_snd l -> Sorted le_snd (insert_sorted x l).
Proof.
  induction l as [|y l IH]; cbn [insert_sorted]; intros Hs.
  - repeat constructor.
  - destruct (cmp_pos y x) eqn:E.
    + apply cmp_pos_R in E. constructor; [exact Hs|]. constructor. unfold le_snd. lra.
    + assert (Hyx : snd y <= snd x).
      { destruct (Rle_dec (snd y) (snd x)) as [h|h]; [exact h|].
        exfalso. assert (cmp_pos y x = true) by (apply cmp_pos_R; lra). congruence. }
      apply Sorted_inv in Hs. destruct Hs as [Hs Hhd].
      constructor; [exact (IH Hs)|].
      destruct l as [|z l]; cbn [insert_sorted].
      * constructor. exact Hyx.
      * destruct (cmp_pos z x); constructor; [exact Hyx|]. now inversion Hhd.
Qed.

Lemma sort_queue_sorted (q : list (string * R)) : Sorted le_snd (sort_queue q).
Proof.
  unfold sort_queue.
  assert (Hgen : forall acc, Sorted le_snd acc ->
             Sorted le_snd (fold_left (fun acc x => insert_sorted x acc) q acc)).
  { induction q as [|y q IH]; simpl; intros acc Hs; [exact Hs|].
    apply IH. now apply insert_sorted_sorted. }
  apply Hgen. constructor.
Qed.

Lemma sort_queue_head_min (q : list (string * R)) x rest :
  sort_queue q = x :: rest -> forall y, In y q -> snd x <= snd y.
Proof.
  intros Hq y Hy. apply In_sort_queue_iff in Hy. rewrite Hq in Hy.
  pose proof (sort_queue_sorted q) as Hs. rewrite Hq in Hs.
  apply Sorted_StronglySorted in Hs; [|intros a b c; unfold le_snd; lra].
  destruct Hy as [->|Hy]; [lra|].
  apply StronglySorted_inv in Hs. destruct Hs as [_ Hall].
  rewrite Forall_forall in Hall. exact (Hall y Hy).
Qed.

End SortR.

Section PathAlgebra.
Context {A : Type} `{Number A}.

Definition edge_ids (g : Graph A) (a b : string) : list string :=
  match graph_edge g a b with Some e => [edgeId e] | None => [] end.

Lemma getPathEdges_cons2 (g : Graph A) a b r :
  getPathEdges g (a :: b :: r) = (edge_ids g a b ++ getPathEdges g (b :: r))%list.
Proof. unfold edge_ids. simpl. destruct (graph_edge g a b); reflexivity. Qed.

Lemma getPathEdges_app (g : Graph A) p x q :
  getPathEdges g (p ++ x :: q) = (getPathEdges g (p ++ [x]) ++ getPathEdges g (x :: q))%list.
Proof.
  induction p as [|a p IH]; [reflexivity|].
  destruct p as [|b p].
  - simpl. destruct (graph_edge g a x); reflexivity.
  - change ((a :: b :: p) ++ x :: q)%list with (a :: b :: (p ++ x :: q))%list.
    change ((a :: b :: p) ++ [x])%list with (a :: b :: (p ++ [x]))%list.
    rewrite !getPathEdges_cons2. cbn [app] in IH. rewrite IH, app_assoc. reflexivity.
Qed.

End PathAlgebra.

Section PathAlgebraR.
Local Open Scope R_scope.

Definition edge_cost_of (g : Graph R) (a b : string) : R :=
  match graph_edge g a b with Some e => ncost e | None => 0 end.

Lemma calculatePathCost_cons2 (g : Graph R) a b r :
  calculatePathCost g (a :: b :: r) = edge_cost_of g a b + calculatePathCost g (b :: r).
Proof.
  unfold edge_cost_of. change (calculatePathCost g (a :: b :: r)) with
    (match graph_edge g a b with
     | Some e => nadd (ncost e) (calculatePathCost g (b :: r))
     | None => calculatePathCost g (b :: r) end).
  destruct (graph_edge g a b); simpl; ring.
Qed.

Lemma calculatePathCost_app (g : Graph R) p x q :
  calculatePathCost g (p ++ x :: q) =
  calculatePathCost g (p ++ [x]) + calculatePathCost g (x :: q).
Proof.
  induction p as [|a p IH].
  - simpl. change (@num0 R _) with 0. ring.
  - destruct p as [|b p].
    + simpl app. rewrite !calculatePathCost_cons2. simpl. change (@num0 R _) with 0. ring.
    + change ((a :: b :: p) ++ x :: q)%list with (a :: b :: (p ++ x :: q))%list.
      change ((a :: b :: p) ++ [x])%list with (a :: b :: (p ++ [x]))%list.
      rewrite !calculatePathCost_cons2. cbn [app] in IH. rewrite IH. ring.
Qed.

End PathAlgebraR.

Section DijkstraPaths.
Local Open Scope R_scope.
Variables (graph : Graph R) (s t : string) (exE exN : list string).
Hypothesis graph_keys : forall x n, map_get graph x = Some n -> NoDup (map fst (neighbors n)).

Definition path_inv (st : DState R) : Prop :=
  (In s (visited st) \/ (visited st = [] /\ queue st = [(s, 0)])) /\
  (map_get (costs st) s = Some 0 /\ map_get (previous st) s = None /\
   map_get (previousEdge st) s = None) /\
  (forall v u, map_get (previous st) v = Some u ->
     exists cu e, In u (visited st) /\ map_get (costs st) u = Some cu /\
       graph_edge graph u v = Some e /\ map_get (previousEdge st) v = Some (edgeId e) /\
       map_get (costs st) v = Some (cu + ncost e) /\
       (In v (visited st) -> (index_of u (visited st) < index_of v (visited st))%nat)) /\
  (forall v c, In (v, c) (queue st) -> v = s \/ map_get (previous st) v <> None) /\
  (forall v, In v (visited st) -> v = s \/ map_get (previous st) v <> None) /\
  (forall v c, ~ In v (visited st) -> map_get (costs st) v = Some c -> In (v, c) (queue st)) /\
  (forall v c', ~ In v (visited st) -> In (v, c') (queue st) ->
     exists c, map_get (costs st) v = Some c /\ c <= c') /\
  NoDup (visited st).

Lemma path_inv_init : path_inv (init_state s).
Proof.
  unfold path_inv, init_state; cbn [queue costs previous previousEdge visited map_get].
  rewrite String.eqb_refl.
  split; [right; split; reflexivity|].
  split; [split; [reflexivity|split; reflexivity]|].
  split; [intros v u Hv; discriminate|].
  split; [intros v c [[= -> _]|[]]; now left|].
  split; [intros v []|].
  split.
  - intros v c _. destruct (String.eqb s v) eqn:E; [|discriminate].
    apply String.eqb_eq in E. subst. intros [= <-]. now left.
  - split; [|constructor].
    intros v c' _ [[= <- <-]|[]]. exists 0. rewrite String.eqb_refl.
    split; [reflexivity|simpl; lra].
Qed.

Lemma graph_edge_of_In cid node nid nb :
  map_get graph cid = Some node -> In (nid, nb) (neighbors node) ->
  graph_edge graph cid nid = Some nb.
Proof.
  intros Hg Hin. unfold graph_edge. rewrite Hg.
  specialize (graph_keys _ _ Hg). clear Hg.
  induction (neighbors node) as [|[k v] l IH]; [destruct Hin|].
  simpl in *. inversion graph_keys as [|? ? Hk Hnd]; subst.
  destruct Hin as [[= -> ->]|Hin]; [now rewrite String.eqb_refl|].
  destruct (String.eqb k nid) eqn:E.
  - apply String.eqb_eq in E. subst. exfalso. apply Hk.
    apply (in_map fst) in Hin. exact Hin.
  - exact (IH Hnd Hin).
Qed.

Lemma explore_path_inv cid ccost node st nb :
  path_inv st -> In cid (visited st) -> map_get (costs st) cid = Some ccost ->
  map_get graph cid = Some node -> In nb (neighbors node) ->
  let st' := explore s t exE exN cid ccost st nb in
  path_inv st' /\ visited st' = visited st /\ map_get (costs st') cid = Some ccost.
Proof.
  intros Hinv Hcv Hcc Hg Hin.
  destruct nb as [nid neighbor]. unfold explore.
  destruct (set_has exE (edgeId neighbor)); [now split|].
  destruct (negb (String.eqb nid s) && negb (String.eqb nid t) && set_has exN nid);
    [now split|].
  destruct (set_has (visited st) nid) eqn:Ev; [now split|].
  assert (Hnv : ~ In nid (visited st)) by (rewrite <- set_has_In; congruence).
  destruct Hinv as [J1 [[J2a [J2b J2c]] [J3 [J4 [J5 [J6 [J7 J8]]]]]]].
  assert (Hs : In s (visited st)).
  { destruct J1 as [J1|[J1 _]]; [exact J1|]. rewrite J1 in Hcv. destruct Hcv. }
  assert (Hns : nid <> s) by (intros ->; contradiction).
  assert (Hnc : nid <> cid) by (intros ->; contradiction).
  set (newCost := nadd ccost (ncost neighbor)).
  set (upd := {| queue := (queue st ++ [(nid, newCost)])%list;
                 costs := map_set (costs st) nid newCost;
                 previous := map_set (previous st) nid cid;
                 previousEdge := map_set (previousEdge st) nid (edgeId neighbor);
                 visited := visited st |}).
  assert (Hupd : (forall c0, map_get (costs st) nid = Some c0 -> newCost < c0) ->
             path_inv upd /\ visited upd = visited st /\ map_get (costs upd) cid = Some ccost).
  { intros Hlt. unfold upd; simpl.
    rewrite map_get_set_other by (intros E; apply Hnc; now symmetry).
    split; [|split; [reflexivity|exact Hcc]].
    unfold path_inv; simpl.
    rewrite !map_get_set_other by (intros E; apply Hns; now symmetry).
    split; [now left|]. split; [auto|].
    split; [|split; [|split; [|split; [|split]]]].
    - intros v u Hv. destruct (String.eqb nid v) eqn:E.
      + apply String.eqb_eq in E. subst v.
        rewrite map_get_set_same in Hv. injection Hv as <-.
        exists ccost, neighbor.
        rewrite map_get_set_other by (intros E; apply Hnc; now symmetry).
        rewrite !map_get_set_same.
        split; [exact Hcv|split; [exact Hcc|split; [|split; [reflexivity|split]]]].
        * exact (graph_edge_of_In _ _ _ _ Hg Hin).
        * reflexivity.
        * intros; contradiction.
      + apply String.eqb_neq in E.
        rewrite map_get_set_other in Hv by exact E.
        destruct (J3 v u Hv) as [cu [e [Hu [Hcu [He [Hpe [Hcv' Hrank]]]]]]].
        exists cu, e.
        assert (Hun : nid <> u) by (intros ->; contradiction).
        rewrite !map_get_set_other by assumption. auto 10.
    - intros v c Hvc. apply in_app_or in Hvc. destruct Hvc as [Hvc|[[= <- _]|[]]].
      + destruct (J4 v c Hvc) as [->|Hp]; [now left|right].
        destruct (String.eqb nid v) eqn:E.
        * apply String.eqb_eq in E. subst. rewrite map_get_set_same. discriminate.
        * apply String.eqb_neq in E. now rewrite map_get_set_other.
      + right. rewrite map_get_set_same. discriminate.
    - intros v Hv. destruct (J5 v Hv) as [->|Hp]; [now left|right].
      assert (E : nid <> v) by (intros ->; contradiction).
      now rewrite map_get_set_other.
    - intros v c Hv Hc. apply in_or_app.
      destruct (String.eqb nid v) eqn:E.
      + apply String.eqb_eq in E. subst. rewrite map_get_set_same in Hc.
        injection Hc as <-. right. now left.
      + apply String.eqb_neq in E. rewrite map_get_set_other in Hc by exact E.
        left. exact (J6 v c Hv Hc).
    - intros v c' Hv Hvc. destruct (String.eqb nid v) eqn:E.
      + apply String.eqb_eq in E. subst v. rewrite map_get_set_same.
        exists newCost. split; [reflexivity|].
        apply in_app_or in Hvc. destruct Hvc as [Hvc|[[= <-]|[]]]; [|lra].
        destruct (J7 nid c' Hv Hvc) as [c1 [Hc1 Hle]].
        specialize (Hlt c1 Hc1). simpl in Hlt. lra.
      + apply String.eqb_neq in E. rewrite map_get_set_other by exact E.
        apply in_app_or in Hvc. destruct Hvc as [Hvc|[[= <- _]|[]]]; [|congruence].
        exact (J7 v c' Hv Hvc).
    - exact J8. }
  destruct (map_get (costs st) nid) as [c0|] eqn:Ec.
  - destruct (nltb newCost c0) eqn:Elt; [|now split].
    apply Hupd. intros c1 Hc1. assert (c0 = c1) as <- by congruence. unfold newCost in *. simpl in Elt |- *. unfold Rltb in Elt.
    destruct (Rlt_dec _ _) as [h|h]; [exact h|discriminate].
  - apply Hupd. intros c1 Hc1. congruence.
Qed.

Lemma explore_all_path_inv cid ccost node :
  map_get graph cid = Some node ->
  forall l st, incl l (neighbors node) -> path_inv st -> In cid (visited st) ->
  map_get (costs st) cid = Some ccost ->
  path_inv (fold_left (explore s t exE exN cid ccost) l st).
Proof.
  intros Hg l. induction l as [|nb l IH]; simpl; intros st Hincl Hst Hcv Hcc; [exact Hst|].
  destruct (explore_path_inv cid ccost node st nb Hst Hcv Hcc Hg (Hincl nb (or_introl eq_refl)))
    as [Hst' [Hv Hc]].
  apply IH; [intros y Hy; apply Hincl; now right|exact Hst'|rewrite Hv; exact Hcv|exact Hc].
Qed.

Definition nonempty_id (e : string) : bool := negb (String.eqb e "").

Lemma path_snoc q u x e :
  q <> [] -> last q s = u -> graph_edge graph u x = Some e ->
  getPathEdges graph (q ++ [x]) = (getPathEdges graph q ++ [edgeId e])%list /\
  calculatePathCost graph (q ++ [x]) = calculatePathCost graph q + ncost e.
Proof.
  intros Hq Hl He. destruct (exists_last Hq) as [q0 [u' Eq]]. subst q.
  rewrite last_last in Hl. subst u'.
  rewrite <- !app_assoc. cbn [app]. split.
  - rewrite getPathEdges_app. f_equal. rewrite getPathEdges_cons2.
    unfold edge_ids. rewrite He. reflexivity.
  - rewrite calculatePathCost_app. rewrite calculatePathCost_cons2.
    unfold edge_cost_of. rewrite He. simpl. ring.
Qed.

Lemma reconstruct_path st : path_inv st ->
  forall n x p es, In x (visited st) -> (index_of x (visited st) < n)%nat ->
  exists q, reconstruct_loop (previous st) (previousEdge st) n x p es =
            ((q ++ p)%list, (filter nonempty_id (getPathEdges graph q) ++ es)%list) /\
            hd_error q = Some s /\ last q s = x /\
            length (getPathEdges graph q) = pred (length q) /\
            map_get (costs st) x = Some (calculatePathCost graph q).
Proof.
  intros Hinv. destruct Hinv as [J1 [[J2a [J2b J2c]] [J3 [J4 [J5 [J6 [J7 J8]]]]]]].
  intros n. induction n as [|f IH]; intros x p es Hx Hidx; [lia|].
  cbn [reconstruct_loop].
  destruct (map_get (previous st) x) as [u|] eqn:Hp.
  - destruct (J3 x u Hp) as [cu [e [Hu [Hcu [He [Hpe [Hcx Hrank]]]]]]].
    specialize (Hrank Hx). rewrite Hpe.
    destruct (IH u (x :: p) (if String.eqb (edgeId e) "" then es else edgeId e :: es) Hu
                ltac:(lia)) as [qu [Eq [Hhd [Hlast [Hlen Hcost]]]]].
    assert (Hqu : qu <> []) by (intros ->; discriminate).
    destruct (path_snoc qu u x e Hqu Hlast He) as [Hge Hcc].
    exists (qu ++ [x])%list. rewrite Eq. split; [|split; [|split; [|split]]].
    + rewrite <- app_assoc. cbn [app]. rewrite Hge, filter_app, <- app_assoc.
      f_equal. f_equal. simpl. unfold nonempty_id.
      destruct (String.eqb (edgeId e) ""); reflexivity.
    + destruct qu; [congruence|exact Hhd].
    + apply last_last.
    + rewrite Hge, !length_app. simpl. destruct qu; [congruence|]. simpl in Hlen |- *. lia.
    + rewrite Hcc, Hcx. rewrite Hcu in Hcost. injection Hcost as ->. reflexivity.
  - destruct (J5 x Hx) as [->|Hn]; [|contradiction].
    rewrite J2c. exists [s]. split; [reflexivity|].
    split; [reflexivity|split; [reflexivity|split; [reflexivity|]]]. exact J2a.
Qed.

Lemma path_inv_length st :
  path_inv st -> (length (visited st) <= S (length (previous st)))%nat.
Proof.
  intros [_ [_ [_ [_ [J5 [_ [_ J8]]]]]]].
  assert (E : length (s :: map fst (previous st)) = S (length (previous st)))
    by (simpl; now rewrite length_map).
  rewrite <- E.
  apply NoDup_incl_length; [exact J8|].
  intros v Hv. destruct (J5 v Hv) as [->|Hn]; [now left|right].
  destruct (map_get (previous st) v) as [u|] eqn:Eu; [|congruence].
  exact (in_map fst _ _ (map_get_In _ _ _ Eu)).
Qed.

Definition path_consistent (r : PathResult R) : Prop :=
  hd_error (path r) = Some s /\ last (path r) s = t /\
  length (getPathEdges graph (path r)) = pred (length (path r)) /\
  cost r = calculatePathCost graph (path r) /\
  edges r = filter nonempty_id (getPathEdges graph (path r)).

Lemma dijkstra_loop_paths fuel st r :
  path_inv st -> dijkstra_loop graph s t exE exN fuel st = Some r -> path_consistent r.
Proof.
  revert st. induction fuel as [|f IH]; cbn [dijkstra_loop]; intros st Hst Hrun; [discriminate|].
  destruct (sort_queue (queue st)) as [|[cid ccost] rest] eqn:Eq; [discriminate|].
  assert (Hhead : In (cid, ccost) (queue st))
    by (apply In_sort_queue_iff; rewrite Eq; now left).
  assert (Hrest : forall x, In x rest -> In x (queue st))
    by (intros x Hx; apply In_sort_queue_iff; rewrite Eq; now right).
  assert (Hrest' : forall v c, v <> cid -> In (v, c) (queue st) -> In (v, c) rest).
  { intros v c Hne Hin. apply In_sort_queue_iff in Hin. rewrite Eq in Hin.
    destruct Hin as [[= -> _]|Hin]; [congruence|exact Hin]. }
  destruct Hst as [J1 [J2 [J3 [J4 [J5 [J6 [J7 J8]]]]]]].
  cbn [visited queue costs previous previousEdge] in *.
  destruct (set_has (visited st) cid) eqn:Ev.
  - apply set_has_In in Ev. refine (IH _ _ Hrun).
    unfold path_inv; cbn [visited queue costs previous previousEdge].
    split; [|split; [exact J2|split; [exact J3|split; [|split; [exact J5|split; [|split; [|exact J8]]]]]]].
    + left. destruct J1 as [J1|[J1 _]]; [exact J1|]. rewrite J1 in Ev. destruct Ev.
    + intros v c Hin. exact (J4 v c (Hrest _ Hin)).
    + intros v c Hv Hc. apply Hrest'; [intros ->; contradiction|exact (J6 v c Hv Hc)].
    + intros v c Hv Hin. exact (J7 v c Hv (Hrest _ Hin)).
  - assert (Hnv : ~ In cid (visited st)) by (rewrite <- set_has_In; congruence).
    assert (Hcc : map_get (costs st) cid = Some ccost).
    { destruct (J7 cid ccost Hnv Hhead) as [c [Hc Hle]].
      pose proof (sort_queue_head_min _ _ _ Eq (cid, c) (J6 cid c Hnv Hc)) as Hmin.
      simpl in Hmin. rewrite Hc. f_equal. lra. }
    set (st2 := {| queue := rest; costs := costs st; previous := previous st;
                   previousEdge := previousEdge st; visited := (visited st ++ [cid])%list |}).
    assert (Hst2 : path_inv st2).
    { unfold path_inv, st2; cbn [visited queue costs previous previousEdge].
      split; [|split; [exact J2|split; [|split; [|split; [|split; [|split]]]]]].
      - left. destruct J1 as [J1|[J1 J1q]]; [apply in_or_app; now left|].
        rewrite J1. rewrite J1q in Eq. simpl in Eq. injection Eq as -> _ _. now left.
      - intros v u Hv. destruct (J3 v u Hv) as [cu [e [Hu [Hcu [He [Hpe [Hcv Hrank]]]]]]].
        exists cu, e. split; [apply in_or_app; now left|].
        do 4 (split; [assumption|]).
        intros Hv'. apply in_app_or in Hv'. destruct Hv' as [Hv'|[<-|[]]].
        + rewrite !index_of_app_in by assumption. exact (Hrank Hv').
        + rewrite index_of_app_in by assumption. rewrite index_of_app_notin by assumption.
          now apply index_of_lt.
      - intros v c Hin. exact (J4 v c (Hrest _ Hin)).
      - intros v Hv. apply in_app_or in Hv. destruct Hv as [Hv|[<-|[]]]; [exact (J5 v Hv)|].
        exact (J4 cid ccost Hhead).
      - intros v c Hv Hc. assert (Hv1 : ~ In v (visited st)) by (intros H1; apply Hv; apply in_or_app; now left).
        apply Hrest'; [intros ->; apply Hv; apply in_or_app; right; now left|exact (J6 v c Hv1 Hc)].
      - intros v c Hv Hin. apply J7; [intros H1; apply Hv; apply in_or_app; now left|exact (Hrest _ Hin)].
      - apply NoDup_app; [exact J8|constructor; [intros []|constructor]|].
        intros x Hx [<-|[]]. contradiction. }
    destruct (String.eqb cid t) eqn:Et.
    + apply String.eqb_eq in Et. subst cid.
      injection Hrun as <-.
      assert (Htv : In t (visited st2)) by (unfold st2; simpl; apply in_or_app; right; now left).
      assert (Hidx : (index_of t (visited st2) < S (length (previous st2)))%nat).
      { pose proof (path_inv_length st2 Hst2) as Hl.
        unfold st2 in *; cbn [visited previous] in *.
        rewrite index_of_app_notin by assumption. rewrite length_app in Hl. simpl in Hl. lia. }
      destruct (reconstruct_path st2 Hst2 _ t [] [] Htv Hidx) as [q [Eq' [Hhd [Hlast [Hlen Hcost]]]]].
      unfold reconstructPath. change (previous st) with (previous st2).
      change (previousEdge st) with (previousEdge st2).
      change (costs st) with (costs st2). rewrite Eq', Hcost.
      rewrite !app_nil_r. unfold path_consistent; cbn [path cost edges].
      repeat split; assumption.
    + destruct (map_get graph cid) as [node|] eqn:Eg.
      * refine (IH _ _ Hrun).
        apply explore_all_path_inv with node; [exact Eg|apply incl_refl|exact Hst2| |exact Hcc].
        unfold st2; simpl. apply in_or_app. right. now left.
      * exact (IH _ Hst2 Hrun).
Qed.

End DijkstraPaths.

Lemma In_keys_map_set {V : Type} (m : list (string * V)) k v k' :
  In k' (map fst (map_set m k v)) -> In k' (map fst m) \/ k' = k.
Proof.
  intros Hin. apply in_map_iff in Hin. destruct Hin as [[k0 v0] [<- Hin]].
  destruct (In_map_set _ _ _ _ _ Hin) as [H1|[H1 _]].
  - left. exact (in_map fst _ _ H1).
  - right. exact H1.
Qed.

Lemma map_set_NoDup {V : Type} (m : list (string * V)) k v :
  NoDup (map fst m) -> NoDup (map fst (map_set m k v)).
Proof.
  induction m as [|[k0 v0] m IH]; simpl; intros Hnd.
  - repeat constructor. intros [].
  - inversion Hnd as [|? ? Hk Hnd']; subst.
    destruct (String.eqb k0 k) eqn:E; simpl; constructor; auto.
    intros Hin. destruct (In_keys_map_set _ _ _ _ Hin) as [H1| ->]; [contradiction|].
    rewrite String.eqb_refl in E. discriminate.
Qed.

Section BuildKeys.
Context {A : Type} `{Number A}.
Variable ids : list string.

(** Every adjacency list has distinct neighbour keys, and every stored edge
    id is one of [ids]. *)
Definition graph_wf (g : Graph A) : Prop :=
  forall x n, map_get g x = Some n ->
  NoDup (map fst (neighbors n)) /\ (forall y nb, In (y, nb) (neighbors n) -> In (edgeId nb) ids).

Lemma graph_wf_set (g : Graph A) k n :
  graph_wf g -> NoDup (map fst (neighbors n)) ->
  (forall y nb, In (y, nb) (neighbors n) -> In (edgeId nb) ids) ->
  graph_wf (map_set g k n).
Proof.
  intros Hg Hnd Hid x n' Hx. destruct (String.eqb k x) eqn:E.
  - apply String.eqb_eq in E. subst. rewrite map_get_set_same in Hx.
    injection Hx as <-. auto.
  - apply String.eqb_neq in E. rewrite map_get_set_other in Hx by exact E. exact (Hg _ _ Hx).
Qed.

Lemma graph_wf_set_neighbor (g : Graph A) x key v :
  graph_wf g -> In (edgeId v) ids -> graph_wf (set_neighbor g x key v).
Proof.
  intros Hg Hv. unfold set_neighbor.
  destruct (map_get g x) as [node|] eqn:Ex; [|exact Hg].
  destruct (Hg _ _ Ex) as [Hnd Hid].
  apply graph_wf_set; [exact Hg|apply map_set_NoDup; exact Hnd|].
  intros y nb Hin. destruct (In_map_set _ _ _ _ _ Hin) as [H1|[_ ->]]; [exact (Hid _ _ H1)|exact Hv].
Qed.

Lemma buildGraph_wf (waypoints : list (WaypointData A)) (es : list (EdgeData A)) :
  incl (map e_id es) ids -> graph_wf (buildGraph waypoints es).
Proof.
  intros Hids. unfold buildGraph.
  assert (H0 : forall g, graph_wf g ->
            graph_wf (fold_left (fun g wp => map_set g (wp_id wp)
                        {| gn_id := wp_id wp; neighbors := [] |}) waypoints g)).
  { induction waypoints as [|wp wps IH]; simpl; intros g Hg; [exact Hg|].
    apply IH. apply graph_wf_set; [exact Hg|constructor|intros y nb []]. }
  assert (H1 : forall es' g, incl (map e_id es') ids -> graph_wf g ->
            graph_wf (fold_left (add_edge (waypointMap waypoints)) es' g)).
  { induction es' as [|e es' IH]; simpl; intros g Hincl Hg; [exact Hg|].
    apply IH; [intros i Hi; apply Hincl; now right|].
    assert (He : In (e_id e) ids) by (apply Hincl; now left).
    unfold add_edge.
    destruct (map_get g (e_from e)), (map_get g (e_to e)); try exact Hg.
    cbv zeta. destruct (is_bidirectional e);
      repeat apply graph_wf_set_neighbor; simpl; auto. }
  apply H1; [exact Hids|]. apply H0. intros x n Hx. discriminate.
Qed.

End BuildKeys.

Lemma map_get_In_keys {V : Type} (m : list (string * V)) k :
  In k (map fst m) <-> map_get m k <> None.
Proof.
  induction m as [|[k0 v0] m IH]; simpl; [tauto|].
  destruct (String.eqb k0 k) eqn:E.
  - apply String.eqb_eq in E. subst k0. split; [discriminate|auto].
  - apply String.eqb_neq in E. rewrite <- IH. split; [intros [H|H]; [contradiction|exact H]|auto].
Qed.

Lemma last_setter_found {A : Type} `{Number A} (waypoints : list (WaypointData A))
    (es : list (EdgeData A)) x y e :
  In e es -> resolvable waypoints e && sets_pair e x y = true ->
  last_setter waypoints es x y <> None.
Proof.
  unfold last_setter.
  assert (Hg : forall l (a : option (EdgeData A)), a <> None ->
            fold_left (fun acc e => if resolvable waypoints e && sets_pair e x y
                                    then Some e else acc) l a <> None).
  { induction l as [|e0 l IHl]; simpl; intros a Ha; [exact Ha|].
    apply IHl. destruct (_ && _); [discriminate|exact Ha]. }
  generalize (@None (EdgeData A)) at 1.
  induction es as [|e' es IH]; simpl; intros acc Hin He; [contradiction|].
  destruct Hin as [->|Hin].
  - rewrite He. apply Hg. discriminate.
  - exact (IH _ Hin He).
Qed.

(** C6 (amended): in the graph built by buildGraph, the adjacency entry of
    node [x] for neighbour [y] is the one written by the last connection,
    in list order, whose endpoints are waypoints and which writes [x -> y]:
    its forward direction (from [x] to [y]) always, its reverse direction
    (from [y] back to [x]) exactly when it is bidirectional, absence of the
    flag counting as bidirectional.  Entries are keyed by neighbour id: no
    adjacency list holds two entries for one neighbour, node [x] holds
    exactly one entry for [y] when some such connection writes [x -> y]
    and none otherwise, so a later connection over the same ordered pair
    replaces an earlier one, and a bidirectional self-loop on a waypoint
    yields a single entry. *)
Theorem buildGraph_adjacency {A : Type} `{Number A} (waypoints : list (WaypointData A))
    (es : list (EdgeData A)) :
  (forall x y,
     map_get (neighbors_of (buildGraph waypoints es) x) y =
     option_map (fun e => {| ncost := edge_cost (waypointMap waypoints) e; edgeId := e_id e |})
       (last_setter waypoints es x y)) /\
  (forall x, NoDup (map fst (neighbors_of (buildGraph waypoints es) x))) /\
  (forall x y,
     count_occ string_dec (map fst (neighbors_of (buildGraph waypoints es) x)) y =
     if last_setter waypoints es x y then 1%nat else 0%nat) /\
  (forall e, In e es -> resolvable waypoints e = true -> e_from e = e_to e ->
     count_occ string_dec (map fst (neighbors_of (buildGraph waypoints es) (e_from e)))
       (e_from e) = 1%nat).
Proof.
  assert (Hnd : forall x, NoDup (map fst (neighbors_of (buildGraph waypoints es) x))).
  { intros x. unfold neighbors_of.
    destruct (map_get (buildGraph waypoints es) x) as [n|] eqn:Hx; [|constructor].
    exact (proj1 (buildGraph_wf (map e_id es) waypoints es (incl_refl _) x n Hx)). }
  assert (Hcnt : forall x y,
     count_occ string_dec (map fst (neighbors_of (buildGraph waypoints es) x)) y =
     if last_setter waypoints es x y then 1%nat else 0%nat).
  { intros x y. pose proof (buildGraph_neighbor_entry waypoints es x y) as Hl.
    pose proof (proj1 (NoDup_count_occ string_dec _) (Hnd x) y) as Hle.
    destruct (last_setter waypoints es x y) as [e|]; cbn [option_map] in Hl.
    - assert (Hin : In y (map fst (neighbors_of (buildGraph waypoints es) x)))
        by (apply map_get_In_keys; rewrite Hl; discriminate).
      apply (count_occ_In string_dec) in Hin. lia.
    - apply (count_occ_not_In string_dec). rewrite map_get_In_keys. tauto. }
  split; [exact (buildGraph_neighbor_entry waypoints es)|].
  split; [exact Hnd|]. split; [exact Hcnt|].
  intros e Hin Hres Hself. rewrite Hcnt.
  destruct (last_setter waypoints es (e_from e) (e_from e)) eqn:E; [reflexivity|].
  exfalso. refine (last_setter_found waypoints es (e_from e) (e_from e) e Hin _ E).
  rewrite Hres. unfold sets_pair. rewrite <- Hself, String.eqb_refl. reflexivity.
Qed.


Lemma dijkstra_paths_wf (graph : Graph R) ids s t exE exN r :
  graph_wf ids graph -> dijkstra graph s t exE exN = Some r -> path_consistent graph s t r.
Proof.
  intros Hg Hr. apply (dijkstra_loop_paths graph s t exE exN) with (fuel := dijkstra_fuel graph)
    (st := init_state s).
  - intros x n Hx. exact (proj1 (Hg x n Hx)).
  - apply path_inv_init.
  - exact Hr.
Qed.


(** X1: on a graph built by buildGraph, a route found by dijkstra starts at
    the source and ends at the target, has one edge per step, reports the cost
    calculatePathCost gives for its path, and lists the non-empty ids of the
    edges getPathEdges gives for its path. *)
Theorem dijkstra_route_consistent (waypoints : list (WaypointData R)) (es : list (EdgeData R))
    (s t : string) (excludedEdges excludedNodes : list string) :
  let graph := buildGraph waypoints es in
  match dijkstra graph s t excludedEdges excludedNodes with
  | Some r =>
      hd_error (path r) = Some s /\ last (path r) s = t /\
      length (getPathEdges graph (path r)) = pred (length (path r)) /\
      cost r = calculatePathCost graph (path r) /\
      edges r = filter nonempty_id (getPathEdges graph (path r))
  | None => True
  end.
Proof.
  intros graph. destruct (dijkstra graph s t excludedEdges excludedNodes) as [r|] eqn:Hr;
    [|exact I].
  exact (dijkstra_paths_wf graph (map e_id es) s t _ _ r
           (buildGraph_wf _ waypoints es (incl_refl _)) Hr).
Qed.


Section YenFacts.
Context {A : Type} `{Number A}.
Variables (graph : Graph A) (s t : string).

Lemma yen_loop_extends n : forall paths pot,
  exists extra, yen_loop graph t n paths pot = (paths ++ extra)%list /\ (length extra <= n)%nat.
Proof.
  induction n as [|n IH]; intros paths pot; cbn [yen_loop].
  - exists []. rewrite app_nil_r. split; [reflexivity|simpl; lia].
  - destruct (sort_by_cost _) as [|best rest].
    + exists []. rewrite app_nil_r. split; [reflexivity|simpl; lia].
    + destruct (IH (paths ++ [best])%list rest) as [extra [Heq Hlen]].
      exists (best :: extra). rewrite Heq, <- app_assoc. split; [reflexivity|simpl; lia].
Qed.

Lemma insert_by_cost_perm (x : PathResult A) l : Permutation (insert_by_cost x l) (x :: l).
Proof.
  induction l as [|y l IH]; simpl; [reflexivity|].
  destruct (nltb num0 (nsub (cost y) (cost x))); [reflexivity|].
  rewrite IH. apply perm_swap.
Qed.

Lemma sort_by_cost_perm (l : list (PathResult A)) : Permutation (sort_by_cost l) l.
Proof.
  unfold sort_by_cost.
  assert (Hgen : forall acc, Permutation (fold_left (fun acc x => insert_by_cost x acc) l acc)
                                         (acc ++ l)).
  { induction l as [|y l IH]; simpl; intros acc; [now rewrite app_nil_r|].
    rewrite IH, insert_by_cost_perm. simpl. apply Permutation_middle. }
  apply Hgen.
Qed.

Lemma NoDup_snoc {T : Type} (l : list T) x : NoDup l -> ~ In x l -> NoDup (l ++ [x]).
Proof.
  intros Hl Hx. apply NoDup_app; [exact Hl|repeat constructor; intros []|].
  intros a Ha [<-|[]]. contradiction.
Qed.

Lemma existsb_key_false (l : list (PathResult A)) key :
  existsb (fun p => String.eqb (path_key p) key) l = false -> ~ In key (map path_key l).
Proof.
  intros He Hin. apply in_map_iff in Hin. destruct Hin as [p [Hk Hp]].
  assert (existsb (fun p => String.eqb (path_key p) key) l = true)
    by (apply existsb_exists; exists p; split; [exact Hp|apply String.eqb_eq; exact Hk]).
  congruence.
Qed.

Lemma spur_step_nodup paths lastPath pot j :
  NoDup (map path_key (paths ++ pot)) ->
  NoDup (map path_key (paths ++ spur_step graph t paths lastPath pot j)).
Proof.
  intros Hnd. unfold spur_step.
  destruct (dijkstra graph _ _ _ _) as [sp|]; [|exact Hnd].
  match goal with |- context [if ?c then _ else _] => destruct c eqn:Hdup end; [exact Hnd|].
  apply orb_false_iff in Hdup. destruct Hdup as [H1 H2].
  apply existsb_key_false in H1. apply existsb_key_false in H2.
  rewrite app_assoc, map_app. apply NoDup_snoc; [exact Hnd|].
  rewrite map_app. intros Hin. apply in_app_or in Hin. destruct Hin; contradiction.
Qed.

Lemma yen_loop_nodup n : forall paths pot,
  NoDup (map path_key (paths ++ pot)) -> NoDup (map path_key (yen_loop graph t n paths pot)).
Proof.
  induction n as [|n IH]; intros paths pot Hnd; cbn [yen_loop].
  - rewrite map_app in Hnd. apply NoDup_app_remove_r in Hnd. exact Hnd.
  - set (lastPath := last paths {| path := []; cost := num0; edges := [] |}).
    set (pot' := fold_left (spur_step graph t paths lastPath)
                   (seq 0 (pred (length (path lastPath)))) pot).
    assert (Hpot' : NoDup (map path_key (paths ++ pot'))).
    { unfold pot'. clear pot'. generalize (seq 0 (pred (length (path lastPath)))) as js.
      intros js. revert pot Hnd. induction js as [|j js IHj]; simpl; intros pot Hnd; [exact Hnd|].
      apply IHj. apply spur_step_nodup. exact Hnd. }
    destruct (sort_by_cost pot') as [|best rest] eqn:Es.
    + rewrite map_app in Hpot'. apply NoDup_app_remove_r in Hpot'. exact Hpot'.
    + apply IH. rewrite <- app_assoc. cbn [app].
      apply (Permutation_NoDup (l := map path_key (paths ++ pot'))); [|exact Hpot'].
      apply Permutation_map. apply Permutation_app_head.
      rewrite <- Es. symmetry. apply sort_by_cost_perm.
Qed.

End YenFacts.


(** X2: findKShortestPaths returns no path exactly when dijkstra finds no
    route; otherwise dijkstra's route comes first, followed by at most k - 1
    further paths. *)
Theorem findKShortestPaths_shape {A : Type} `{Number A} (graph : Graph A) s t (k : Z) :
  match dijkstra graph s t [] [] with
  | None => findKShortestPaths graph s t k = []
  | Some p0 => exists rest, findKShortestPaths graph s t k = p0 :: rest /\
                            (length rest <= Z.to_nat (k - 1))%nat
  end.
Proof.
  unfold findKShortestPaths. destruct (dijkstra graph s t [] []) as [p0|]; [|reflexivity].
  destruct (yen_loop_extends graph t (Z.to_nat (k - 1)) [p0] []) as [extra [Heq Hlen]].
  rewrite Heq. exists extra. split; [reflexivity|exact Hlen].
Qed.

(** X3: the paths findKShortestPaths returns are pairwise distinct: no two
    have the same node sequence. *)
Theorem findKShortestPaths_distinct {A : Type} `{Number A} (graph : Graph A) s t (k : Z) :
  NoDup (map path_key (findKShortestPaths graph s t k)).
Proof.
  unfold findKShortestPaths. destruct (dijkstra graph s t [] []) as [p0|]; [|constructor].
  apply yen_loop_nodup. simpl. repeat constructor. intros [].
Qed.

Section ListFacts.
Context {T : Type}.

Lemma last_app_cons (l r : list T) x d : last (l ++ x :: r) d = last (x :: r) d.
Proof.
  induction l as [|y l IH]; [reflexivity|].
  rewrite <- app_comm_cons. simpl. rewrite IH. destruct l; reflexivity.
Qed.

Lemma last_default (l : list T) d1 d2 : l <> [] -> last l d1 = last l d2.
Proof.
  induction l as [|x l IH]; [congruence|]. intros _.
  destruct l as [|y l]; [reflexivity|]. simpl. apply IH. discriminate.
Qed.

Lemma In_last (l : list T) d : l <> [] -> In (last l d) l.
Proof.
  intros Hl. destruct (exists_last Hl) as [l' [x ->]]. rewrite last_last.
  apply in_or_app. right. now left.
Qed.

Lemma firstn_S_nth (l : list T) j d :
  (j < length l)%nat -> firstn (S j) l = (firstn j l ++ [nth j l d])%list.
Proof.
  revert l. induction j as [|j IH]; intros [|x l] Hj; simpl in *; try lia; [reflexivity|].
  f_equal. apply IH. lia.
Qed.

End ListFacts.

Lemma drop_last_snoc l x : drop_last (l ++ [x])%list = l.
Proof.
  unfold drop_last. rewrite length_app. simpl.
  replace (pred (length l + 1)) with (length l) by lia.
  rewrite firstn_app, firstn_all, Nat.sub_diag. simpl. apply app_nil_r.
Qed.

Section PathEdgesFacts.
Context {A : Type} `{Number A}.

Lemma getPathEdges_length_le (g : Graph A) p :
  (length (getPathEdges g p) <= pred (length p))%nat.
Proof.
  induction p as [|a p IH]; [simpl; lia|].
  destruct p as [|b p]; [simpl; lia|].
  rewrite getPathEdges_cons2, length_app. unfold edge_ids.
  destruct (graph_edge g a b); simpl in *; lia.
Qed.

Lemma In_getPathEdges (g : Graph A) p e :
  In e (getPathEdges g p) -> exists x y nb, graph_edge g x y = Some nb /\ e = edgeId nb.
Proof.
  induction p as [|a p IH]; [intros []|].
  destruct p as [|b p]; [intros []|].
  rewrite getPathEdges_cons2. intros Hin. apply in_app_or in Hin.
  destruct Hin as [Hin|Hin]; [|exact (IH Hin)].
  unfold edge_ids in Hin. destruct (graph_edge g a b) as [nb|] eqn:E; [|destruct Hin].
  destruct Hin as [<-|[]]. exists a, b, nb. split; [exact E|reflexivity].
Qed.

Lemma graph_wf_edge ids (g : Graph A) x y nb :
  graph_wf ids g -> graph_edge g x y = Some nb -> In (edgeId nb) ids.
Proof.
  intros Hg He. unfold graph_edge in He.
  destruct (map_get g x) as [n|] eqn:Ex; [|discriminate].
  exact (proj2 (Hg _ _ Ex) y nb (map_get_In _ _ _ He)).
Qed.

End PathEdgesFacts.

Section YenRoutes.
Local Open Scope R_scope.
Variables (graph : Graph R) (ids : list string) (s t : string).
Hypothesis graph_ok : graph_wf ids graph.
Hypothesis ids_ok : forall i, In i ids -> i <> "".

Lemma filter_ids (p : list string) :
  filter nonempty_id (getPathEdges graph p) = getPathEdges graph p.
Proof.
  apply forallb_filter_id. apply forallb_forall. intros e He.
  destruct (In_getPathEdges graph p e He) as [x [y [nb [Hg ->]]]].
  unfold nonempty_id. apply negb_true_iff. apply String.eqb_neq.
  exact (ids_ok _ (graph_wf_edge ids graph x y nb graph_ok Hg)).
Qed.

Definition route_ok (p : PathResult R) : Prop :=
  hd_error (path p) = Some s /\ last (path p) s = t /\
  length (getPathEdges graph (path p)) = pred (length (path p)) /\
  edges p = getPathEdges graph (path p).

Lemma spur_step_routes paths lastPath pot j :
  route_ok lastPath -> (j < pred (length (path lastPath)))%nat ->
  (forall p, In p pot -> route_ok p) ->
  forall p, In p (spur_step graph t paths lastPath pot j) -> route_ok p.
Proof.
  intros [Lh [Ll [Llen Le]]] Hj Hpot. unfold spur_step.
  set (lp := path lastPath) in *.
  set (sn := nth j lp "").
  destruct (dijkstra graph sn t _ _) as [sp|] eqn:Hd; [|exact Hpot].
  destruct (dijkstra_paths_wf graph ids sn t _ _ sp graph_ok Hd) as [Sh [Sl [Slen [_ Se]]]].
  rewrite filter_ids in Se.
  destruct (path sp) as [|sn' rest] eqn:Ep; [discriminate|].
  simpl in Sh. injection Sh as ->.
  assert (Hroot : firstn (S j) lp = (firstn j lp ++ [sn])%list) by (apply firstn_S_nth; lia).
  rewrite Hroot, drop_last_snoc.
  assert (Htp : route_ok {| path := (firstn j lp ++ sn :: rest)%list;
                            cost := nadd (calculatePathCost graph (firstn j lp)) (cost sp);
                            edges := (getPathEdges graph (firstn j lp ++ [sn]) ++ edges sp)%list |}).
  { unfold route_ok; cbn [path edges].
    assert (Hsplit : lp = (firstn j lp ++ sn :: skipn (S j) lp)%list).
    { rewrite <- (firstn_skipn (S j) lp) at 1. rewrite Hroot, <- app_assoc. reflexivity. }
    assert (Hlenj : length (firstn j lp) = j) by (rewrite length_firstn; lia).
    split; [|split; [|split]].
    - destruct j as [|j'].
      + simpl. unfold sn. destruct lp as [|x l]; [discriminate|]. simpl in Lh |- *. exact Lh.
      + destruct lp as [|x l]; [discriminate|]. simpl in Lh |- *. exact Lh.
    - rewrite last_app_cons. rewrite (last_default _ s sn) by discriminate. exact Sl.
    - rewrite (getPathEdges_app graph (firstn j lp) sn rest), length_app.
      assert (Hge : length (getPathEdges graph (firstn j lp ++ [sn])) = j).
      { rewrite Hsplit in Llen. rewrite getPathEdges_app, !length_app in Llen. simpl in Llen.
        pose proof (getPathEdges_length_le graph (firstn j lp ++ [sn])%list) as L1.
        pose proof (getPathEdges_length_le graph (sn :: skipn (S j) lp)) as L2.
        rewrite length_app, Hlenj in L1. simpl in L1, L2. rewrite Hlenj in Llen. lia. }
      rewrite Hge, length_app, Hlenj. simpl in Slen |- *. lia.
    - rewrite Se, (getPathEdges_app graph (firstn j lp) sn rest). reflexivity. }
  match goal with |- context [if ?c then _ else _] => destruct c end; [exact Hpot|].
  intros p Hp. apply in_app_or in Hp. destruct Hp as [Hp|[<-|[]]]; [exact (Hpot p Hp)|exact Htp].
Qed.

Lemma yen_loop_routes n : forall paths pot,
  paths <> [] -> (forall p, In p paths -> route_ok p) -> (forall p, In p pot -> route_ok p) ->
  forall p, In p (yen_loop graph t n paths pot) -> route_ok p.
Proof.
  induction n as [|n IH]; intros paths pot Hne Hpaths Hpot; cbn [yen_loop]; [exact Hpaths|].
  set (lastPath := last paths {| path := []; cost := num0; edges := [] |}).
  assert (Hlast : route_ok lastPath) by (apply Hpaths; apply In_last; exact Hne).
  set (pot' := fold_left (spur_step graph t paths lastPath)
                 (seq 0 (pred (length (path lastPath)))) pot).
  assert (Hpot' : forall p, In p pot' -> route_ok p).
  { unfold pot'. clear pot'.
    assert (Hjs : forall j, In j (seq 0 (pred (length (path lastPath)))) ->
                  (j < pred (length (path lastPath)))%nat)
      by (intros j Hj; apply in_seq in Hj; lia).
    revert pot Hpot Hjs. generalize (seq 0 (pred (length (path lastPath)))) as js.
    induction js as [|j js IHj]; simpl; intros pot Hpot Hjs; [exact Hpot|].
    apply IHj; [|intros j' Hj'; apply Hjs; now right].
    apply spur_step_routes; [exact Hlast|apply Hjs; now left|exact Hpot]. }
  destruct (sort_by_cost pot') as [|best rest] eqn:Es; [exact Hpaths|].
  assert (Hin : forall p, In p (best :: rest) -> route_ok p).
  { intros p Hp. apply Hpot'. rewrite <- Es in Hp.
    exact (Permutation_in _ (sort_by_cost_perm pot') Hp). }
  apply IH.
  - intros E. destruct paths; discriminate.
  - intros p Hp. apply in_app_or in Hp. destruct Hp as [Hp|[<-|[]]]; [exact (Hpaths p Hp)|].
    apply Hin. now left.
  - intros p Hp. apply Hin. now right.
Qed.

Lemma findKShortestPaths_routes_wf k :
  forall p, In p (findKShortestPaths graph s t k) -> route_ok p.
Proof.
  unfold findKShortestPaths. destruct (dijkstra graph s t [] []) as [p0|] eqn:Hd; [|intros p []].
  destruct (dijkstra_paths_wf graph ids s t [] [] p0 graph_ok Hd) as [Ph [Pl [Plen [_ Pe]]]].
  apply yen_loop_routes; [discriminate| |intros p []].
  intros p [<-|[]]. unfold route_ok. rewrite Pe, filter_ids. auto.
Qed.

End YenRoutes.

(** X4: on a graph built by buildGraph from connections with non-empty ids,
    every path findKShortestPaths returns runs from the source to the target,
    and its edge list is the list of edges getPathEdges gives for its node
    sequence, one per step. *)
Theorem findKShortestPaths_routes (waypoints : list (WaypointData R)) (es : list (EdgeData R))
    (s t : string) (k : Z) :
  (forall e, In e es -> e_id e <> "") ->
  let graph := buildGraph waypoints es in
  forall p, In p (findKShortestPaths graph s t k) ->
  hd_error (path p) = Some s /\ last (path p) s = t /\
  length (edges p) = pred (length (path p)) /\
  edges p = getPathEdges graph (path p).
Proof.
  intros Hids graph p Hp.
  destruct (findKShortestPaths_routes_wf graph (map e_id es) s t
              (buildGraph_wf _ waypoints es (incl_refl _)) ltac:(intros i Hi; apply in_map_iff in Hi;
                 destruct Hi as [e [<- He]]; exact (Hids e He)) k p Hp) as [H1 [H2 [H3 H4]]].
  split; [exact H1|split; [exact H2|split; [rewrite H4; exact H3|exact H4]]].
Qed.

(** X5: pathStartsWith(path, prefix) holds exactly when path is prefix
    followed by some further nodes; in particular every path starts with the
    empty prefix. *)
Theorem pathStartsWith_iff (p prefix : list string) :
  pathStartsWith p prefix = true <-> exists suffix, p = (prefix ++ suffix)%list.
Proof.
  revert p. induction prefix as [|x pre IH]; intros p; simpl.
  - split; [intros _; exists p; reflexivity|intros _; destruct p; reflexivity].
  - destruct p as [|y p]; split.
    + discriminate.
    + intros [suf E]; discriminate.
    + intros Hb. apply andb_true_iff in Hb as [Hxy Hp].
      apply String.eqb_eq in Hxy as ->. apply IH in Hp as [suf ->]. exists suf; reflexivity.
    + intros [suf E]. injection E as -> E. cbn [pathStartsWith]. rewrite String.eqb_refl. simpl.
      apply IH. exists suf; exact E.
Qed.

(** X6: splitting a path at any node splits getPathEdges and
    calculatePathCost: the edges and the cost of the whole path are those of
    the part up to that node plus those of the part from it. *)
Theorem path_split_additive (g : Graph R) (p q : list string) (x : string) :
  getPathEdges g (p ++ x :: q) = (getPathEdges g (p ++ [x]) ++ getPathEdges g (x :: q))%list /\
  calculatePathCost g (p ++ x :: q) =
    (calculatePathCost g (p ++ [x]) + calculatePathCost g (x :: q))%R.
Proof. split; [apply getPathEdges_app|apply calculatePathCost_app]. Qed.


Section TerrainFacts.
Import Terrain.
Local Open Scope R_scope.


(** X7: after setTerrainAt(T, x, y, v), getTerrainAt returns v at (x, y) when
    (x, y) lies inside the grid and the old value everywhere else; out of
    bounds setTerrainAt changes nothing. *)
Theorem setTerrainAt_getTerrainAt (T : TerrainLayer) (x y : Z) (v : option string) (x' y' : Z) :
  getTerrainAt (setTerrainAt T x y v) x' y' =
  if (0 <=? x)%Z && (x <? gridWidth T)%Z && (0 <=? y)%Z && (y <? gridHeight T)%Z
     && (x' =? x)%Z && (y' =? y)%Z
  then v else getTerrainAt T x' y'.
Proof.
  unfold setTerrainAt.
  destruct ((x <? 0)%Z || (gridWidth T <=? x)%Z || (y <? 0)%Z || (gridHeight T <=? y)%Z) eqn:Eout.
  - assert (Hf : ((0 <=? x)%Z && (x <? gridWidth T)%Z && (0 <=? y)%Z && (y <? gridHeight T)%Z) = false).
    { rewrite !orb_true_iff, !Z.ltb_lt, !Z.leb_le in Eout.
      apply not_true_iff_false. rewrite !andb_true_iff, !Z.ltb_lt, !Z.leb_le. lia. }
    rewrite Hf. reflexivity.
  - rewrite !orb_false_iff, !Z.ltb_ge, !Z.leb_gt in Eout.
    assert (Ht : ((0 <=? x)%Z && (x <? gridWidth T)%Z && (0 <=? y)%Z && (y <? gridHeight T)%Z) = true).
    { rewrite !andb_true_iff, !Z.ltb_lt, !Z.leb_le. lia. }
    rewrite Ht. simpl andb. unfold getTerrainAt. cbn [gridWidth gridHeight grid].
    destruct ((x' <? 0)%Z || (gridWidth T <=? x')%Z || (y' <? 0)%Z || (gridHeight T <=? y')%Z) eqn:E'.
    + destruct ((x' =? x)%Z && (y' =? y)%Z) eqn:Exy; [|reflexivity].
      apply andb_true_iff in Exy as [E1 E2]. apply Z.eqb_eq in E1, E2. subst.
      rewrite !orb_true_iff, !Z.ltb_lt, !Z.leb_le in E'. lia.
    + rewrite !orb_false_iff, !Z.ltb_ge, !Z.leb_gt in E'.
      change (cell_value (nth_error (js_array_set (grid T) (Z.to_nat (y * gridWidth T + x)) v)
                (Z.to_nat (y' * gridWidth T + x'))) =
              if (x' =? x)%Z && (y' =? y)%Z then v
              else cell_value (nth_error (grid T) (Z.to_nat (y' * gridWidth T + x')))).
      rewrite js_array_set_get.
      destruct ((x' =? x)%Z && (y' =? y)%Z) eqn:Exy.
      * apply andb_true_iff in Exy as [E1 E2]. apply Z.eqb_eq in E1, E2. subst.
        rewrite Nat.eqb_refl. reflexivity.
      * assert (Nat.eqb (Z.to_nat (y' * gridWidth T + x')) (Z.to_nat (y * gridWidth T + x)) = false)
          as ->; [|reflexivity].
        apply Nat.eqb_neq. intros Heq. apply Z2Nat.inj in Heq; [|nia|nia].
        assert (Hc : x' = x /\ y' = y) by (apply (cell_index_inj (gridWidth T)); lia).
        destruct Hc as [-> ->]. rewrite !Z.eqb_refl in Exy. discriminate.
Qed.

Lemma Math_floor_spec (x : R) (z : Z) : IZR z <= x < IZR z + 1 -> Math_floor x = z.
Proof.
  intros [H1 H2]. unfold Math_floor.
  rewrite <- (tech_up x (z + 1)); [lia| |]; rewrite plus_IZR; lra.
Qed.

Lemma Math_floor_bounds (x : R) : IZR (Math_floor x) <= x < IZR (Math_floor x) + 1.
Proof.
  unfold Math_floor. destruct (archimed x) as [h1 h2]. rewrite minus_IZR. lra.
Qed.

Lemma Math_round_le (x : R) (n : Z) : x <= IZR n -> (Math_round x <= n)%Z.
Proof.
  intros Hx. unfold Math_round.
  destruct (Math_floor_bounds (x + / 2)) as [h1 h2].
  assert (Hlt : IZR (Math_floor (x + / 2)) < IZR (n + 1)) by (rewrite plus_IZR; lra).
  apply lt_IZR in Hlt. lia.
Qed.

Lemma getTerrainAt_unpainted (T : TerrainLayer) x y :
  Forall (fun c => c = None) (grid T) -> getTerrainAt T x y = None.
Proof.
  intros Hall. unfold getTerrainAt.
  destruct (_ || _); [reflexivity|].
  destruct (nth_error (grid T) _) as [c|] eqn:E; [|reflexivity].
  apply nth_error_In in E. exact (proj1 (Forall_forall _ _) Hall c E).
Qed.

Lemma createTerrainLayer_spec (imageWidth imageHeight : R) (gridSize : Z) :
  0 < imageWidth -> 0 < imageHeight -> (1 <= gridSize)%Z -> (gridSize * gridSize < 2 ^ 32)%Z ->
  exists L, createTerrainLayer imageWidth imageHeight gridSize = Some L /\
    (1 <= gridWidth L <= gridSize)%Z /\ (1 <= gridHeight L <= gridSize)%Z /\
    (if Rle_dec imageHeight imageWidth then gridWidth L = gridSize else gridHeight L = gridSize) /\
    List.length (grid L) = Z.to_nat (gridWidth L * gridHeight L) /\
    (forall x y, getTerrainAt L x y = None) /\
    types L = DEFAULT_TERRAIN_TYPES.
Proof.
  intros HW HH Hg Hmax. unfold createTerrainLayer, grid_dims.
  destruct (Req_EM_T imageHeight 0) as [E|_]; [lra|].
  assert (Hgs : 1 <= IZR gridSize) by (apply IZR_le; exact Hg).
  assert (Hdims : exists gw gh,
            (if Rle_dec 1 (imageWidth / imageHeight)
             then Some (gridSize, Z.max 1 (Math_round (IZR gridSize / (imageWidth / imageHeight))))
             else Some (Z.max 1 (Math_round (IZR gridSize * (imageWidth / imageHeight))), gridSize))
            = Some (gw, gh) /\ (1 <= gw <= gridSize)%Z /\ (1 <= gh <= gridSize)%Z /\
            (if Rle_dec imageHeight imageWidth then gw = gridSize else gh = gridSize)).
  { destruct (Rle_dec 1 (imageWidth / imageHeight)) as [Ha|Ha].
    - eexists _, _. split; [reflexivity|]. split; [lia|]. split.
      + split; [lia|]. apply Z.max_lub; [exact Hg|]. apply Math_round_le.
        apply (Rmult_le_reg_r (imageWidth / imageHeight)); [lra|].
        unfold Rdiv at 1. rewrite Rmult_assoc, Rinv_l by lra. nra.
      + destruct (Rle_dec imageHeight imageWidth) as [_|Hn]; [reflexivity|].
        exfalso. apply Hn. apply Rmult_le_reg_r with (/ imageHeight); [apply Rinv_0_lt_compat; lra|].
        rewrite Rinv_r by lra. exact Ha.
    - eexists _, _. split; [reflexivity|]. split; [|split; [lia|]].
      + split; [lia|]. apply Z.max_lub; [exact Hg|]. apply Math_round_le.
        assert (0 <= imageWidth / imageHeight) by (unfold Rdiv; apply Rmult_le_pos; [lra|left; apply Rinv_0_lt_compat; lra]). nra.
      + destruct (Rle_dec imageHeight imageWidth) as [Hle|_]; [|reflexivity].
        exfalso. apply Ha. apply Rmult_le_reg_r with imageHeight; [lra|].
        unfold Rdiv. rewrite Rmult_assoc, Rinv_l by lra. lra. }
  destruct Hdims as [gw [gh [-> [Hw [Hh Hside]]]]].
  unfold new_null_array.
  assert (Hb : ((0 <=? gw * gh)%Z && (gw * gh <? 2 ^ 32)%Z) = true).
  { apply andb_true_iff. split; [apply Z.leb_le; nia|apply Z.ltb_lt; nia]. }
  rewrite Hb. eexists. split; [reflexivity|]. cbn [gridWidth gridHeight grid types].
  split; [exact Hw|]. split; [exact Hh|]. split; [exact Hside|]. split; [apply repeat_length|].
  split; [|reflexivity].
  intros x y. apply getTerrainAt_unpainted. cbn [grid].
  apply Forall_forall. intros c Hc. apply repeat_spec in Hc. exact Hc.
Qed.

(** X8: for a positive image size and a grid size between 1 and 2^16,
    createTerrainLayer succeeds; its grid is at least 1 and at most gridSize
    cells each way, the longer image side gets exactly gridSize cells, the
    grid has width * height cells, every cell is unpainted, and the types are
    the default ones. *)
Theorem createTerrainLayer_shape (imageWidth imageHeight : R) (gridSize : Z) :
  0 < imageWidth -> 0 < imageHeight -> (1 <= gridSize)%Z -> (gridSize * gridSize < 2 ^ 32)%Z ->
  exists L, createTerrainLayer imageWidth imageHeight gridSize = Some L /\
    (1 <= gridWidth L <= gridSize)%Z /\ (1 <= gridHeight L <= gridSize)%Z /\
    (if Rle_dec imageHeight imageWidth then gridWidth L = gridSize else gridHeight L = gridSize) /\
    List.length (grid L) = Z.to_nat (gridWidth L * gridHeight L) /\
    (forall x y, getTerrainAt L x y = None) /\
    types L = DEFAULT_TERRAIN_TYPES.
Proof. apply createTerrainLayer_spec. Qed.

(** X9: for a positive image size and a grid of at least one cell each way,
    imageToGrid always returns a cell inside the grid, and imageToGrid maps
    the image point gridToImage gives for a cell back to that cell. *)
Theorem imageToGrid_cells (T : TerrainLayer) (imageWidth imageHeight : R) :
  0 < imageWidth -> 0 < imageHeight -> (1 <= gridWidth T)%Z -> (1 <= gridHeight T)%Z ->
  (forall imageX imageY,
     let '(cx, cy) := imageToGrid imageX imageY imageWidth imageHeight T in
     (0 <= cx < gridWidth T)%Z /\ (0 <= cy < gridHeight T)%Z) /\
  (forall cellX cellY, (0 <= cellX < gridWidth T)%Z -> (0 <= cellY < gridHeight T)%Z ->
     let '(imageX, imageY) := gridToImage cellX cellY imageWidth imageHeight T in
     imageToGrid imageX imageY imageWidth imageHeight T = (cellX, cellY)).
Proof.
  intros HW HH Hgw Hgh. split.
  - intros ix iy. unfold imageToGrid. split; lia.
  - intros cx cy Hx Hy. unfold gridToImage, imageToGrid.
    assert (Gw : 0 < IZR (gridWidth T)) by (apply IZR_lt; lia).
    assert (Gh : 0 < IZR (gridHeight T)) by (apply IZR_lt; lia).
    replace ((IZR cx + 1 / 2) / IZR (gridWidth T) * imageWidth / imageWidth * IZR (gridWidth T))
      with (IZR cx + 1 / 2) by (field; lra).
    replace ((IZR cy + 1 / 2) / IZR (gridHeight T) * imageHeight / imageHeight * IZR (gridHeight T))
      with (IZR cy + 1 / 2) by (field; lra).
    rewrite (Math_floor_spec _ cx) by lra. rewrite (Math_floor_spec _ cy) by lra.
    f_equal; lia.
Qed.

(** The length of the polyline through [points]. *)
Fixpoint segments_length (points : list (Point R)) : R :=
  match points with
  | p1 :: ((p2 :: _) as rest) =>
      sqrt ((px p2 - px p1) * (px p2 - px p1) + (py p2 - py p1) * (py p2 - py p1))
      + segments_length rest
  | _ => 0
  end.

Lemma segments_length_cons2 a b r :
  segments_length (a :: b :: r) =
  sqrt ((px b - px a) * (px b - px a) + (py b - py a) * (py b - py a)) + segments_length (b :: r).
Proof. reflexivity. Qed.

Lemma segments_length_nonneg points : 0 <= segments_length points.
Proof.
  induction points as [|p1 rest IH]; simpl; [lra|].
  destruct rest as [|p2 r]; [lra|]. pose proof (sqrt_pos ((px p2 - px p1) * (px p2 - px p1) + (py p2 - py p1) * (py p2 - py p1))). lra.
Qed.

Lemma getTerrainCostAt_cases (T : TerrainLayer) ix iy W H :
  getTerrainCostAt T ix iy W H = 1 \/
  exists ty, In ty (types T) /\ getTerrainCostAt T ix iy W H = tt_cost ty.
Proof.
  unfold getTerrainCostAt. destruct (imageToGrid ix iy W H T) as [cx cy].
  destruct (getTerrainAt T cx cy) as [typeId|]; [|left; reflexivity].
  destruct (String.eqb typeId ""); [left; reflexivity|].
  unfold getTerrainType. destruct (find _ (types T)) as [ty|] eqn:E; [|left; reflexivity].
  right. exists ty. split; [exact (proj1 (find_some _ _ E))|reflexivity].
Qed.

Lemma path_cost_loop_bounds (T : TerrainLayer) W H (m M : R) points :
  (forall ty, In ty (types T) -> m <= tt_cost ty <= M) -> m <= 1 <= M ->
  m * segments_length points <= path_cost_loop T W H points <= M * segments_length points.
Proof.
  intros Hty H1. induction points as [|p1 rest IH]; simpl; [lra|].
  destruct rest as [|p2 r]; [lra|].
  set (d := sqrt ((px p2 - px p1) * (px p2 - px p1) + (py p2 - py p1) * (py p2 - py p1))).
  assert (Hd : 0 <= d) by apply sqrt_pos.
  set (c := getTerrainCostAt T _ _ W H).
  assert (Hc : m <= c <= M).
  { unfold c. destruct (getTerrainCostAt_cases T ((px p1 + px p2) / 2) ((py p1 + py p2) / 2) W H)
      as [->|[ty [Hin ->]]]; [lra|exact (Hty ty Hin)]. }
  fold (segments_length (p2 :: r)). fold (path_cost_loop T W H (p2 :: r)).
  split; nra.
Qed.

(** X10: when every terrain type cost lies in [m, M] and m <= 1 <= M (1 is the
    cost of an unpainted cell), calculatePathTerrainCost of a polyline lies
    between m and M times its length divided by 100. *)
Theorem calculatePathTerrainCost_bounds (T : TerrainLayer) (points : list (Point R))
    (imageWidth imageHeight m M : R) :
  (forall ty, In ty (types T) -> m <= tt_cost ty <= M) -> m <= 1 <= M ->
  m * (segments_length points / 100)
    <= calculatePathTerrainCost T points imageWidth imageHeight
    <= M * (segments_length points / 100).
Proof.
  intros Hty H1. unfold calculatePathTerrainCost.
  destruct (Nat.ltb (List.length points) 2) eqn:E.
  - apply Nat.ltb_lt in E.
    destruct points as [|p [|q r]]; simpl in E |- *; try lia; lra.
  - destruct (path_cost_loop_bounds T imageWidth imageHeight m M points Hty H1). split; lra.
Qed.

Definition line_point (x1 y1 x2 y2 : R) (n i : nat) : Point R :=
  {| px := x1 + (x2 - x1) * (INR i / INR n); py := y1 + (y2 - y1) * (INR i / INR n) |}.

Lemma segments_length_line x1 y1 x2 y2 n : (n <> 0)%nat -> forall m k,
  segments_length (map (line_point x1 y1 x2 y2 n) (seq k (S m))) =
  INR m * (sqrt ((x2 - x1) * (x2 - x1) + (y2 - y1) * (y2 - y1)) / INR n).
Proof.
  intros Hn. assert (Hn' : 0 < INR n) by (apply lt_0_INR; lia).
  induction m as [|m IH]; intros k; [simpl; ring|].
  change (seq k (S (S m))) with (k :: seq (S k) (S m)).
  change (map (line_point x1 y1 x2 y2 n) (k :: seq (S k) (S m)))
    with (line_point x1 y1 x2 y2 n k :: line_point x1 y1 x2 y2 n (S k)
            :: map (line_point x1 y1 x2 y2 n) (seq (S (S k)) m)).
  rewrite segments_length_cons2.
  change (line_point x1 y1 x2 y2 n (S k) :: map (line_point x1 y1 x2 y2 n) (seq (S (S k)) m))
    with (map (line_point x1 y1 x2 y2 n) (seq (S k) (S m))).
  rewrite IH. unfold line_point; cbn [px py].
  set (D := (x2 - x1) * (x2 - x1) + (y2 - y1) * (y2 - y1)).
  replace ((x1 + (x2 - x1) * (INR (S k) / INR n) - (x1 + (x2 - x1) * (INR k / INR n))) *
           (x1 + (x2 - x1) * (INR (S k) / INR n) - (x1 + (x2 - x1) * (INR k / INR n))) +
           (y1 + (y2 - y1) * (INR (S k) / INR n) - (y1 + (y2 - y1) * (INR k / INR n))) *
           (y1 + (y2 - y1) * (INR (S k) / INR n) - (y1 + (y2 - y1) * (INR k / INR n))))
    with (D * (/ INR n * / INR n)) by (unfold D; rewrite S_INR; field; lra).
  assert (HD : 0 <= D) by (unfold D; apply Rplus_le_le_0_compat; apply Rle_0_sqr).
  assert (Hi : 0 <= / INR n) by (left; apply Rinv_0_lt_compat; lra).
  rewrite sqrt_mult by (try exact HD; apply Rmult_le_pos; exact Hi). rewrite sqrt_square by exact Hi.
  rewrite S_INR. field. lra.
Qed.

(** X11: sampleLine with n > 0 samples returns n + 1 points, starting at the
    first endpoint and ending at the second, and the polyline through them is
    exactly as long as the straight segment. *)
Theorem sampleLine_shape (x1 y1 x2 y2 : R) (numSamples : nat) :
  (numSamples <> 0)%nat ->
  let pts := sampleLine x1 y1 x2 y2 numSamples in
  List.length pts = S numSamples /\
  hd_error pts = Some {| px := x1; py := y1 |} /\
  last pts {| px := 0; py := 0 |} = {| px := x2; py := y2 |} /\
  segments_length pts = sqrt ((x2 - x1) * (x2 - x1) + (y2 - y1) * (y2 - y1)).
Proof.
  intros Hn pts. assert (Hn' : 0 < INR numSamples) by (apply lt_0_INR; lia).
  assert (Hpts : pts = map (line_point x1 y1 x2 y2 numSamples) (seq 0 (S numSamples))) by reflexivity.
  rewrite Hpts. split; [|split; [|split]].
  - rewrite length_map, length_seq. reflexivity.
  - simpl. unfold line_point. f_equal. f_equal; rewrite Rdiv_0_l; ring.
  - rewrite (seq_S numSamples 0), map_app. cbn [map Nat.add]. rewrite last_last. unfold line_point.
    f_equal; field_simplify; [reflexivity|lra|reflexivity|lra].
  - rewrite segments_length_line by exact Hn. field. lra.
Qed.

End TerrainFacts.


Section BezierFacts.
Import BezierUtils.
Local Open Scope R_scope.

Ltac num_R := cbn [nmul nadd nsub ndiv nsqrt num_of_Z num1 num0 Number_R px py] in *.

Lemma Point_eta (p : Point R) : p = {| px := px p; py := py p |}.
Proof. destruct p; reflexivity. Qed.

Lemma Point_ext (p q : Point R) : px p = px q -> py p = py q -> p = q.
Proof. destruct p, q; simpl; intros -> ->; reflexivity. Qed.

Lemma cubicBezierPoint_0 (p0 p1 p2 p3 : Point R) : cubicBezierPoint p0 p1 p2 p3 0 = p0.
Proof. apply Point_ext; unfold cubicBezierPoint; num_R; ring. Qed.

Lemma cubicBezierPoint_1 (p0 p1 p2 p3 : Point R) : cubicBezierPoint p0 p1 p2 p3 1 = p3.
Proof. apply Point_ext; unfold cubicBezierPoint; num_R; ring. Qed.

(** X13: sampleBezier of Terrain.js and getBezierPoints of app.js compute the
    same points; for n > 0 they return n + 1 points from the start point to
    the end point. *)
Theorem sampleBezier_getBezierPoints (p0 p1 p2 p3 : Point R) (n : nat) :
  Terrain.sampleBezier p0 p1 p2 p3 n = getBezierPoints p0 p1 p2 p3 n /\
  ((n <> 0)%nat ->
   hd_error (getBezierPoints p0 p1 p2 p3 n) = Some p0 /\
   last (getBezierPoints p0 p1 p2 p3 n) p0 = p3 /\
   List.length (getBezierPoints p0 p1 p2 p3 n) = S n).
Proof.
  split.
  - unfold Terrain.sampleBezier, getBezierPoints. apply map_ext. intros i.
    apply Point_ext; unfold cubicBezierPoint; num_R; ring.
  - intros Hn. assert (Hn' : 0 < INR n) by (apply lt_0_INR; lia).
    unfold getBezierPoints. split; [|split].
    + simpl. rewrite Rdiv_0_l, cubicBezierPoint_0. reflexivity.
    + rewrite (seq_S n 0), map_app. cbn [map Nat.add]. rewrite last_last.
      replace (INR n / INR n) with 1 by (field; lra). apply cubicBezierPoint_1.
    + rewrite length_map, length_seq. reflexivity.
Qed.

Lemma derivable_pt_lim_ext_fun (f g : R -> R) x l :
  (forall y, f y = g y) -> derivable_pt_lim g x l -> derivable_pt_lim f x l.
Proof.
  intros Hfg Hg eps Heps. destruct (Hg eps Heps) as [d Hd]. exists d.
  intros h Hh Hhd. rewrite !Hfg. apply Hd; assumption.
Qed.

Lemma derivable_pt_lim_cubic (a b c d x : R) :
  derivable_pt_lim (fun t => a + b * t + c * t ^ 2 + d * t ^ 3) x
    (b + 2 * c * x + 3 * d * x ^ 2).
Proof.
  pose proof (derivable_pt_lim_const a x) as H1.
  pose proof (derivable_pt_lim_scal id b x 1 (derivable_pt_lim_id x)) as H2.
  pose proof (derivable_pt_lim_scal (fun t => t ^ 2) c x _ (derivable_pt_lim_pow x 2)) as H3.
  pose proof (derivable_pt_lim_scal (fun t => t ^ 3) d x _ (derivable_pt_lim_pow x 3)) as H4.
  pose proof (derivable_pt_lim_plus _ _ x _ _
                (derivable_pt_lim_plus _ _ x _ _ (derivable_pt_lim_plus _ _ x _ _ H1 H2) H3) H4) as Hs.
  replace (b + 2 * c * x + 3 * d * x ^ 2)
    with (0 + b * 1 + c * (INR 2 * x ^ Init.Nat.pred 2) + d * (INR 3 * x ^ Init.Nat.pred 3))
    by (simpl; ring).
  eapply derivable_pt_lim_ext_fun; [|exact Hs].
  intros y. unfold plus_fct, mult_real_fct, fct_cte, id. reflexivity.
Qed.

Lemma bezier_derivative_lim (p0 p1 p2 p3 : Point R) (t : R) :
  derivable_pt_lim (fun s => px (cubicBezierPoint p0 p1 p2 p3 s)) t
    (px (cubicBezierDerivative p0 p1 p2 p3 t)) /\
  derivable_pt_lim (fun s => py (cubicBezierPoint p0 p1 p2 p3 s)) t
    (py (cubicBezierDerivative p0 p1 p2 p3 t)).
Proof.
  split.
  - pose proof (derivable_pt_lim_cubic (px p0) (3 * (px p1 - px p0))
                  (3 * (px p0 - 2 * px p1 + px p2)) (- px p0 + 3 * px p1 - 3 * px p2 + px p3) t) as H.
    eapply derivable_pt_lim_ext_fun.
    + intros s. unfold cubicBezierPoint. num_R.
      instantiate (1 := fun s => px p0 + 3 * (px p1 - px p0) * s + 3 * (px p0 - 2 * px p1 + px p2) * s ^ 2
                                 + (- px p0 + 3 * px p1 - 3 * px p2 + px p3) * s ^ 3).
      simpl. ring.
    + unfold cubicBezierDerivative. cbn [px]. 
      replace (3 * ((1 - t) * (1 - t)) * (px p1 - px p0) + 6 * (1 - t) * t * (px p2 - px p1)
               + 3 * (t * t) * (px p3 - px p2))
        with (3 * (px p1 - px p0) + 2 * (3 * (px p0 - 2 * px p1 + px p2)) * t
              + 3 * (- px p0 + 3 * px p1 - 3 * px p2 + px p3) * t ^ 2) by ring.
      exact H.
  - pose proof (derivable_pt_lim_cubic (py p0) (3 * (py p1 - py p0))
                  (3 * (py p0 - 2 * py p1 + py p2)) (- py p0 + 3 * py p1 - 3 * py p2 + py p3) t) as H.
    eapply derivable_pt_lim_ext_fun.
    + intros s. unfold cubicBezierPoint. num_R.
      instantiate (1 := fun s => py p0 + 3 * (py p1 - py p0) * s + 3 * (py p0 - 2 * py p1 + py p2) * s ^ 2
                                 + (- py p0 + 3 * py p1 - 3 * py p2 + py p3) * s ^ 3).
      simpl. ring.
    + unfold cubicBezierDerivative. cbn [py].
      replace (3 * ((1 - t) * (1 - t)) * (py p1 - py p0) + 6 * (1 - t) * t * (py p2 - py p1)
               + 3 * (t * t) * (py p3 - py p2))
        with (3 * (py p1 - py p0) + 2 * (3 * (py p0 - 2 * py p1 + py p2)) * t
              + 3 * (- py p0 + 3 * py p1 - 3 * py p2 + py p3) * t ^ 2) by ring.
      exact H.
Qed.

(** X14: cubicBezierDerivative is the derivative of cubicBezierPoint with
    respect to the parameter t, in each coordinate. *)
Theorem cubicBezierDerivative_derivative (p0 p1 p2 p3 : Point R) (t : R) :
  derivable_pt_lim (fun s => px (cubicBezierPoint p0 p1 p2 p3 s)) t
    (px (cubicBezierDerivative p0 p1 p2 p3 t)) /\
  derivable_pt_lim (fun s => py (cubicBezierPoint p0 p1 p2 p3 s)) t
    (py (cubicBezierDerivative p0 p1 p2 p3 t)).
Proof. apply bezier_derivative_lim. Qed.

(** X15: splitBezier at t returns two control polygons that share the curve
    point at t; the first traces the original curve on [0, t], the second on
    [t, 1]. *)
Theorem splitBezier_halves (p0 p1 p2 p3 : Point R) (t : R) :
  exists q1 q2 m r1 r2,
    splitBezier p0 p1 p2 p3 t = ([p0; q1; q2; m], [m; r1; r2; p3]) /\
    m = cubicBezierPoint p0 p1 p2 p3 t /\
    forall s, cubicBezierPoint p0 q1 q2 m s = cubicBezierPoint p0 p1 p2 p3 (t * s) /\
              cubicBezierPoint m r1 r2 p3 s = cubicBezierPoint p0 p1 p2 p3 (t + (1 - t) * s).
Proof.
  unfold splitBezier. do 5 eexists. split; [reflexivity|]. split.
  - apply Point_ext; unfold cubicBezierPoint, lerp; num_R; ring.
  - intros s. split; apply Point_ext; unfold cubicBezierPoint, lerp; num_R; ring.
Qed.

Lemma fold_left_ind {S X : Type} (f : S -> X -> S) (P : list X -> S -> Prop) (l : list X) (s : S) :
  P [] s ->
  (forall pre x st, incl (pre ++ [x])%list l -> P pre st -> P (pre ++ [x])%list (f st x)) ->
  P l (fold_left f l s).
Proof.
  intros H0 Hstep.
  enough (Hg : forall l', incl l' l -> P l' (fold_left f l' s)) by (apply Hg, incl_refl).
  induction l' as [|x l' IH] using rev_ind; intros Hincl; [exact H0|].
  rewrite fold_left_app. simpl. apply Hstep; [exact Hincl|].
  apply IH. intros y Hy. apply Hincl. apply in_or_app. left. exact Hy.
Qed.

Lemma Rltb_true x y : Rltb x y = true <-> x < y.
Proof. unfold Rltb. destruct (Rlt_dec x y); split; intros; auto; try discriminate; lra. Qed.

Lemma Rltb_false x y : Rltb x y = false <-> y <= x.
Proof. unfold Rltb. destruct (Rlt_dec x y); split; intros; auto; try discriminate; lra. Qed.

Section Closest.
Variables (p0 p1 p2 p3 point : Point R) (samples : nat).
Hypothesis samples_pos : (samples <> 0)%nat.

Let B := cubicBezierPoint p0 p1 p2 p3.
Let sq (q : Point R) : R := (px q - px point) * (px q - px point) + (py q - py point) * (py q - py point).

Definition coarse_inv (pre : list nat) (st : option R * R * Point R) : Prop :=
  let '(minDist, minT, minPoint) := st in
  minPoint = B minT /\ 0 <= minT <= 1 /\
  match minDist with
  | None => pre = []
  | Some d => d = sq minPoint /\ forall i, In i pre -> d <= sq (B (INR i / INR samples))
  end.

Lemma coarse_loop_inv :
  coarse_inv (seq 0 (S samples))
    (fold_left (coarse_step p0 p1 p2 p3 point samples) (seq 0 (S samples)) (None, 0, p0)).
Proof.
  assert (Hn : 0 < INR samples) by (apply lt_0_INR; lia).
  apply fold_left_ind.
  - simpl. split; [symmetry; apply cubicBezierPoint_0|split; [lra|reflexivity]].
  - intros pre x [[md mt] mp] Hincl [Hmp [Hmt Hmd]].
    assert (Hx : (x <= samples)%nat).
    { assert (Hin : In x (seq 0 (S samples))) by (apply Hincl; apply in_or_app; right; now left).
      apply in_seq in Hin. lia. }
    assert (Ht : 0 <= INR x / INR samples <= 1).
    { split; [apply Rmult_le_pos; [apply pos_INR|left; apply Rinv_0_lt_compat; lra]|].
      apply Rmult_le_reg_r with (INR samples); [lra|]. unfold Rdiv.
      rewrite Rmult_assoc, Rinv_l, Rmult_1_r, Rmult_1_l by lra. apply le_INR. exact Hx. }
    unfold coarse_step.
    set (q := cubicBezierPoint p0 p1 p2 p3 (INR x / INR samples)).
    assert (Hsq : (px q - px point) * (px q - px point) + (py q - py point) * (py q - py point) = sq q)
      by reflexivity.
    rewrite Hsq.
    destruct (below _ md) eqn:Eb.
    + split; [reflexivity|split; [exact Ht|split; [reflexivity|]]].
      intros i Hi. apply in_app_or in Hi. destruct Hi as [Hi|[<-|[]]]; [|right; reflexivity].
      destruct md as [d|]; [|subst pre; destruct Hi].
      destruct Hmd as [-> Hall]. simpl in Eb. apply Rltb_true in Eb.
      specialize (Hall i Hi). lra.
    + destruct md as [d|]; [|discriminate]. simpl in Eb. apply Rltb_false in Eb.
      split; [exact Hmp|split; [exact Hmt|]]. destruct Hmd as [Hd Hall]. split; [exact Hd|].
      intros i Hi. apply in_app_or in Hi. destruct Hi as [Hi|[<-|[]]]; [exact (Hall i Hi)|].
      exact Eb.
Qed.

Definition refine_inv (_ : list nat) (st : option R * R * Point R * R * R) : Prop :=
  let '(minDist, minT, minPoint, low, high) := st in
  minPoint = B minT /\ 0 <= minT <= 1 /\ 0 <= low <= high /\ high <= 1 /\
  exists d, minDist = Some d /\ d = sq minPoint /\
            forall i, (i <= samples)%nat -> d <= sq (B (INR i / INR samples)).

Lemma refine_loop_inv st :
  refine_inv [] st -> refine_inv (seq 0 10) (fold_left (refine_step p0 p1 p2 p3 point) (seq 0 10) st).
Proof.
  intros H0. apply fold_left_ind; [exact H0|].
  intros pre x [[[[md mt] mp] lo] hi] _ [Hmp [Hmt [Hlo [Hhi [d [-> [Hd Hall]]]]]]].
  unfold refine_step.
  set (m1 := lo + (hi - lo) / 3). set (m2 := hi - (hi - lo) / 3).
  assert (Hm1 : lo <= m1 <= hi) by (unfold m1; lra).
  assert (Hm2 : lo <= m2 <= hi) by (unfold m2; lra).
  assert (E1 : forall q, (px q - px point) ^ 2 + (py q - py point) ^ 2 = sq q)
    by (intros q; unfold sq; ring).
  rewrite !E1.
  destruct (Rltb (sq (cubicBezierPoint p0 p1 p2 p3 m1)) (sq (cubicBezierPoint p0 p1 p2 p3 m2))).
  - destruct (below _ (Some d)) eqn:Eb; simpl in Eb.
    + apply Rltb_true in Eb. split; [reflexivity|split; [lra|split; [lra|split; [lra|]]]].
      exists (sq (cubicBezierPoint p0 p1 p2 p3 m1)). split; [reflexivity|split; [reflexivity|]].
      intros i Hi. specialize (Hall i Hi). lra.
    + split; [exact Hmp|split; [exact Hmt|split; [lra|split; [lra|]]]].
      exists d. auto.
  - destruct (below _ (Some d)) eqn:Eb; simpl in Eb.
    + apply Rltb_true in Eb. split; [reflexivity|split; [lra|split; [lra|split; [lra|]]]].
      exists (sq (cubicBezierPoint p0 p1 p2 p3 m2)). split; [reflexivity|split; [reflexivity|]].
      intros i Hi. specialize (Hall i Hi). lra.
    + split; [exact Hmp|split; [exact Hmt|split; [lra|split; [lra|]]]].
      exists d. auto.
Qed.

Lemma closestPointOnBezier_spec :
  let r := closestPointOnBezier p0 p1 p2 p3 point samples in
  0 <= cp_t r <= 1 /\ cp_point r = B (cp_t r) /\
  cp_distance r = Some (sqrt (sq (cp_point r))) /\
  forall i, (i <= samples)%nat -> sq (cp_point r) <= sq (B (INR i / INR samples)).
Proof.
  assert (Hn : 0 < INR samples) by (apply lt_0_INR; lia).
  pose proof coarse_loop_inv as Hc. unfold closestPointOnBezier.
  destruct (fold_left (coarse_step p0 p1 p2 p3 point samples) (seq 0 (S samples)) (None, 0, p0))
    as [[md mt] mp] eqn:Ec.
  destruct Hc as [Hmp [Hmt Hmd]].
  destruct md as [d|]; [|discriminate].
  destruct Hmd as [Hd Hall].
  assert (Hinv : refine_inv [] (Some d, mt, mp, Rmax 0 (mt - 1 / INR samples),
                               Rmin 1 (mt + 1 / INR samples))).
  { assert (0 < 1 / INR samples) by (unfold Rdiv; rewrite Rmult_1_l; apply Rinv_0_lt_compat; lra).
    split; [exact Hmp|split; [exact Hmt|split; [|split]]].
    - split; [apply Rmax_l|]. apply Rmax_lub; [apply Rmin_glb; lra|].
      apply Rmin_glb; lra.
    - apply Rmin_l.
    - exists d. split; [reflexivity|split; [exact Hd|]].
      intros i Hi. apply Hall. apply in_seq. lia. }
  pose proof (refine_loop_inv _ Hinv) as Hr.
  destruct (fold_left (refine_step p0 p1 p2 p3 point) (seq 0 10) _)
    as [[[[md' mt'] mp'] lo] hi].
  destruct Hr as [Hmp' [Hmt' [_ [_ [d' [-> [Hd' Hall']]]]]]].
  cbn [cp_t cp_point cp_distance]. subst d'.
  split; [exact Hmt'|split; [exact Hmp'|split; [reflexivity|exact Hall']]].
Qed.

End Closest.

(** X16: with at least one sample, closestPointOnBezier returns a parameter in
    [0, 1], the curve point at that parameter and its distance to the query
    point, and that point is at least as close as every coarse sample point i
    / samples. *)
Theorem closestPointOnBezier_best (p0 p1 p2 p3 point : Point R) (samples : nat) :
  (samples <> 0)%nat ->
  let r := closestPointOnBezier p0 p1 p2 p3 point samples in
  let sqd (q : Point R) := (px q - px point) * (px q - px point) + (py q - py point) * (py q - py point) in
  0 <= cp_t r <= 1 /\ cp_point r = cubicBezierPoint p0 p1 p2 p3 (cp_t r) /\
  cp_distance r = Some (sqrt (sqd (cp_point r))) /\
  forall i, (i <= samples)%nat ->
    sqd (cp_point r) <= sqd (cubicBezierPoint p0 p1 p2 p3 (INR i / INR samples)).
Proof. intros Hn. exact (closestPointOnBezier_spec p0 p1 p2 p3 point samples Hn). Qed.

(** The code drops a coefficient of the derivative whose absolute value is
    at most [1e-10]; the bounds are exact when no coefficient is dropped
    unless it is zero. *)
Definition threshold_ok (a b : R) : Prop :=
  (/ 10 ^ 10 < Rabs a \/ a = 0) /\ (/ 10 ^ 10 < Rabs a \/ / 10 ^ 10 < Rabs b \/ b = 0).

Lemma extrema_1d_roots a b c t :
  threshold_ok a b -> 0 < t < 1 -> a * t ^ 2 + b * t + c = 0 ->
  In t (extrema_1d a b c) \/ (a = 0 /\ b = 0 /\ c = 0).
Proof.
  intros [Ha Hb] Ht Hroot. unfold extrema_1d.
  assert (Hpos : 0 < / 10 ^ 10) by (apply Rinv_0_lt_compat; apply pow_lt; lra).
  destruct (Rltb (/ 10 ^ 10) (Rabs a)) eqn:Ea.
  - apply Rltb_true in Ea.
    assert (Ha0 : a <> 0).
    { intros ->. rewrite Rabs_R0 in Ea. assert (0 < / 10 ^ 10) by (apply Rinv_0_lt_compat; apply pow_lt; lra). lra. }
    assert (Hdisc : b * b - 4 * a * c = (2 * a * t + b) * (2 * a * t + b)).
    { assert (c = - (a * t ^ 2 + b * t)) by lra. subst c. ring. }
    rewrite Hdisc. left.
    destruct (Rle_dec 0 ((2 * a * t + b) * (2 * a * t + b))) as [_|Hn]; [|exfalso; apply Hn; apply Rle_0_sqr].
    destruct (Rle_dec 0 (2 * a * t + b)) as [Hp|Hp].
    + rewrite sqrt_square by exact Hp.
      replace ((- b + (2 * a * t + b)) / (2 * a)) with t by (field; exact Ha0).
      assert (Rltb 0 t && Rltb t 1 = true) as -> by (apply andb_true_iff; split; apply Rltb_true; lra).
      apply in_or_app. left. now left.
    + replace ((2 * a * t + b) * (2 * a * t + b)) with ((- (2 * a * t + b)) * (- (2 * a * t + b))) by ring.
      rewrite sqrt_square by lra.
      replace ((- b - - (2 * a * t + b)) / (2 * a)) with t by (field; exact Ha0).
      assert (Rltb 0 t && Rltb t 1 = true) as -> by (apply andb_true_iff; split; apply Rltb_true; lra).
      apply in_or_app. right. now left.
  - apply Rltb_false in Ea.
    assert (a = 0) as -> by (destruct Ha as [Ha|Ha]; [lra|exact Ha]).
    destruct (Rltb (/ 10 ^ 10) (Rabs b)) eqn:Eb.
    + apply Rltb_true in Eb. left.
      assert (Hb0 : b <> 0).
      { intros ->. rewrite Rabs_R0 in Eb. assert (0 < / 10 ^ 10) by (apply Rinv_0_lt_compat; apply pow_lt; lra). lra. }
      replace (- c / b) with t by (field_simplify_eq; [lra|exact Hb0]).
      assert (Rltb 0 t && Rltb t 1 = true) as -> by (apply andb_true_iff; split; apply Rltb_true; lra).
      now left.
    + apply Rltb_false in Eb.
      assert (b = 0) as -> by (destruct Hb as [Hb|[Hb|Hb]]; [rewrite Rabs_R0 in Hb; lra|lra|exact Hb]).
      right. split; [reflexivity|split; [reflexivity|lra]].
Qed.

Lemma coordinate_bounds (f : R -> R) (a b c : R) (L : list R) (mn mx : R) :
  (forall t, derivable_pt_lim f t (a * t ^ 2 + b * t + c)) ->
  threshold_ok a b ->
  incl (extrema_1d a b c) L -> In 0 L -> In 1 L ->
  (a = 0 -> b = 0 -> c = 0 -> forall t, f t = f 0) ->
  (forall u, In u L -> mn <= f u <= mx) ->
  forall t, 0 <= t <= 1 -> mn <= f t <= mx.
Proof.
  intros Hder Hok Hincl H0 H1 Hconst HL.
  assert (Hcont : forall c0, 0 <= c0 <= 1 -> continuity_pt f c0).
  { intros c0 _. apply derivable_continuous_pt. exists (a * c0 ^ 2 + b * c0 + c). apply Hder. }
  assert (Hcrit : forall c0, 0 < c0 < 1 ->
            (forall pr : derivable_pt f c0, derive_pt f c0 pr = 0) -> mn <= f c0 <= mx).
  { intros c0 Hc0 Hz.
    set (pr := exist (fun l => derivable_pt_lim f c0 l) (a * c0 ^ 2 + b * c0 + c) (Hder c0)
               : derivable_pt f c0).
    assert (Hval : derive_pt f c0 pr = a * c0 ^ 2 + b * c0 + c) by (apply derive_pt_eq_0; apply Hder).
    rewrite (Hz pr) in Hval.
    destruct (extrema_1d_roots a b c c0 Hok Hc0 (eq_sym Hval)) as [Hin|[Ea [Eb Ec]]].
    - apply HL, Hincl, Hin.
    - rewrite (Hconst Ea Eb Ec c0). apply HL, H0. }
  intros t Ht. split.
  - destruct (continuity_ab_min f 0 1 ltac:(lra) Hcont) as [m [Hm Hm01]].
    assert (mn <= f m).
    { destruct (Req_dec m 0) as [->|Hm0]; [apply HL, H0|].
      destruct (Req_dec m 1) as [->|Hm1]; [apply HL, H1|].
      apply Hcrit; [lra|]. intros pr. apply (deriv_minimum f 0 1 m pr); [lra|lra|].
      intros x Hx0 Hx1. apply Hm. lra. }
    specialize (Hm t Ht). lra.
  - destruct (continuity_ab_maj f 0 1 ltac:(lra) Hcont) as [m [Hm Hm01]].
    assert (f m <= mx).
    { destruct (Req_dec m 0) as [->|Hm0]; [apply HL, H0|].
      destruct (Req_dec m 1) as [->|Hm1]; [apply HL, H1|].
      apply Hcrit; [lra|]. intros pr. apply (deriv_maximum f 0 1 m pr); [lra|lra|].
      intros x Hx0 Hx1. apply Hm. lra. }
    specialize (Hm t Ht). lra.
Qed.

Definition box_inv (p0 p1 p2 p3 : Point R) (pre : list R) (bb : BoundingBox) : Prop :=
  (pre = [] -> bb = {| minX := None; minY := None; maxX := None; maxY := None |}) /\
  (pre <> [] -> exists a b c d, bb = {| minX := Some a; minY := Some b; maxX := Some c; maxY := Some d |} /\
     forall u, In u pre -> a <= px (cubicBezierPoint p0 p1 p2 p3 u) <= c /\
                           b <= py (cubicBezierPoint p0 p1 p2 p3 u) <= d).

Lemma box_fold (p0 p1 p2 p3 : Point R) (L : list R) :
  box_inv p0 p1 p2 p3 L
    (fold_left (fun bb t =>
       {| minX := Some (js_min (minX bb) (px (cubicBezierPoint p0 p1 p2 p3 t)));
          minY := Some (js_min (minY bb) (py (cubicBezierPoint p0 p1 p2 p3 t)));
          maxX := Some (js_max (maxX bb) (px (cubicBezierPoint p0 p1 p2 p3 t)));
          maxY := Some (js_max (maxY bb) (py (cubicBezierPoint p0 p1 p2 p3 t))) |})
      L {| minX := None; minY := None; maxX := None; maxY := None |}).
Proof.
  apply fold_left_ind.
  - split; [reflexivity|]. intros H; exfalso; apply H; reflexivity.
  - intros pre x bb _ [Hnil Hcons]. split; [intros H; destruct pre; discriminate|].
    intros _. destruct pre as [|y pre'].
    + rewrite (Hnil eq_refl). cbn [js_min js_max minX minY maxX maxY].
      do 4 eexists. split; [reflexivity|]. intros u [<-|[]]. lra.
    + destruct (Hcons ltac:(discriminate)) as [a [b [c [d [-> Hall]]]]].
      cbn [js_min js_max minX minY maxX maxY].
      do 4 eexists. split; [reflexivity|].
      intros u Hu. apply in_app_or in Hu. destruct Hu as [Hu|[<-|[]]].
      * destruct (Hall u Hu) as [[Hx1 Hx2] [Hy1 Hy2]].
        pose proof (Rmin_l a (px (cubicBezierPoint p0 p1 p2 p3 x))).
        pose proof (Rmin_l b (py (cubicBezierPoint p0 p1 p2 p3 x))).
        pose proof (Rmax_l c (px (cubicBezierPoint p0 p1 p2 p3 x))).
        pose proof (Rmax_l d (py (cubicBezierPoint p0 p1 p2 p3 x))). lra.
      * split; split; [apply Rmin_r|apply Rmax_r|apply Rmin_r|apply Rmax_r].
Qed.

(** X17: when no coefficient of the derivative is dropped by the 1e-10
    threshold unless it is zero, getBezierBoundingBox returns finite bounds
    that contain every point of the curve for t in [0, 1]. *)
Theorem getBezierBoundingBox_contains (p0 p1 p2 p3 : Point R) :
  threshold_ok (-3 * px p0 + 9 * px p1 - 9 * px p2 + 3 * px p3) (6 * px p0 - 12 * px p1 + 6 * px p2) ->
  threshold_ok (-3 * py p0 + 9 * py p1 - 9 * py p2 + 3 * py p3) (6 * py p0 - 12 * py p1 + 6 * py p2) ->
  exists mnx mny mxx mxy,
    getBezierBoundingBox p0 p1 p2 p3 =
      {| minX := Some mnx; minY := Some mny; maxX := Some mxx; maxY := Some mxy |} /\
    forall t, 0 <= t <= 1 ->
      mnx <= px (cubicBezierPoint p0 p1 p2 p3 t) <= mxx /\
      mny <= py (cubicBezierPoint p0 p1 p2 p3 t) <= mxy.
Proof.
  intros Hx Hy. unfold getBezierBoundingBox. cbv zeta.
  match goal with |- context [fold_left ?g ?L ?i] =>
    pose proof (box_fold p0 p1 p2 p3 L) as [_ Hbox]; set (Lst := L) in * end.
  destruct Hbox as [a [b [c [d [Heq Hall]]]]].
  { intros E. unfold Lst in E. apply app_eq_nil in E as [_ E]. apply app_eq_nil in E as [_ E].
    discriminate. }
  rewrite Heq. exists a, b, c, d. split; [reflexivity|].
  assert (Hin01 : forall u, u = 0 \/ u = 1 ->
            In u (extrema_1d (-3 * px p0 + 9 * px p1 - 9 * px p2 + 3 * px p3)
                    (6 * px p0 - 12 * px p1 + 6 * px p2) (-3 * px p0 + 3 * px p1) ++
                  extrema_1d (-3 * py p0 + 9 * py p1 - 9 * py p2 + 3 * py p3)
                    (6 * py p0 - 12 * py p1 + 6 * py p2) (-3 * py p0 + 3 * py p1) ++ [0; 1])%list).
  { intros u Hu. apply in_or_app. right. apply in_or_app. right.
    destruct Hu as [->| ->]; [now left|right; now left]. }
  intros t Ht. split.
  - apply (coordinate_bounds (fun s => px (cubicBezierPoint p0 p1 p2 p3 s))
             (-3 * px p0 + 9 * px p1 - 9 * px p2 + 3 * px p3) (6 * px p0 - 12 * px p1 + 6 * px p2)
             (-3 * px p0 + 3 * px p1) Lst a c); auto.
    + intros s. destruct (bezier_derivative_lim p0 p1 p2 p3 s) as [Hd _].
      unfold cubicBezierDerivative in Hd. cbn [px] in Hd.
      match type of Hd with derivable_pt_lim _ _ ?l =>
        replace (( -3 * px p0 + 9 * px p1 - 9 * px p2 + 3 * px p3) * s ^ 2 +
                 (6 * px p0 - 12 * px p1 + 6 * px p2) * s + (-3 * px p0 + 3 * px p1)) with l by ring end.
      exact Hd.
    + intros u Hu. apply in_or_app. now left.
    + intros Ea Eb Ec s. unfold cubicBezierPoint. num_R.
      assert (E1 : px p1 = px p0) by lra. assert (E2 : px p2 = px p0) by lra.
      assert (E3 : px p3 = px p0) by lra. rewrite E1, E2, E3. ring.
    + intros u Hu. destruct (Hall u Hu) as [H1 _]. exact H1.
  - apply (coordinate_bounds (fun s => py (cubicBezierPoint p0 p1 p2 p3 s))
             (-3 * py p0 + 9 * py p1 - 9 * py p2 + 3 * py p3) (6 * py p0 - 12 * py p1 + 6 * py p2)
             (-3 * py p0 + 3 * py p1) Lst b d); auto.
    + intros s. destruct (bezier_derivative_lim p0 p1 p2 p3 s) as [_ Hd].
      unfold cubicBezierDerivative in Hd. cbn [py] in Hd.
      match type of Hd with derivable_pt_lim _ _ ?l =>
        replace (( -3 * py p0 + 9 * py p1 - 9 * py p2 + 3 * py p3) * s ^ 2 +
                 (6 * py p0 - 12 * py p1 + 6 * py p2) * s + (-3 * py p0 + 3 * py p1)) with l by ring end.
      exact Hd.
    + intros u Hu. apply in_or_app. right. apply in_or_app. now left.
    + intros Ea Eb Ec s. unfold cubicBezierPoint. num_R.
      assert (E1 : py p1 = py p0) by lra. assert (E2 : py p2 = py p0) by lra.
      assert (E3 : py p3 = py p0) by lra. rewrite E1, E2, E3. ring.
    + intros u Hu. destruct (Hall u Hu) as [_ H2]. exact H2.
Qed.

End BezierFacts.

Section CurveLength.
Local Open Scope R_scope.

Ltac num_R := cbn [nmul nadd nsub ndiv nsqrt num_of_Z num1 num0 nzerob Number_R px py] in *.

Definition pdist (a b : Point R) : R :=
  sqrt ((px b - px a) * (px b - px a) + (py b - py a) * (py b - py a)).

Lemma sqrt_sum_triangle (a b c d : R) :
  sqrt ((a + c) * (a + c) + (b + d) * (b + d)) <= sqrt (a * a + b * b) + sqrt (c * c + d * d).
Proof.
  set (X := a * a + b * b). set (Y := c * c + d * d).
  assert (HX : 0 <= X) by (unfold X; nra). assert (HY : 0 <= Y) by (unfold Y; nra).
  assert (Hcs : a * c + b * d <= sqrt (X * Y)).
  { destruct (Rle_dec (a * c + b * d) 0) as [Hn|Hp]; [pose proof (sqrt_pos (X * Y)); lra|].
    rewrite <- (sqrt_square (a * c + b * d)) by lra. apply sqrt_le_1_alt.
    unfold X, Y. pose proof (Rle_0_sqr (a * d - b * c)) as Hsq. unfold Rsqr in Hsq. nra. }
  rewrite <- (sqrt_square (sqrt X + sqrt Y)) by (pose proof (sqrt_pos X); pose proof (sqrt_pos Y); lra).
  apply sqrt_le_1_alt.
  replace ((sqrt X + sqrt Y) * (sqrt X + sqrt Y)) with (X + Y + 2 * (sqrt X * sqrt Y))
    by (rewrite <- (sqrt_sqrt X HX) at 1; rewrite <- (sqrt_sqrt Y HY) at 1; ring).
  rewrite <- sqrt_mult by assumption. unfold X, Y in *. nra.
Qed.

Lemma pdist_triangle (a b c : Point R) : pdist a c <= pdist a b + pdist b c.
Proof.
  unfold pdist.
  replace (px c - px a) with ((px b - px a) + (px c - px b)) by ring.
  replace (py c - py a) with ((py b - py a) + (py c - py b)) by ring.
  apply sqrt_sum_triangle.
Qed.

Section Loop.
Variables (p0 p1 p2 p3 : Point R) (segments : Z).

Definition loop_end (n : nat) (i0 : Z) (prev : Point R) : Point R :=
  match n with
  | O => prev
  | S m => cubicBezierPoint p0 p1 p2 p3 (IZR (i0 + Z.of_nat m) / IZR segments)
  end.

Lemma bezier_length_loop_chord n : forall i0 prev len,
  len + pdist prev (loop_end n i0 prev) <= bezier_length_loop p0 p1 p2 p3 segments i0 n prev len.
Proof.
  induction n as [|n IH]; intros i0 prev len.
  - simpl. unfold pdist. replace ((px prev - px prev) * (px prev - px prev) + (py prev - py prev) * (py prev - py prev)) with 0 by ring.
    rewrite sqrt_0. lra.
  - cbn [bezier_length_loop]. num_R.
    set (pt := cubicBezierPoint p0 p1 p2 p3 (IZR i0 / IZR segments)).
    specialize (IH (i0 + 1)%Z pt
      (len + sqrt ((px pt - px prev) * (px pt - px prev) + (py pt - py prev) * (py pt - py prev)))).
    assert (He : loop_end (S n) i0 prev = loop_end n (i0 + 1) pt).
    { destruct n as [|m]; simpl.
      - unfold pt. rewrite Z.add_0_r. reflexivity.
      - f_equal. f_equal. f_equal. lia. }
    rewrite He. pose proof (pdist_triangle prev pt (loop_end n (i0 + 1) pt)).
    fold (pdist prev pt) in IH |- *. lra.
Qed.

End Loop.

Lemma getBezierLength_chord (p0 p1 p2 p3 : Point R) (segments : Z) :
  (1 <= segments)%Z -> pdist p0 p3 <= getBezierLength p0 p1 p2 p3 segments.
Proof.
  intros Hs. unfold getBezierLength.
  destruct (Z.to_nat segments) as [|m] eqn:Em; [lia|].
  pose proof (bezier_length_loop_chord p0 p1 p2 p3 segments (S m) 1 p0 num0) as H.
  cbn [loop_end] in H. replace (1 + Z.of_nat m)%Z with segments in H by lia.
  replace (IZR segments / IZR segments) with 1 in H by (field; apply not_0_IZR; lia).
  rewrite cubicBezierPoint_1 in H. num_R. lra.
Qed.

(** X18: with at least one segment, getBezierLength is at least the straight-
    line distance between the curve's endpoints. *)
Theorem getBezierLength_ge_chord (p0 p1 p2 p3 : Point R) (segments : Z) :
  (1 <= segments)%Z ->
  sqrt ((px p3 - px p0) * (px p3 - px p0) + (py p3 - py p0) * (py p3 - py p0))
    <= getBezierLength p0 p1 p2 p3 segments.
Proof. apply getBezierLength_chord. Qed.

(** X19: buildGraph never makes a curved connection cheaper than its base
    cost: for a bezier connection between two distinct waypoint positions and
    a non-negative base cost, the effective cost is at least the base cost. *)
Theorem curved_edge_cost_ge_base (waypoints : list (WaypointData R)) (e : EdgeData R)
    (a b : WaypointData R) :
  is_bezier e = true ->
  map_get (waypointMap waypoints) (e_from e) = Some a ->
  map_get (waypointMap waypoints) (e_to e) = Some b ->
  (wp_x a, wp_y a) <> (wp_x b, wp_y b) -> 0 <= e_cost e ->
  e_cost e <= edge_cost (waypointMap waypoints) e.
Proof.
  intros Hb Ha Hb' Hne Hc. unfold edge_cost. rewrite Hb, Ha, Hb'.
  unfold is_bezier in Hb. apply andb_true_iff in Hb as [_ Hlen].
  destruct (e_controlPoints e) as [|c0 [|c1 cs]]; simpl in Hlen; try discriminate.
  num_R.
  set (D := (wp_x b - wp_x a) * (wp_x b - wp_x a) + (wp_y b - wp_y a) * (wp_y b - wp_y a)).
  assert (HD : 0 < D).
  { unfold D. destruct (Req_dec (wp_x b) (wp_x a)) as [Ex|Ex].
    - destruct (Req_dec (wp_y b) (wp_y a)) as [Ey|Ey].
      + exfalso. apply Hne. rewrite Ex, Ey. reflexivity.
      + assert (0 < (wp_y b - wp_y a) * (wp_y b - wp_y a)).
        { apply Rsqr_pos_lt. lra. }
        pose proof (Rle_0_sqr (wp_x b - wp_x a)). unfold Rsqr in *. lra.
    - assert (0 < (wp_x b - wp_x a) * (wp_x b - wp_x a)) by (apply Rsqr_pos_lt; lra).
      pose proof (Rle_0_sqr (wp_y b - wp_y a)). unfold Rsqr in *. lra. }
  assert (Hs : 0 < sqrt D) by (apply sqrt_lt_R0; exact HD).
  unfold Rzerob. destruct (Req_EM_T (sqrt D) 0) as [E|_]; [lra|].
  pose proof (getBezierLength_chord {| px := wp_x a; py := wp_y a |} c0 c1
                {| px := wp_x b; py := wp_y b |} 50 ltac:(lia)) as Hch.
  unfold pdist in Hch. cbn [px py] in Hch. fold D in Hch.
  assert (Hr : 1 <= getBezierLength {| px := wp_x a; py := wp_y a |} c0 c1
                      {| px := wp_x b; py := wp_y b |} 50 / sqrt D).
  { apply Rmult_le_reg_r with (sqrt D); [exact Hs|].
    unfold Rdiv. rewrite Rmult_assoc, Rinv_l, Rmult_1_r by lra. lra. }
  nra.
Qed.

End CurveLength.

Module EventBusFacts.
Import EventBus.

Section Facts.

Lemma Callback_eqb_spec (a b : Callback) : Callback_eqb a b = true <-> a = b.
Proof.
  destruct a as [f|t f], b as [g|u g]; simpl; split; try discriminate.
  - intros E. apply Nat.eqb_eq in E. now subst.
  - intros [= ->]. apply Nat.eqb_refl.
  - intros E. apply andb_true_iff in E as [E1 E2].
    apply Nat.eqb_eq in E1, E2. now subst.
  - intros [= -> ->]. now rewrite !Nat.eqb_refl.
Qed.

Lemma existsb_Callback (c : Callback) s : existsb (Callback_eqb c) s = true <-> In c s.
Proof.
  rewrite existsb_exists. split.
  - intros [d [Hd E]]. apply Callback_eqb_spec in E. now subst.
  - intros Hin. exists c. split; [exact Hin|]. now apply Callback_eqb_spec.
Qed.

Lemma set_delete_notin (s : list Callback) c : ~ In c s -> set_delete s c = s.
Proof.
  unfold set_delete. induction s as [|d s IH]; simpl; intros Hn; [reflexivity|].
  destruct (Callback_eqb c d) eqn:E.
  - apply Callback_eqb_spec in E. subst. exfalso. apply Hn. now left.
  - simpl. f_equal. apply IH. intros Hin. apply Hn. now right.
Qed.

Lemma In_set_delete (s : list Callback) c d : In d (set_delete s c) <-> In d s /\ d <> c.
Proof.
  unfold set_delete. rewrite filter_In. split.
  - intros [Hin E]. split; [exact Hin|]. intros ->.
    assert (Callback_eqb c c = true) by (now apply Callback_eqb_spec).
    rewrite H in E. discriminate.
  - intros [Hin Hne]. split; [exact Hin|].
    destruct (Callback_eqb c d) eqn:E; [|reflexivity].
    apply Callback_eqb_spec in E. congruence.
Qed.

Lemma set_delete_notin_mid (l1 l2 : list Callback) c :
  ~ In c (l1 ++ l2)%list -> set_delete (l1 ++ c :: l2)%list c = (l1 ++ l2)%list.
Proof.
  intros Hn. rewrite <- (set_delete_notin (l1 ++ l2) c Hn).
  unfold set_delete. rewrite !filter_app. cbn [filter].
  assert (Callback_eqb c c = true) by (now apply Callback_eqb_spec).
  rewrite H. reflexivity.
Qed.

Lemma set_delete_NoDup (s : list Callback) c : NoDup s -> NoDup (set_delete s c).
Proof. intros Hnd. apply NoDup_filter. exact Hnd. Qed.

Lemma set_add_In (s : list Callback) c d : In d (set_add s c) <-> In d s \/ d = c.
Proof.
  unfold set_add. destruct (existsb (Callback_eqb c) s) eqn:E.
  - apply existsb_Callback in E. split; [now left|]. intros [H| ->]; auto.
  - rewrite in_app_iff. simpl. intuition (subst; auto).
Qed.

Lemma set_add_NoDup (s : list Callback) c : NoDup s -> NoDup (set_add s c).
Proof.
  unfold set_add. destruct (existsb (Callback_eqb c) s) eqn:E; intros Hnd; [exact Hnd|].
  apply NoDup_app; [exact Hnd|repeat constructor; intros []|].
  intros d Hd [<-|[]]. assert (existsb (Callback_eqb c) s = true) by (now apply existsb_Callback).
  congruence.
Qed.

Lemma set_add_length (s : list Callback) c :
  length (set_add s c) = if existsb (Callback_eqb c) s then length s else S (length s).
Proof.
  unfold set_add. destruct (existsb (Callback_eqb c) s); [reflexivity|].
  rewrite length_app. simpl. lia.
Qed.

Lemma map_get_delete_other {V : Type} (m : list (string * V)) k k' :
  k <> k' -> map_get (map_delete m k) k' = map_get m k'.
Proof.
  intros Hne. induction m as [|[k0 v0] m IH]; simpl; [reflexivity|].
  destruct (String.eqb k0 k) eqn:E.
  - apply String.eqb_eq in E. subst k0.
    destruct (String.eqb k k') eqn:E'; [apply String.eqb_eq in E'; congruence|reflexivity].
  - simpl. now rewrite IH.
Qed.

Lemma map_get_None_notin {V : Type} (m : list (string * V)) k :
  ~ In k (map fst m) -> map_get m k = None.
Proof.
  induction m as [|[k0 v0] m IH]; simpl; intros Hn; [reflexivity|].
  destruct (String.eqb k0 k) eqn:E.
  - apply String.eqb_eq in E. exfalso. apply Hn. now left.
  - apply IH. intros H. apply Hn. now right.
Qed.

Lemma map_get_notin_None {V : Type} (m : list (string * V)) k :
  map_get m k = None -> ~ In k (map fst m).
Proof.
  induction m as [|[k0 v0] m IH]; simpl; intros Hg; [intros []|].
  destruct (String.eqb k0 k) eqn:E; [discriminate|].
  intros [<-|Hin]; [now rewrite String.eqb_refl in E|exact (IH Hg Hin)].
Qed.

Lemma map_delete_keys {V : Type} (m : list (string * V)) k k' :
  In k' (map fst (map_delete m k)) -> In k' (map fst m).
Proof.
  induction m as [|[k0 v0] m IH]; simpl; [tauto|].
  destruct (String.eqb k0 k); [now right|]. simpl. intros [H|H]; [now left|right; auto].
Qed.

Lemma map_delete_NoDup {V : Type} (m : list (string * V)) k :
  NoDup (map fst m) -> NoDup (map fst (map_delete m k)).
Proof.
  induction m as [|[k0 v0] m IH]; simpl; intros Hnd; [constructor|].
  inversion Hnd as [|? ? Hk Hnd']; subst.
  destruct (String.eqb k0 k); [exact Hnd'|]. simpl. constructor; auto.
  intros Hin. apply Hk. exact (map_delete_keys _ _ _ Hin).
Qed.

Lemma map_get_delete_same {V : Type} (m : list (string * V)) k :
  NoDup (map fst m) -> map_get (map_delete m k) k = None.
Proof.
  induction m as [|[k0 v0] m IH]; simpl; intros Hnd; [reflexivity|].
  inversion Hnd as [|? ? Hk Hnd']; subst.
  destruct (String.eqb k0 k) eqn:E.
  - apply String.eqb_eq in E. subst k0. now apply map_get_None_notin.
  - simpl. rewrite E. now apply IH.
Qed.

Lemma map_set_absent {V : Type} (m : list (string * V)) k v :
  map_get m k = None -> map_set m k v = (m ++ [(k, v)])%list.
Proof.
  induction m as [|[k0 v0] m IH]; simpl; intros Hg; [reflexivity|].
  destruct (String.eqb k0 k); [discriminate|]. now rewrite IH.
Qed.

Lemma map_set_set {V : Type} (m : list (string * V)) k v w :
  map_set (map_set m k v) k w = map_set m k w.
Proof.
  induction m as [|[k0 v0] m IH]; simpl; [now rewrite String.eqb_refl|].
  destruct (String.eqb k0 k) eqn:E; simpl; rewrite E; [reflexivity|now rewrite IH].
Qed.

Lemma map_set_get {V : Type} (m : list (string * V)) k v :
  map_get m k = Some v -> map_set m k v = m.
Proof.
  induction m as [|[k0 v0] m IH]; simpl; intros Hg; [discriminate|].
  destruct (String.eqb k0 k) eqn:E.
  - injection Hg as ->. reflexivity.
  - now rewrite IH.
Qed.

Lemma map_delete_app_absent {V : Type} (m : list (string * V)) k v :
  map_get m k = None -> map_delete (m ++ [(k, v)])%list k = m.
Proof.
  induction m as [|[k0 v0] m IH]; simpl; intros Hg; [now rewrite String.eqb_refl|].
  destruct (String.eqb k0 k); [discriminate|]. now rewrite IH.
Qed.

(** The invariant the bus keeps: one entry per event, every stored set
    nonempty and duplicate-free, every once-wrapper's token already
    handed out. *)
Definition bus_wf (b : Bus) : Prop :=
  NoDup (map fst (listeners b)) /\
  forall e s, map_get (listeners b) e = Some s ->
    s <> [] /\ NoDup s /\ forall t f, In (OnceWrapper t f) s -> t < next_token b.

Definition empty_bus : Bus := {| listeners := []; next_token := 0 |}.

Lemma empty_bus_wf : bus_wf empty_bus.
Proof. split; [constructor|]. intros e s G. discriminate. Qed.

(** The listeners of [event], as [this.listeners.get(event)] or none. *)
Definition callbacks_of (b : Bus) (event : string) : list Callback :=
  match map_get (listeners b) event with Some s => s | None => [] end.

Definition live_opt (s : list Callback) : option (list Callback) :=
  match s with [] => None | _ => Some s end.

Definition is_fn (c : Callback) : bool := match c with Fn _ => true | OnceWrapper _ _ => false end.

Lemma map_has_get {V : Type} (m : list (string * V)) k :
  map_has m k = match map_get m k with Some _ => true | None => false end.
Proof. reflexivity. Qed.

Lemma on_get (b : Bus) e c e' :
  map_get (listeners (on b e c)) e' =
  if String.eqb e e' then Some (set_add (callbacks_of b e) c) else map_get (listeners b) e'.
Proof.
  unfold on, callbacks_of. cbn [listeners]. rewrite CurveFacts.map_get_set.
  destruct (String.eqb e e') eqn:E; [|].
  - unfold map_has. destruct (map_get (listeners b) e) eqn:G; cbn iota.
    + now rewrite G.
    + now rewrite map_get_set_same.
  - unfold map_has. destruct (map_get (listeners b) e) eqn:G; [reflexivity|].
    apply map_get_set_other. intros ->. now rewrite String.eqb_refl in E.
Qed.

Lemma on_keys_NoDup (b : Bus) e c :
  NoDup (map fst (listeners b)) -> NoDup (map fst (listeners (on b e c))).
Proof.
  intros Hnd. unfold on. cbn [listeners]. apply map_set_NoDup.
  unfold map_has. destruct (map_get (listeners b) e); [exact Hnd|].
  now apply map_set_NoDup.
Qed.

Lemma on_wf (b : Bus) e c :
  bus_wf b -> (forall t f, c = OnceWrapper t f -> t < next_token b) -> bus_wf (on b e c).
Proof.
  intros [Hnd Hs] Hc. split; [now apply on_keys_NoDup|].
  intros e' s. rewrite on_get. unfold on; cbn [next_token].
  destruct (String.eqb e e') eqn:E.
  - intros [= <-]. unfold callbacks_of.
    destruct (map_get (listeners b) e) as [s0|] eqn:G.
    + destruct (Hs _ _ G) as (_ & Hnd0 & Ht). repeat split.
      * intros Hn. assert (In c (set_add s0 c)) by (apply set_add_In; now right).
        rewrite Hn in H. destruct H.
      * now apply set_add_NoDup.
      * intros t f Hin. apply set_add_In in Hin as [Hin|Hin]; [exact (Ht _ _ Hin)|].
        exact (Hc _ _ (eq_sym Hin)).
    + cbn. repeat split; [discriminate|repeat constructor; intros []|].
      intros t f [Hin|[]]. exact (Hc _ _ Hin).
  - intros G. exact (Hs _ _ G).
Qed.

Lemma bus_wf_token_S (b : Bus) :
  bus_wf b -> bus_wf {| listeners := listeners b; next_token := S (next_token b) |}.
Proof.
  intros [Hnd Hs]. split; [exact Hnd|]. cbn. intros e s G.
  destruct (Hs _ _ G) as (H1 & H2 & H3). repeat split; auto.
  intros t f Hin. specialize (H3 _ _ Hin). lia.
Qed.

Lemma off_get (b : Bus) e c e' :
  NoDup (map fst (listeners b)) ->
  map_get (listeners (off b e c)) e' =
  if String.eqb e e' then
    match map_get (listeners b) e with
    | Some s => live_opt (set_delete s c)
    | None => None
    end
  else map_get (listeners b) e'.
Proof.
  intros Hnd. unfold off.
  destruct (String.eqb e e') eqn:E.
  - apply String.eqb_eq in E. subst e'.
    destruct (map_get (listeners b) e) as [s|] eqn:G; [|exact G].
    cbn [listeners]. destruct (set_delete s c) as [|d r] eqn:D; cbn [length Nat.eqb].
    + now apply map_get_delete_same.
    + apply map_get_set_same.
  - assert (Hne : e <> e') by (intros ->; now rewrite String.eqb_refl in E).
    destruct (map_get (listeners b) e) as [s|]; [|reflexivity]. cbn [listeners].
    destruct (Nat.eqb (length (set_delete s c)) 0).
    + now apply map_get_delete_other.
    + now apply map_get_set_other.
Qed.

Lemma off_token (b : Bus) e c : next_token (off b e c) = next_token b.
Proof. unfold off. destruct (map_get (listeners b) e); reflexivity. Qed.

Lemma off_keys_NoDup (b : Bus) e c :
  NoDup (map fst (listeners b)) -> NoDup (map fst (listeners (off b e c))).
Proof.
  intros Hnd. unfold off. destruct (map_get (listeners b) e); [|exact Hnd]. cbn [listeners].
  destruct (Nat.eqb _ 0); [now apply map_delete_NoDup|now apply map_set_NoDup].
Qed.

Lemma off_wf (b : Bus) e c : bus_wf b -> bus_wf (off b e c).
Proof.
  intros [Hnd Hs]. split; [now apply off_keys_NoDup|].
  intros e' s. rewrite (off_get b e c e' Hnd), off_token.
  destruct (String.eqb e e') eqn:E.
  - apply String.eqb_eq in E. subst e'.
    destruct (map_get (listeners b) e) as [s0|] eqn:G; [|discriminate].
    destruct (Hs _ _ G) as (_ & Hnd0 & Ht).
    destruct (set_delete s0 c) as [|d r] eqn:D; [discriminate|]. intros [= <-].
    rewrite <- D. repeat split.
    + rewrite D. discriminate.
    + now apply set_delete_NoDup.
    + intros t f Hin. apply In_set_delete in Hin as [Hin _]. exact (Ht _ _ Hin).
  - intros G. exact (Hs _ _ G).
Qed.

Lemma map_delete_get_other_all {V : Type} (m : list (string * V)) k :
  forall k', k <> k' -> map_get (map_delete m k) k' = map_get m k'.
Proof. intros k' Hne. now apply map_get_delete_other. Qed.

Lemma clear_wf (b : Bus) event : bus_wf b -> bus_wf (clear b event).
Proof.
  intros [Hnd Hs]. unfold clear.
  assert (Hempty : bus_wf {| listeners := []; next_token := next_token b |}).
  { split; [constructor|]. intros e s G. discriminate. }
  destruct event as [e|]; [|exact Hempty].
  destruct (String.eqb e "") eqn:E; [exact Hempty|].
  split; cbn [listeners next_token]; [now apply map_delete_NoDup|].
  intros e' s G. destruct (String.eqb e e') eqn:E'.
  - apply String.eqb_eq in E'. subst e'. rewrite map_get_delete_same in G by exact Hnd.
    discriminate.
  - rewrite map_get_delete_other in G by (intros ->; now rewrite String.eqb_refl in E').
    exact (Hs _ _ G).
Qed.

(** ** [emit] *)

Section Emit.
Variable event : string.
Variable b0 : Bus.
Variable cbs : list Callback.
Hypothesis Hnd_cbs : NoDup cbs.

Definition emit_inv (done rest : list Callback) (st : Bus * list nat) : Prop :=
  let '(b, calls) := st in
  NoDup (map fst (listeners b)) /\
  map_get (listeners b) event = live_opt (filter is_fn done ++ rest)%list /\
  (forall e', e' <> event -> map_get (listeners b) e' = map_get (listeners b0) e') /\
  next_token b = next_token b0 /\
  calls = map target done.

Lemma filter_app_one {T : Type} (f : T -> bool) l x :
  filter f (l ++ [x])%list = (filter f l ++ if f x then [x] else [])%list.
Proof. rewrite filter_app. simpl. destruct (f x); reflexivity. Qed.

Lemma live_opt_default s : match live_opt s with Some s' => s' | None => [] end = s.
Proof. destruct s; reflexivity. Qed.

Lemma emit_loop_inv rest : forall done st,
  cbs = (done ++ rest)%list -> emit_inv done rest st ->
  emit_inv cbs [] (fold_left (emit_step event) rest st).
Proof.
  induction rest as [|c rest IH]; intros done [b calls] Hsplit Hinv.
  - cbn [fold_left]. rewrite Hsplit, (app_nil_r done). exact Hinv.
  - cbn [fold_left]. apply (IH (done ++ [c])%list).
    { rewrite Hsplit, <- app_assoc. reflexivity. }
    destruct Hinv as (Hkeys & Hget & Hoth & Htok & Hcalls).
    assert (Hc_notin : ~ In c (filter is_fn done ++ rest)%list).
    { rewrite Hsplit in Hnd_cbs. apply NoDup_remove_2 in Hnd_cbs.
      intros Hin. apply Hnd_cbs. apply in_app_iff in Hin as [Hin|Hin].
      - apply filter_In in Hin as [Hin _]. apply in_or_app. now left.
      - apply in_or_app. now right. }
    unfold emit_step.
    assert (Hlive : existsb (Callback_eqb c)
              match map_get (listeners b) event with Some s => s | None => [] end = true).
    { rewrite Hget, live_opt_default. apply existsb_Callback.
      apply in_or_app. right. now left. }
    rewrite Hlive.
    destruct c as [f|t f].
    + repeat split; auto.
      * rewrite Hget, filter_app_one. simpl. now rewrite <- app_assoc.
      * rewrite Hcalls, map_app. reflexivity.
    + repeat split.
      * now apply off_keys_NoDup.
      * rewrite (off_get b event (OnceWrapper t f) event Hkeys), String.eqb_refl.
        rewrite Hget. rewrite filter_app_one. cbn [is_fn]. rewrite app_nil_r.
        destruct (filter is_fn done ++ OnceWrapper t f :: rest)%list eqn:D.
        { destruct (filter is_fn done); discriminate. }
        cbn [live_opt]. rewrite <- D. rewrite set_delete_notin_mid; [reflexivity|].
        exact Hc_notin.
      * intros e' Hne. rewrite (off_get b event _ e' Hkeys).
        destruct (String.eqb event e') eqn:E; [apply String.eqb_eq in E; congruence|].
        now apply Hoth.
      * now rewrite off_token.
      * rewrite Hcalls, map_app. reflexivity.
Qed.

End Emit.

Lemma NoDup_filter_fn (s : list Callback) : NoDup s -> NoDup (filter is_fn s).
Proof. apply NoDup_filter. Qed.

Lemma emit_result (b : Bus) e cbs :
  bus_wf b -> map_get (listeners b) e = Some cbs ->
  NoDup (map fst (listeners (fst (emit b e)))) /\
  map_get (listeners (fst (emit b e))) e = live_opt (filter is_fn cbs) /\
  (forall e', e' <> e -> map_get (listeners (fst (emit b e))) e' = map_get (listeners b) e') /\
  next_token (fst (emit b e)) = next_token b /\
  snd (emit b e) = map target cbs.
Proof.
  intros [Hnd Hs] G. destruct (Hs _ _ G) as (Hne & Hnd_cbs & _).
  unfold emit. rewrite G.
  pose proof (emit_loop_inv e b cbs Hnd_cbs cbs [] (b, []) eq_refl) as H.
  destruct (fold_left (emit_step e) cbs (b, [])) as [b' calls].
  assert (Hi : emit_inv e b [] cbs (b, [])).
  { cbn [emit_inv]. repeat split; auto. rewrite G. destruct cbs; [congruence|reflexivity]. }
  specialize (H Hi). cbn [emit_inv fst snd] in *. rewrite app_nil_r in H. exact H.
Qed.

Lemma emit_wf (b : Bus) e : bus_wf b -> bus_wf (fst (emit b e)).
Proof.
  intros Hwf. destruct (map_get (listeners b) e) as [cbs|] eqn:G.
  2:{ unfold emit. rewrite G. exact Hwf. }
  destruct (emit_result b e cbs Hwf G) as (Hnd & Hget & Hoth & Htok & _).
  destruct Hwf as [_ Hs]. destruct (Hs _ _ G) as (_ & Hnd_cbs & Ht).
  split; [exact Hnd|]. intros e' s G'. rewrite Htok.
  destruct (String.eqb e e') eqn:E.
  - apply String.eqb_eq in E. subst e'. rewrite Hget in G'.
    destruct (filter is_fn cbs) as [|d r] eqn:F; [discriminate|]. injection G' as <-.
    repeat split; [discriminate|rewrite <- F; now apply NoDup_filter_fn|].
    intros t f Hin. rewrite <- F in Hin. apply filter_In in Hin as [Hin _]. exact (Ht _ _ Hin).
  - rewrite Hoth in G' by (intros ->; now rewrite String.eqb_refl in E). exact (Hs _ _ G').
Qed.

Lemma once_wf (b : Bus) e f : bus_wf b -> bus_wf (once b e f).
Proof.
  intros Hwf. unfold once. apply on_wf; [now apply bus_wf_token_S|].
  cbn [next_token]. intros t g [= -> ->]. lia.
Qed.

Lemma once_fresh (b : Bus) e f :
  bus_wf b -> ~ In (OnceWrapper (next_token b) f) (callbacks_of b e).
Proof.
  intros [_ Hs] Hin. unfold callbacks_of in Hin.
  destruct (map_get (listeners b) e) as [s|] eqn:G; [|destruct Hin].
  destruct (Hs _ _ G) as (_ & _ & Ht). specialize (Ht _ _ Hin). lia.
Qed.

Lemma callbacks_of_on (b : Bus) e c :
  ~ In c (callbacks_of b e) -> callbacks_of (on b e c) e = (callbacks_of b e ++ [c])%list.
Proof.
  intros Hn. unfold callbacks_of at 1. rewrite on_get, String.eqb_refl.
  unfold set_add. destruct (existsb (Callback_eqb c) (callbacks_of b e)) eqn:E; [|reflexivity].
  apply existsb_Callback in E. contradiction.
Qed.

Lemma off_on_same (b : Bus) e c :
  bus_wf b -> ~ In c (callbacks_of b e) -> off (on b e c) e c = b.
Proof.
  intros [Hnd Hs] Hn. unfold off.
  rewrite on_get, String.eqb_refl.
  unfold set_add. destruct (existsb (Callback_eqb c) (callbacks_of b e)) eqn:E.
  { apply existsb_Callback in E. contradiction. }
  rewrite set_delete_notin_mid by (now rewrite app_nil_r). rewrite app_nil_r.
  unfold callbacks_of in *. unfold on. cbn [listeners next_token]. unfold map_has.
  destruct (map_get (listeners b) e) as [s|] eqn:G.
  - destruct (Hs _ _ G) as (Hne & _ & _).
    destruct s as [|d r]; [congruence|]. cbn [length Nat.eqb].
    rewrite map_set_set, map_set_get by exact G. destruct b; reflexivity.
  - rewrite (map_set_absent (listeners b) e []) by exact G.
    assert (G' : map_get (listeners b ++ [(e, [])])%list e = Some []).
    { rewrite <- (map_set_absent (listeners b) e []) by exact G. apply map_get_set_same. }
    rewrite G'. cbn [set_add existsb app].
    rewrite <- (map_set_absent (listeners b) e []) by exact G.
    rewrite map_set_set, (map_set_absent _ e [c]) by exact G.
    rewrite map_delete_app_absent by exact G. destruct b; reflexivity.
Qed.

Lemma filter_is_fn_idem (s : list Callback) : filter is_fn (filter is_fn s) = filter is_fn s.
Proof.
  induction s as [|c s IH]; simpl; [reflexivity|].
  destruct (is_fn c) eqn:E; simpl; [rewrite E; now f_equal|exact IH].
Qed.

End Facts.


(** X20: the EventBus starts well formed, and on (with a caller's function),
    once, off, emit and clear keep it well formed: one entry per event, no
    empty or duplicated listener set, every once-wrapper's token already
    handed out. *)
Theorem EventBus_wf_preserved (b : Bus) (event : string) (f : nat) (c : Callback)
    (ev : option string) :
  bus_wf empty_bus /\
  (bus_wf b ->
   bus_wf (on b event (Fn f)) /\ bus_wf (once b event f) /\ bus_wf (off b event c) /\
   bus_wf (fst (emit b event)) /\ bus_wf (clear b ev)).
Proof.
  split.
  - split; [constructor|]. intros e s G. discriminate.
  - intros Hwf. refine (conj _ (conj _ (conj _ (conj _ _)))).
    + apply on_wf; [exact Hwf|]. intros t g Hc. discriminate.
    + now apply once_wf.
    + now apply off_wf.
    + now apply emit_wf.
    + now apply clear_wf.
Qed.


(** X21: on adds a callback to the set of its event at most once: the listener
    count of that event grows by one unless the callback is already
    subscribed, other events keep their count, and subscribing the same
    callback again changes nothing. *)
Theorem on_listenerCount (b : Bus) (event : string) (callback : Callback) (e' : string) :
  listenerCount (on b event callback) e' =
    (if String.eqb event e' then
       if existsb (Callback_eqb callback) (callbacks_of b event)
       then listenerCount b event else S (listenerCount b event)
     else listenerCount b e') /\
  on (on b event callback) event callback = on b event callback.
Proof.
  split.
  - unfold listenerCount. rewrite on_get.
    destruct (String.eqb event e'); [|reflexivity].
    rewrite set_add_length. unfold callbacks_of.
    destruct (map_get (listeners b) event); reflexivity.
  - unfold on at 1. unfold map_has. rewrite (on_get b event callback event), String.eqb_refl.
    cbn iota. rewrite (on_get b event callback event), String.eqb_refl.
    assert (Hin : existsb (Callback_eqb callback) (set_add (callbacks_of b event) callback) = true).
    { apply existsb_Callback. apply set_add_In. now right. }
    unfold set_add at 1. rewrite Hin.
    rewrite map_set_get by (rewrite on_get, String.eqb_refl; reflexivity).
    destruct (on b event callback); reflexivity.
Qed.


(** X22: on a well-formed bus, the unsubscribe function returned by on
    restores the bus exactly when the callback was not subscribed before; the
    one returned by once removes the wrapper it added. *)
Theorem off_undoes_on (b : Bus) (event : string) (callback : Callback) (f : nat) :
  bus_wf b -> ~ In callback (callbacks_of b event) ->
  off (on b event callback) event callback = b /\
  off (once b event f) event (OnceWrapper (next_token b) f) =
    {| listeners := listeners b; next_token := S (next_token b) |}.
Proof.
  intros Hwf Hn. split; [now apply off_on_same|].
  unfold once. apply off_on_same; [now apply bus_wf_token_S|].
  exact (once_fresh b event f Hwf).
Qed.


(** X23: on a well-formed bus, emit calls the function of every listener of
    the event once, in subscription order; afterwards the event keeps exactly
    its listeners added with on (its entry is removed when none is left), and
    other events are untouched. *)
Theorem emit_calls_all_drops_once (b : Bus) (event : string) (callbacks : list Callback) :
  bus_wf b -> map_get (listeners b) event = Some callbacks ->
  snd (emit b event) = map target callbacks /\
  map_get (listeners (fst (emit b event))) event = live_opt (filter is_fn callbacks) /\
  (forall e', e' <> event ->
     map_get (listeners (fst (emit b event))) e' = map_get (listeners b) e').
Proof.
  intros Hwf G. destruct (emit_result b event callbacks Hwf G) as (_ & H1 & H2 & _ & H3).
  auto.
Qed.


(** X24: a function subscribed with once is called by the next emit of its
    event, after the listeners already there, and not by the emit after that.
    *)
Theorem once_fires_once (b : Bus) (event : string) (f : nat) :
  bus_wf b ->
  snd (emit (once b event f) event) = (map target (callbacks_of b event) ++ [f])%list /\
  snd (emit (fst (emit (once b event f) event)) event) =
    map target (filter is_fn (callbacks_of b event)).
Proof.
  intros Hwf.
  assert (Hc : callbacks_of (once b event f) event =
               (callbacks_of b event ++ [OnceWrapper (next_token b) f])%list).
  { unfold once. rewrite callbacks_of_on; [reflexivity|]. exact (once_fresh b event f Hwf). }
  assert (Hw1 : bus_wf (once b event f)) by now apply once_wf.
  assert (G : map_get (listeners (once b event f)) event =
              Some (callbacks_of b event ++ [OnceWrapper (next_token b) f])%list).
  { rewrite <- Hc. unfold callbacks_of, once. rewrite on_get, String.eqb_refl. reflexivity. }
  destruct (emit_result _ _ _ Hw1 G) as (_ & Hget & _ & _ & Hcalls).
  split.
  - rewrite Hcalls, map_app. reflexivity.
  - rewrite filter_app in Hget. cbn [filter is_fn] in Hget. rewrite app_nil_r in Hget.
    destruct (filter is_fn (callbacks_of b event)) as [|d r] eqn:F.
    + unfold emit at 1. rewrite Hget. reflexivity.
    + destruct (emit_result _ _ _ (emit_wf _ event Hw1) Hget) as (_ & _ & _ & _ & H2).
      rewrite H2. reflexivity.
Qed.


(** X25: on a well-formed bus, clear(event) removes the listeners of that
    event and keeps those of the other events; clear() and clear('') remove
    the listeners of every event. *)
Theorem clear_listeners (b : Bus) (event : string) :
  bus_wf b ->
  listenerCount (clear b (Some event)) event = 0 /\
  (event <> "" -> forall e', e' <> event ->
     map_get (listeners (clear b (Some event))) e' = map_get (listeners b) e') /\
  (forall e', listenerCount (clear b None) e' = 0 /\ listenerCount (clear b (Some "")) e' = 0).
Proof.
  intros [Hnd _]. unfold listenerCount, clear. repeat split.
  - destruct (String.eqb event "") eqn:E; [reflexivity|]. cbn [listeners].
    now rewrite map_get_delete_same.
  - intros Hne e' He'. destruct (String.eqb event "") eqn:E.
    + apply String.eqb_eq in E. contradiction.
    + cbn [listeners]. apply map_get_delete_other. congruence.
Qed.

End EventBusFacts.


Section ViewerFacts.
Import Terrain Viewer.
Local Open Scope R_scope.

Variables (pointX pointY : R).

Let d (w : WaypointData R) : R := distance pointX pointY (wp_x w) (wp_y w).

(** What the waypoint loop knows after the waypoints [l]. *)
Definition nearest_inv (l : list (WaypointData R)) (r : option (WaypointData R * R)) : Prop :=
  match r with
  | None => forall w, In w l -> NEARBY_WAYPOINT_RADIUS <= d w
  | Some (w, dw) =>
      dw = d w /\ dw < NEARBY_WAYPOINT_RADIUS /\
      exists l1 l2, l = (l1 ++ w :: l2)%list /\
        (forall w', In w' l1 -> d w' < NEARBY_WAYPOINT_RADIUS -> dw < d w') /\
        (forall w', In w' l2 -> d w' < NEARBY_WAYPOINT_RADIUS -> dw <= d w')
  end.

Lemma nearest_loop_inv (l : list (WaypointData R)) :
  nearest_inv l (fold_left (nearest_step pointX pointY) l None).
Proof.
  induction l as [|x l IH] using rev_ind; [intros w []|].
  rewrite fold_left_app. cbn [fold_left].
  destruct (fold_left (nearest_step pointX pointY) l None) as [[w dw]|] eqn:F;
    unfold nearest_step; cbn [option_map snd BezierUtils.below].
  - destruct IH as (Hdw & Hlt & l1 & l2 & -> & H1 & H2).
    fold (d x).
    destruct (Rltb (d x) dw) eqn:E1; destruct (Rltb (d x) NEARBY_WAYPOINT_RADIUS) eqn:E2;
      cbn [andb].
    + apply Rltb_true in E1, E2. split; [reflexivity|]. split; [exact E2|].
      exists ((l1 ++ w :: l2))%list, []. split; [reflexivity|]. split; [|intros ? []].
      intros w' Hin Hw'. apply in_app_iff in Hin as [Hin|[<-|Hin]].
      * specialize (H1 _ Hin Hw'). lra.
      * lra.
      * specialize (H2 _ Hin Hw'). lra.
    + split; [exact Hdw|]. split; [exact Hlt|]. exists l1, (l2 ++ [x])%list.
      split; [now rewrite <- app_assoc|]. split; [exact H1|].
      intros w' Hin Hw'. apply in_app_iff in Hin as [Hin|[<-|[]]]; [exact (H2 _ Hin Hw')|].
      apply Rltb_false in E2. lra.
    + split; [exact Hdw|]. split; [exact Hlt|]. exists l1, (l2 ++ [x])%list.
      split; [now rewrite <- app_assoc|]. split; [exact H1|].
      intros w' Hin Hw'. apply in_app_iff in Hin as [Hin|[<-|[]]]; [exact (H2 _ Hin Hw')|].
      apply Rltb_false in E1. lra.
    + split; [exact Hdw|]. split; [exact Hlt|]. exists l1, (l2 ++ [x])%list.
      split; [now rewrite <- app_assoc|]. split; [exact H1|].
      intros w' Hin Hw'. apply in_app_iff in Hin as [Hin|[<-|[]]]; [exact (H2 _ Hin Hw')|].
      apply Rltb_false in E1. lra.
  - fold (d x). destruct (Rltb (d x) NEARBY_WAYPOINT_RADIUS) eqn:E2; cbn [andb].
    + apply Rltb_true in E2. split; [reflexivity|]. split; [exact E2|].
      exists l, []. split; [reflexivity|]. split; [|intros ? []].
      intros w' Hin Hw'. specialize (IH _ Hin). lra.
    + apply Rltb_false in E2. intros w Hin. apply in_app_iff in Hin as [Hin|[<-|[]]].
      * exact (IH _ Hin).
      * exact E2.
Qed.

End ViewerFacts.


(** X26: findNearestWaypoint returns the first waypoint of smallest distance
    among those closer than 500 to the point; it returns no id and cost 0
    exactly when no waypoint is that close. *)
Theorem findNearestWaypoint_nearest (pointX pointY : R) (waypoints : list (WaypointData R))
    (terrain : option Terrain.TerrainLayer) (imageWidth imageHeight : R) :
  match Viewer.findNearestWaypoint pointX pointY waypoints terrain imageWidth imageHeight with
  | (None, cost) =>
      cost = 0%R /\
      forall w, In w waypoints ->
        (Viewer.NEARBY_WAYPOINT_RADIUS <= Viewer.distance pointX pointY (wp_x w) (wp_y w))%R
  | (Some id, _) =>
      exists l1 w l2, waypoints = (l1 ++ w :: l2)%list /\ wp_id w = id /\
        (Viewer.distance pointX pointY (wp_x w) (wp_y w) < Viewer.NEARBY_WAYPOINT_RADIUS)%R /\
        (forall w', In w' l1 ->
           (Viewer.distance pointX pointY (wp_x w') (wp_y w') < Viewer.NEARBY_WAYPOINT_RADIUS ->
            Viewer.distance pointX pointY (wp_x w) (wp_y w) <
              Viewer.distance pointX pointY (wp_x w') (wp_y w'))%R) /\
        (forall w', In w' waypoints ->
           (Viewer.distance pointX pointY (wp_x w') (wp_y w') < Viewer.NEARBY_WAYPOINT_RADIUS ->
            Viewer.distance pointX pointY (wp_x w) (wp_y w) <=
              Viewer.distance pointX pointY (wp_x w') (wp_y w'))%R)
  end.
Proof.
  pose proof (nearest_loop_inv pointX pointY waypoints) as Hinv.
  unfold Viewer.findNearestWaypoint.
  destruct (fold_left (Viewer.nearest_step pointX pointY) waypoints None) as [[w dw]|];
    cbn [nearest_inv] in Hinv.
  - destruct Hinv as (-> & Hlt & l1 & l2 & Hw & H1 & H2).
    exists l1, w, l2. repeat split; auto.
    intros w' Hin Hw'. rewrite Hw in Hin. apply in_app_iff in Hin as [Hin|[<-|Hin]].
    + left. exact (H1 _ Hin Hw').
    + right. reflexivity.
    + exact (H2 _ Hin Hw').
  - split; [reflexivity|exact Hinv].
Qed.



Lemma getTerrainAt_nth (T : Terrain.TerrainLayer) x y v :
  (0 <= x < Terrain.gridWidth T)%Z -> (0 <= y < Terrain.gridHeight T)%Z ->
  nth_error (Terrain.grid T) (Z.to_nat (y * Terrain.gridWidth T + x)) = Some v ->
  Terrain.getTerrainAt T x y = v.
Proof.
  intros Hx Hy E. unfold Terrain.getTerrainAt.
  replace ((x <? 0)%Z || (Terrain.gridWidth T <=? x)%Z || (y <? 0)%Z
           || (Terrain.gridHeight T <=? y)%Z) with false
    by (symmetry; repeat rewrite orb_false_iff; repeat split;
        first [apply Z.ltb_ge | apply Z.leb_gt]; lia).
  now rewrite E.
Qed.

Lemma imageToGrid_in (T : Terrain.TerrainLayer) ix iy W H :
  (1 <= Terrain.gridWidth T)%Z -> (1 <= Terrain.gridHeight T)%Z ->
  (0 <= fst (Terrain.imageToGrid ix iy W H T) < Terrain.gridWidth T)%Z /\
  (0 <= snd (Terrain.imageToGrid ix iy W H T) < Terrain.gridHeight T)%Z.
Proof. intros Hw Hh. unfold Terrain.imageToGrid. cbn [fst snd]. lia. Qed.


(** X28: paintAt with the pointer inside the image stores the map's terrain
    layer, or a new default one when the map has none, painted around the grid
    cell under the pointer; that cell then holds the selected terrain type. *)
Theorem paintAt_paints_pointer_cell (canvasX canvasY imageWidth imageHeight : R)
    (mapTerrain : option Terrain.TerrainLayer) (brushSize : Z) (selectedTerrainType : option string) :
  (0 < imageWidth)%R -> (0 < imageHeight)%R ->
  (0 <= canvasX <= imageWidth)%R -> (0 <= canvasY <= imageHeight)%R -> (0 <= brushSize)%Z ->
  (forall T, mapTerrain = Some T ->
     (1 <= Terrain.gridWidth T)%Z /\ (1 <= Terrain.gridHeight T)%Z /\
     List.length (Terrain.grid T) = Z.to_nat (Terrain.gridWidth T * Terrain.gridHeight T)) ->
  exists T,
    (mapTerrain = Some T \/
     (mapTerrain = None /\
      Terrain.createTerrainLayer imageWidth imageHeight Terrain.DEFAULT_GRID_SIZE = Some T)) /\
    let '(cellX, cellY) := Terrain.imageToGrid canvasX canvasY imageWidth imageHeight T in
    Editor.paintAt canvasX canvasY imageWidth imageHeight mapTerrain brushSize selectedTerrainType
      = Editor.Stored (Terrain.paintTerrain T cellX cellY brushSize selectedTerrainType) /\
    Terrain.getTerrainAt (Terrain.paintTerrain T cellX cellY brushSize selectedTerrainType)
      cellX cellY = selectedTerrainType.
Proof.
  intros HW HH Hx Hy Hb Hmap.
  assert (Hsrc : exists T,
            (mapTerrain = Some T \/
             (mapTerrain = None /\
              Terrain.createTerrainLayer imageWidth imageHeight Terrain.DEFAULT_GRID_SIZE = Some T)) /\
            match mapTerrain with
            | Some t => Some t
            | None => Terrain.createTerrainLayer imageWidth imageHeight Terrain.DEFAULT_GRID_SIZE
            end = Some T /\
            (1 <= Terrain.gridWidth T)%Z /\ (1 <= Terrain.gridHeight T)%Z /\
            List.length (Terrain.grid T) = Z.to_nat (Terrain.gridWidth T * Terrain.gridHeight T)).
  { destruct mapTerrain as [T|].
    - exists T. destruct (Hmap T eq_refl) as (H1 & H2 & H3). auto.
    - destruct (createTerrainLayer_spec imageWidth imageHeight Terrain.DEFAULT_GRID_SIZE HW HH)
        as [L (HL & [H1 _] & [H2 _] & _ & H3 & _)];
        [unfold Terrain.DEFAULT_GRID_SIZE; lia|unfold Terrain.DEFAULT_GRID_SIZE; lia|].
      exists L. auto 6. }
  destruct Hsrc as [T (Hor & Hget & Hgw & Hgh & Hlen)].
  exists T. split; [exact Hor|].
  destruct (imageToGrid_in T canvasX canvasY imageWidth imageHeight Hgw Hgh) as [Hcx Hcy].
  destruct (Terrain.imageToGrid canvasX canvasY imageWidth imageHeight T) as [cx cy] eqn:Ecell.
  cbn [fst snd] in Hcx, Hcy. split.
  - unfold Editor.paintAt.
    replace (Rltb canvasX 0 || Rltb imageWidth canvasX || Rltb canvasY 0 || Rltb imageHeight canvasY)
      with false
      by (symmetry; repeat rewrite orb_false_iff; repeat split; apply Rltb_false; lra).
    rewrite Hget, Ecell. reflexivity.
  - apply getTerrainAt_nth; [unfold Terrain.paintTerrain; cbn [Terrain.gridWidth]; lia
                            |unfold Terrain.paintTerrain; cbn [Terrain.gridHeight]; lia|].
    destruct (paint_rows_spec T cx cy brushSize selectedTerrainType
                (Terrain.zrange (- brushSize) brushSize) (Terrain.zrange (- brushSize) brushSize)
                (Terrain.grid T) Hlen) as [_ Hn].
    unfold Terrain.paintTerrain. cbn [Terrain.grid Terrain.gridWidth].
    rewrite Hn, brush_hits_cell by lia.
    replace ((cx - cx) * (cx - cx) + (cy - cy) * (cy - cy))%Z with 0%Z by ring.
    replace (0 <=? brushSize * brushSize)%Z with true by (symmetry; apply Z.leb_le; nia).
    reflexivity.
Qed.

(** ** Witnesses: the hypotheses of the properties above hold at concrete inputs *)

Definition pt (x y : R) : Point R := {| px := x; py := y |}.

Lemma findKShortestPaths_routes_witness :
  (forall e, In e [Samples.curve_conn] -> e_id e <> "") /\
  let graph := buildGraph Samples.curve_wps [Samples.curve_conn] in
  forall p, In p (findKShortestPaths graph "A" "B" 2) ->
  hd_error (path p) = Some "A" /\ last (path p) "A" = "B" /\
  length (edges p) = pred (length (path p)) /\
  edges p = getPathEdges graph (path p).
Proof.
  split; [intros e [<-|[]]; discriminate|].
  apply findKShortestPaths_routes. intros e [<-|[]]; discriminate.
Defined.

Lemma createTerrainLayer_shape_witness :
  (0 < 200)%R /\ (0 < 100)%R /\ (1 <= 100)%Z /\ (100 * 100 < 2 ^ 32)%Z /\
  exists L, Terrain.createTerrainLayer 200 100 100 = Some L /\
    (1 <= Terrain.gridWidth L <= 100)%Z /\ (1 <= Terrain.gridHeight L <= 100)%Z /\
    (if Rle_dec 100 200 then Terrain.gridWidth L = 100%Z else Terrain.gridHeight L = 100%Z) /\
    List.length (Terrain.grid L) = Z.to_nat (Terrain.gridWidth L * Terrain.gridHeight L) /\
    (forall x y, Terrain.getTerrainAt L x y = None) /\
    Terrain.types L = Terrain.DEFAULT_TERRAIN_TYPES.
Proof.
  split; [lra|split; [lra|split; [lia|split; [lia|]]]].
  apply createTerrainLayer_shape; [lra|lra|lia|lia].
Defined.

Lemma imageToGrid_cells_witness :
  (0 < 300)%R /\ (0 < 300)%R /\
  (1 <= Terrain.gridWidth Samples.layer3)%Z /\ (1 <= Terrain.gridHeight Samples.layer3)%Z /\
  (forall imageX imageY,
     let '(cx, cy) := Terrain.imageToGrid imageX imageY 300 300 Samples.layer3 in
     (0 <= cx < Terrain.gridWidth Samples.layer3)%Z /\
     (0 <= cy < Terrain.gridHeight Samples.layer3)%Z) /\
  (forall cellX cellY, (0 <= cellX < Terrain.gridWidth Samples.layer3)%Z ->
     (0 <= cellY < Terrain.gridHeight Samples.layer3)%Z ->
     let '(imageX, imageY) := Terrain.gridToImage cellX cellY 300 300 Samples.layer3 in
     Terrain.imageToGrid imageX imageY 300 300 Samples.layer3 = (cellX, cellY)).
Proof.
  split; [lra|split; [lra|split; [vm_compute; discriminate|split; [vm_compute; discriminate|]]]].
  apply imageToGrid_cells; [lra|lra|vm_compute; discriminate|vm_compute; discriminate].
Defined.

Lemma calculatePathTerrainCost_bounds_witness :
  (forall ty, In ty (Terrain.types Samples.layer3) -> (1 / 2 <= Terrain.tt_cost ty <= 2)%R) /\
  (1 / 2 <= 1 <= 2)%R /\
  (1 / 2 * (segments_length [pt 0 0; pt 3 4] / 100)
     <= Terrain.calculatePathTerrainCost Samples.layer3 [pt 0 0; pt 3 4] 300 300
     <= 2 * (segments_length [pt 0 0; pt 3 4] / 100))%R.
Proof.
  split; [intros ty []|split; [lra|]].
  apply calculatePathTerrainCost_bounds; [intros ty []|lra].
Defined.

Lemma sampleLine_shape_witness :
  (20 <> 0)%nat /\
  let pts := Terrain.sampleLine 0 0 3 4 20 in
  List.length pts = S 20 /\
  hd_error pts = Some {| px := 0%R; py := 0%R |} /\
  last pts {| px := 0%R; py := 0%R |} = {| px := 3%R; py := 4%R |} /\
  segments_length pts = sqrt ((3 - 0) * (3 - 0) + (4 - 0) * (4 - 0))%R.
Proof. split; [discriminate|]. apply sampleLine_shape. discriminate. Defined.

Lemma closestPointOnBezier_best_witness :
  (50 <> 0)%nat /\
  let r := BezierUtils.closestPointOnBezier (pt 0 0) (pt 1 2) (pt 2 2) (pt 3 0) (pt 1 1) 50 in
  let sqd (q : Point R) := ((px q - 1) * (px q - 1) + (py q - 1) * (py q - 1))%R in
  (0 <= BezierUtils.cp_t r <= 1)%R /\
  BezierUtils.cp_point r = cubicBezierPoint (pt 0 0) (pt 1 2) (pt 2 2) (pt 3 0) (BezierUtils.cp_t r) /\
  BezierUtils.cp_distance r = Some (sqrt (sqd (BezierUtils.cp_point r))) /\
  forall i, (i <= 50)%nat ->
    (sqd (BezierUtils.cp_point r)
       <= sqd (cubicBezierPoint (pt 0 0) (pt 1 2) (pt 2 2) (pt 3 0) (INR i / INR 50)))%R.
Proof.
  split; [discriminate|]. apply (closestPointOnBezier_best _ _ _ _ (pt 1 1) 50). discriminate.
Defined.

Lemma getBezierBoundingBox_contains_witness :
  threshold_ok (-3 * 0 + 9 * 1 - 9 * 2 + 3 * 3) (6 * 0 - 12 * 1 + 6 * 2) /\
  threshold_ok (-3 * 0 + 9 * 2 - 9 * 2 + 3 * 0) (6 * 0 - 12 * 2 + 6 * 2) /\
  exists mnx mny mxx mxy,
    BezierUtils.getBezierBoundingBox (pt 0 0) (pt 1 2) (pt 2 2) (pt 3 0) =
      {| BezierUtils.minX := Some mnx; BezierUtils.minY := Some mny;
         BezierUtils.maxX := Some mxx; BezierUtils.maxY := Some mxy |} /\
    forall t, (0 <= t <= 1)%R ->
      (mnx <= px (cubicBezierPoint (pt 0 0) (pt 1 2) (pt 2 2) (pt 3 0) t) <= mxx)%R /\
      (mny <= py (cubicBezierPoint (pt 0 0) (pt 1 2) (pt 2 2) (pt 3 0) t) <= mxy)%R.
Proof.
  assert (Hx : threshold_ok (-3 * 0 + 9 * 1 - 9 * 2 + 3 * 3) (6 * 0 - 12 * 1 + 6 * 2)).
  { split; right; [|right]; ring. }
  assert (Hy : threshold_ok (-3 * 0 + 9 * 2 - 9 * 2 + 3 * 0) (6 * 0 - 12 * 2 + 6 * 2)).
  { split; [right; ring|right; left].
    replace (6 * 0 - 12 * 2 + 6 * 2)%R with (-12)%R by ring.
    rewrite Rabs_left by lra.
    assert (H10 : (1 <= 10 ^ 10)%R) by (apply pow_R1_Rle; lra).
    assert (Hinv : (/ 10 ^ 10 <= 1)%R).
    { rewrite <- Rinv_1. apply Rinv_le_contravar; lra. }
    lra. }
  split; [exact Hx|split; [exact Hy|]].
  apply getBezierBoundingBox_contains; [exact Hx|exact Hy].
Defined.

Lemma getBezierLength_ge_chord_witness :
  (1 <= 50)%Z /\
  (sqrt ((px (pt 3 0) - px (pt 0 0)) * (px (pt 3 0) - px (pt 0 0)) +
         (py (pt 3 0) - py (pt 0 0)) * (py (pt 3 0) - py (pt 0 0)))
    <= getBezierLength (pt 0 0) (pt 1 2) (pt 2 2) (pt 3 0) 50)%R.
Proof. split; [lia|]. apply getBezierLength_ge_chord. lia. Defined.

Lemma curved_edge_cost_ge_base_witness :
  is_bezier Samples.curve_conn = true /\
  map_get (waypointMap Samples.curve_wps) (e_from Samples.curve_conn) = Some (Samples.wpR "A" 0 0) /\
  map_get (waypointMap Samples.curve_wps) (e_to Samples.curve_conn) = Some (Samples.wpR "B" 3 4) /\
  (wp_x (Samples.wpR "A" 0 0), wp_y (Samples.wpR "A" 0 0))
    <> (wp_x (Samples.wpR "B" 3 4), wp_y (Samples.wpR "B" 3 4)) /\
  (0 <= e_cost Samples.curve_conn)%R /\
  (e_cost Samples.curve_conn <= edge_cost (waypointMap Samples.curve_wps) Samples.curve_conn)%R.
Proof.
  assert (Hne : (wp_x (Samples.wpR "A" 0 0), wp_y (Samples.wpR "A" 0 0))
                <> (wp_x (Samples.wpR "B" 3 4), wp_y (Samples.wpR "B" 3 4))).
  { cbn. intros [= E _]. lra. }
  assert (Hc : (0 <= e_cost Samples.curve_conn)%R) by (cbn; lra).
  split; [reflexivity|split; [reflexivity|split; [reflexivity|split; [exact Hne|split; [exact Hc|]]]]].
  apply (curved_edge_cost_ge_base Samples.curve_wps Samples.curve_conn
           (Samples.wpR "A" 0 0) (Samples.wpR "B" 3 4)); try reflexivity; assumption.
Defined.

Definition sample_bus : EventBus.Bus :=
  EventBus.once (EventBus.on EventBusFacts.empty_bus "moved" (EventBus.Fn 0)) "moved" 1.

Lemma sample_bus_wf : EventBusFacts.bus_wf sample_bus.
Proof.
  apply EventBusFacts.once_wf. apply EventBusFacts.on_wf; [exact EventBusFacts.empty_bus_wf|].
  intros t f E. discriminate.
Qed.

Lemma off_undoes_on_witness :
  EventBusFacts.bus_wf sample_bus /\
  ~ In (EventBus.Fn 2) (EventBusFacts.callbacks_of sample_bus "moved") /\
  EventBus.off (EventBus.on sample_bus "moved" (EventBus.Fn 2)) "moved" (EventBus.Fn 2) = sample_bus /\
  EventBus.off (EventBus.once sample_bus "moved" 3) "moved"
    (EventBus.OnceWrapper (EventBus.next_token sample_bus) 3) =
    {| EventBus.listeners := EventBus.listeners sample_bus;
       EventBus.next_token := S (EventBus.next_token sample_bus) |}.
Proof.
  assert (Hn : ~ In (EventBus.Fn 2) (EventBusFacts.callbacks_of sample_bus "moved")).
  { vm_compute. intros [E|[E|[]]]; discriminate. }
  split; [exact sample_bus_wf|split; [exact Hn|]].
  apply EventBusFacts.off_undoes_on; [exact sample_bus_wf|exact Hn].
Defined.

Lemma emit_calls_all_drops_once_witness :
  EventBusFacts.bus_wf sample_bus /\
  map_get (EventBus.listeners sample_bus) "moved" = Some [EventBus.Fn 0; EventBus.OnceWrapper 0 1] /\
  snd (EventBus.emit sample_bus "moved") = map EventBus.target [EventBus.Fn 0; EventBus.OnceWrapper 0 1] /\
  map_get (EventBus.listeners (fst (EventBus.emit sample_bus "moved"))) "moved" =
    EventBusFacts.live_opt (filter EventBusFacts.is_fn [EventBus.Fn 0; EventBus.OnceWrapper 0 1]) /\
  (forall e', e' <> "moved" ->
     map_get (EventBus.listeners (fst (EventBus.emit sample_bus "moved"))) e' =
     map_get (EventBus.listeners sample_bus) e').
Proof.
  split; [exact sample_bus_wf|split; [vm_compute; reflexivity|]].
  apply EventBusFacts.emit_calls_all_drops_once; [exact sample_bus_wf|vm_compute; reflexivity].
Defined.

Lemma once_fires_once_witness :
  EventBusFacts.bus_wf sample_bus /\
  snd (EventBus.emit (EventBus.once sample_bus "moved" 5) "moved") =
    (map EventBus.target (EventBusFacts.callbacks_of sample_bus "moved") ++ [5])%list /\
  snd (EventBus.emit (fst (EventBus.emit (EventBus.once sample_bus "moved" 5) "moved")) "moved") =
    map EventBus.target (filter EventBusFacts.is_fn (EventBusFacts.callbacks_of sample_bus "moved")).
Proof. split; [exact sample_bus_wf|]. apply EventBusFacts.once_fires_once. exact sample_bus_wf. Defined.

Lemma clear_listeners_witness :
  EventBusFacts.bus_wf sample_bus /\
  EventBus.listenerCount (EventBus.clear sample_bus (Some "moved")) "moved" = 0%nat /\
  ("moved" <> "" -> forall e', e' <> "moved" ->
     map_get (EventBus.listeners (EventBus.clear sample_bus (Some "moved"))) e' =
     map_get (EventBus.listeners sample_bus) e') /\
  (forall e', EventBus.listenerCount (EventBus.clear sample_bus None) e' = 0%nat /\
              EventBus.listenerCount (EventBus.clear sample_bus (Some "")) e' = 0%nat).
Proof. split; [exact sample_bus_wf|]. apply EventBusFacts.clear_listeners. exact sample_bus_wf. Defined.

Lemma paintAt_paints_pointer_cell_witness :
  (0 < 300)%R /\ (0 < 300)%R /\ (0 <= 150 <= 300)%R /\ (0 <= 150 <= 300)%R /\ (0 <= 1)%Z /\
  (forall T, Some Samples.layer3 = Some T ->
     (1 <= Terrain.gridWidth T)%Z /\ (1 <= Terrain.gridHeight T)%Z /\
     List.length (Terrain.grid T) = Z.to_nat (Terrain.gridWidth T * Terrain.gridHeight T)) /\
  exists T,
    (Some Samples.layer3 = Some T \/
     (Some Samples.layer3 = None /\
      Terrain.createTerrainLayer 300 300 Terrain.DEFAULT_GRID_SIZE = Some T)) /\
    let '(cellX, cellY) := Terrain.imageToGrid 150 150 300 300 T in
    Editor.paintAt 150 150 300 300 (Some Samples.layer3) 1 (Some "forest")
      = Editor.Stored (Terrain.paintTerrain T cellX cellY 1 (Some "forest")) /\
    Terrain.getTerrainAt (Terrain.paintTerrain T cellX cellY 1 (Some "forest"))
      cellX cellY = Some "forest".
Proof.
  assert (Hm : forall T, Some Samples.layer3 = Some T ->
     (1 <= Terrain.gridWidth T)%Z /\ (1 <= Terrain.gridHeight T)%Z /\
     List.length (Terrain.grid T) = Z.to_nat (Terrain.gridWidth T * Terrain.gridHeight T)).
  { intros T [= <-]. vm_compute. repeat split; discriminate || reflexivity. }
  split; [lra|split; [lra|split; [lra|split; [lra|split; [lia|split; [exact Hm|]]]]]].
  apply paintAt_paints_pointer_cell; [lra|lra|lra|lra|lia|exact Hm].
Defined.

